(** * The vanilla node editor: graph model and execution engine

    A shallow embedding of the [NodeEditor] and [Node] classes of the
    vanilla JavaScript editor, followed by the properties of its graph
    model (connection legality, cascading delete, ids), of its execution
    engine (termination, at-most-once evaluation, frame and idempotence,
    what each node receives and in which order) and of the page built on
    them (wiring, gestures, keys and buttons).

    Conventions of the embedding:
    - a JavaScript number is an IEEE 754 binary64 value, [float]; [===]
      on numbers is [PrimFloat.eqb] (NaN differs from itself, 0 equals
      -0); node ids, connection ids and pin indices, which the code only
      counts up or obtains from [indexOf], are integers;
    - a JavaScript object used as a record with optional members
      ([config]) and a JavaScript array written by index ([inputs],
      [outputValues]) are finite maps; a missing member reads as
      [JsUndefined];
    - [Node] objects are shared between [this.nodes] and the endpoints
      of connections, and [executeGraph] mutates them in place: they live
      in a store ([heap]) and are named by reference ([NodeRef]); [===]
      on nodes is equality of references;
    - methods that mutate [this] take the editor state and return the
      new one; a call that may throw returns a [Completion];
    - the recursion of [executeGraph] is indexed by a depth allowance
      ([fuel]); that a finite allowance always suffices is a theorem;
    - drawing, dragging, and the position and highlighting of elements
      are left out: no method of the graph model reads them back; what
      a handler reads from the page (the node element around a pin, the
      direction and index of the pin) is an argument of its embedding;
    - the listeners that the constructor of the editor installs are one
      function of the event ([handle]); which events the document can
      deliver in a state (a target that is in the document, a pin or a
      field that was rendered) is a predicate of its own ([delivered]). *)

From Stdlib Require Import Floats.PrimFloat ZArith.
From stdpp Require Import base option list gmap strings sets.

(** ** JavaScript values *)

(** The values that flow through [config], [inputs] and [outputValues]:
    the editor only ever stores numbers and strings there, and reads
    [undefined] from missing members. *)
Inductive JsValue :=
  | JsUndefined
  | JsNumber (f : float)
  | JsString (s : string).

Inductive JsError := TypeError.

(** The outcome of a call that may throw. *)
Inductive Completion (A : Type) :=
  | Normal (a : A)
  | Throw (e : JsError).
Arguments Normal {A} a.
Arguments Throw {A} e.

(** The conversions between strings and numbers of the language
    runtime.  They are not code of the editor; every result below holds
    for any implementation of them. *)
Class Builtins := {
  NumberToString : float -> string;
  StringToNumber : string -> float;
  parseFloatString : string -> float
}.

Definition array_get (a : gmap Z JsValue) (i : Z) : JsValue :=
  default JsUndefined (a !! i).

Definition member (o : gmap string JsValue) (k : string) : JsValue :=
  default JsUndefined (o !! k).

Definition ToBoolean (v : JsValue) : bool :=
  match v with
  | JsUndefined => false
  | JsNumber f => negb (is_zero f || is_nan f)
  | JsString s => negb (bool_decide (s = ""))
  end.

(** [a || b] where evaluating [b] has no effect. *)
Definition js_or (a b : JsValue) : JsValue :=
  if ToBoolean a then a else b.

(** [a === b]. *)
Definition strict_eq (a b : JsValue) : bool :=
  match a, b with
  | JsUndefined, JsUndefined => true
  | JsNumber x, JsNumber y => (x =? y)%float
  | JsString s, JsString t => bool_decide (s = t)
  | _, _ => false
  end.

Definition strict_neq (a b : JsValue) : bool := negb (strict_eq a b).

Section JsOperators.
Context {rt : Builtins}.

Definition ToNumber (v : JsValue) : float :=
  match v with
  | JsUndefined => nan
  | JsNumber f => f
  | JsString s => StringToNumber s
  end.

Definition ToString (v : JsValue) : string :=
  match v with
  | JsUndefined => "undefined"
  | JsNumber f => NumberToString f
  | JsString s => s
  end.

(** [parseFloat(v)] parses a prefix of [ToString(v)].  The string of a
    number reads back as that number, except that the string of [-0]
    is ["0"]. *)
Definition parseFloat (v : JsValue) : float :=
  match v with
  | JsUndefined => nan
  | JsNumber f => if is_zero f then zero else f
  | JsString s => parseFloatString s
  end.

(** [a + b]: concatenation as soon as one operand is a string. *)
Definition js_add (a b : JsValue) : JsValue :=
  match a, b with
  | JsString _, _ | _, JsString _ => JsString (ToString a +:+ ToString b)
  | _, _ => JsNumber (ToNumber a + ToNumber b)%float
  end.

Definition js_sub (a b : JsValue) : JsValue :=
  JsNumber (ToNumber a - ToNumber b)%float.

Definition js_mul (a b : JsValue) : JsValue :=
  JsNumber (ToNumber a * ToNumber b)%float.

Definition js_div (a b : JsValue) : JsValue :=
  JsNumber (ToNumber a / ToNumber b)%float.
End JsOperators.

(** ** The output panel *)

(** The text of a line written by [NodeEditor.log], without its time
    stamp.  [MsgPrint v] is the line a print node writes for the value
    [v]. *)
Inductive LogMessage :=
  | MsgGraphStart
  | MsgGraphDone
  | MsgInputTaken
  | MsgCleared
  | MsgPrint (v : JsValue).

Inductive LogType := LogInfo | LogError.

Record LogLine := { message : LogMessage; className : LogType }.

(** ** class Node *)

Module Node.

Record Pin := { name : string; pin_type : string }.

Record NodeInfo := { title : string; inputs : list Pin; outputs : list Pin }.

(** A rendered pin row; [field] is the value shown in its inline
    editor, when it has one. *)
Record PinRow := { label : string; field : option JsValue }.

Record Element := { input_pins : list PinRow; output_pins : list PinRow }.

Record t := {
  id : Z;
  type : string;
  config : gmap string JsValue;
  element : Element;
  outputValues : gmap Z JsValue
}.

(** The own members of the [nodeTypes] literal in [getNodeInfo]. *)
Definition nodeTypes : gmap string NodeInfo :=
  {[ "number" := {| title := "숫자"; inputs := [];
                    outputs := [{| name := "값"; pin_type := "number" |}] |};
     "math" := {| title := "수학 연산";
                  inputs := [{| name := "A"; pin_type := "number" |};
                             {| name := "B"; pin_type := "number" |}];
                  outputs := [{| name := "결과"; pin_type := "number" |}] |};
     "string" := {| title := "문자열"; inputs := [];
                    outputs := [{| name := "값"; pin_type := "string" |}] |};
     "print" := {| title := "출력";
                   inputs := [{| name := "입력"; pin_type := "any" |}];
                   outputs := [] |} ]}.

(** The members every object literal inherits from [Object.prototype]
    in a browser; each is a function or an object, hence truthy, and
    has no [inputs] or [outputs] member. *)
Definition Object_prototype : list string :=
  [ "constructor"; "hasOwnProperty"; "isPrototypeOf";
    "propertyIsEnumerable"; "toLocaleString"; "toString"; "valueOf";
    "__proto__"; "__defineGetter__"; "__defineSetter__";
    "__lookupGetter__"; "__lookupSetter__" ].

(** What [nodeTypes[key]] evaluates to when it is not [undefined]. *)
Inductive Property :=
  | Shape (info : NodeInfo)
  | Inherited (key : string).

Definition nodeTypes_get (key : string) : option Property :=
  match nodeTypes !! key with
  | Some info => Some (Shape info)
  | None =>
      if bool_decide (key ∈ Object_prototype) then Some (Inherited key)
      else None
  end.

Definition number_info : NodeInfo :=
  {| title := "숫자"; inputs := [];
     outputs := [{| name := "값"; pin_type := "number" |}] |}.

(** [nodeTypes[this.type] || nodeTypes.number] *)
Definition getNodeInfo (type : string) : Property :=
  match nodeTypes_get type with
  | Some p => p
  | None => Shape number_info
  end.

Definition createInputs (type : string) (config : gmap string JsValue)
    (nodeInfo : Property) : Completion (list PinRow) :=
  match nodeInfo with
  | Inherited _ => Throw TypeError
  | Shape info =>
      Normal (imap (fun index input =>
        if bool_decide (type = "math") && bool_decide (index < 2)%nat then
          let value :=
            if bool_decide (index = 0)%nat
            then (if strict_neq (member config "valueA") JsUndefined
                  then member config "valueA" else JsNumber zero)
            else (if strict_neq (member config "valueB") JsUndefined
                  then member config "valueB" else JsNumber zero) in
          {| label := name input; field := Some value |}
        else {| label := name input; field := None |}) (inputs info))
  end.

Definition createOutputs (type : string) (config : gmap string JsValue)
    (nodeInfo : Property) : Completion (list PinRow) :=
  match nodeInfo with
  | Inherited _ => Throw TypeError
  | Shape info =>
      Normal (map (fun output =>
        if bool_decide (type = "number") then
          {| label := name output;
             field := Some (if strict_neq (member config "value") JsUndefined
                            then member config "value" else JsNumber zero) |}
        else if bool_decide (type = "string") then
          {| label := name output;
             field := Some (if strict_neq (member config "value") JsUndefined
                            then member config "value" else JsString "Hello") |}
        else if bool_decide (type = "math") then
          {| label := name output;
             field := Some (js_or (member config "operation") (JsString "add")) |}
        else {| label := name output; field := None |}) (outputs info))
  end.

Definition createElement (type : string) (config : gmap string JsValue)
    : Completion Element :=
  let nodeInfo := getNodeInfo type in
  match createInputs type config nodeInfo with
  | Throw e => Throw e
  | Normal ins =>
      match createOutputs type config nodeInfo with
      | Throw e => Throw e
      | Normal outs => Normal {| input_pins := ins; output_pins := outs |}
      end
  end.

(** [new Node(id, type, config)] *)
Definition new (id : Z) (type : string) (config : gmap string JsValue)
    : Completion t :=
  match createElement type config with
  | Throw e => Throw e
  | Normal el =>
      Normal {| id := id; type := type; config := config; element := el;
                outputValues := ∅ |}
  end.

Definition set_config (n : t) (c : gmap string JsValue) : t :=
  {| id := id n; type := type n; config := c; element := element n;
     outputValues := outputValues n |}.

Definition set_outputValues (n : t) (o : gmap Z JsValue) : t :=
  {| id := id n; type := type n; config := config n; element := element n;
     outputValues := o |}.

Definition reset (n : t) : t := set_outputValues n ∅.

Definition getOutput (n : t) (index : Z) : JsValue :=
  array_get (outputValues n) index.

Section Methods.
Context {rt : Builtins}.

(** The [value] argument is the string of the edited field. *)
Definition updateInput (n : t) (index : Z) (value : string) : t :=
  let parsed := js_or (JsNumber (parseFloat (JsString value))) (JsNumber zero) in
  if bool_decide (type n = "number") then
    set_config n (<["value" := parsed]> (config n))
  else if bool_decide (type n = "string") then
    set_config n (<["value" := JsString value]> (config n))
  else if bool_decide (type n = "math") then
    if bool_decide (index = 0)%Z
    then set_config n (<["valueA" := parsed]> (config n))
    else set_config n (<["valueB" := parsed]> (config n))
  else n.

(** The inner [switch (operation)] of the math case; [result] keeps
    its initial [0] when no case matches. *)
Definition math_result (operation a b : JsValue) : JsValue :=
  if strict_eq operation (JsString "add") then js_add a b
  else if strict_eq operation (JsString "subtract") then js_sub a b
  else if strict_eq operation (JsString "multiply") then js_mul a b
  else if strict_eq operation (JsString "divide") then
    (if strict_neq b (JsNumber zero) then js_div a b else JsNumber zero)
  else JsNumber zero.

(** The operand of the math case read at pin [i], with its member
    of [config] as fallback. *)
Definition math_operand (n : t) (inputs : gmap Z JsValue) (i : Z)
    (key : string) : JsValue :=
  if strict_neq (array_get inputs i) JsUndefined then array_get inputs i
  else js_or (JsNumber (parseFloat (member (config n) key))) (JsNumber zero).

(** [execute(inputs)]: the node after the call and the lines it
    sent to [editor.log]. *)
Definition execute (n : t) (inputs : gmap Z JsValue) : t * list LogLine :=
  if bool_decide (type n = "number") then
    (set_outputValues n
       (<[0%Z := js_or (JsNumber (parseFloat (member (config n) "value")))
                       (JsNumber zero)]> (outputValues n)), [])
  else if bool_decide (type n = "math") then
    let a := math_operand n inputs 0 "valueA" in
    let b := math_operand n inputs 1 "valueB" in
    let operation := js_or (member (config n) "operation") (JsString "add") in
    (set_outputValues n
       (<[0%Z := math_result operation a b]> (outputValues n)), [])
  else if bool_decide (type n = "string") then
    (set_outputValues n
       (<[0%Z := js_or (member (config n) "value") (JsString "Hello")]>
          (outputValues n)), [])
  else if bool_decide (type n = "print") then
    let inputValue :=
      if strict_neq (array_get inputs 0) JsUndefined then array_get inputs 0
      else JsString "없음" in
    (n, [{| message := MsgPrint inputValue; className := LogInfo |}])
  else (n, []).
End Methods.

End Node.

(** ** Connections *)

(** A reference to a [Node] object of the store. *)
Definition NodeRef := nat.

Module Connection.
Record t := {
  id : Z;
  fromNode : NodeRef;
  fromPin : Z;
  toNode : NodeRef;
  toPin : Z
}.
End Connection.

(** ** class NodeEditor *)

Module NodeEditor.
Import Connection.

(** The DOM element that the constructor of the node [r] created: a
    node never changes its element and no two nodes share one, so an
    element is known by its node. *)
Inductive DomElement := ElementOf (r : NodeRef).

#[global] Instance DomElement_eq_dec : EqDecision DomElement.
Proof. solve_decision. Defined.

Inductive PinType := input | output.

#[global] Instance PinType_eq_dec : EqDecision PinType.
Proof. solve_decision. Defined.

(** What the handlers read from [e.target]: for a pin connector, the
    node element around it, the direction of its pin and its index
    among the pins of that direction. *)
Inductive EventTarget :=
  | PinConnector (nodeElement : DomElement) (pinType : PinType) (pinIndex : Z)
  | OtherTarget.

Record ConnectionStart := {
  node : option NodeRef;
  pinType : PinType;
  pinIndex : Z
}.

(** The fields of the editor that the graph operations use, the
    store of the [Node] objects and the lines of the output panel. *)
Record t := {
  nodes : list NodeRef;
  connections : list Connection.t;
  selectedNode : option DomElement;
  connecting : bool;
  connectionStart : option ConnectionStart;
  nodeIdCounter : Z;
  connectionIdCounter : Z;
  heap : gmap NodeRef Node.t;
  outputDiv : list LogLine
}.

Definition new : t :=
  {| nodes := []; connections := []; selectedNode := None;
     connecting := false; connectionStart := None;
     nodeIdCounter := 0; connectionIdCounter := 0;
     heap := ∅; outputDiv := [] |}.

Definition set_nodes (s : t) (x : list NodeRef) : t :=
  {| nodes := x; connections := connections s;
     selectedNode := selectedNode s; connecting := connecting s;
     connectionStart := connectionStart s;
     nodeIdCounter := nodeIdCounter s;
     connectionIdCounter := connectionIdCounter s;
     heap := heap s; outputDiv := outputDiv s |}.

Definition set_connections (s : t) (x : list Connection.t) : t :=
  {| nodes := nodes s; connections := x;
     selectedNode := selectedNode s; connecting := connecting s;
     connectionStart := connectionStart s;
     nodeIdCounter := nodeIdCounter s;
     connectionIdCounter := connectionIdCounter s;
     heap := heap s; outputDiv := outputDiv s |}.

Definition set_selectedNode (s : t) (x : option DomElement) : t :=
  {| nodes := nodes s; connections := connections s;
     selectedNode := x; connecting := connecting s;
     connectionStart := connectionStart s;
     nodeIdCounter := nodeIdCounter s;
     connectionIdCounter := connectionIdCounter s;
     heap := heap s; outputDiv := outputDiv s |}.

Definition set_connecting (s : t) (b : bool)
    (x : option ConnectionStart) : t :=
  {| nodes := nodes s; connections := connections s;
     selectedNode := selectedNode s; connecting := b;
     connectionStart := x;
     nodeIdCounter := nodeIdCounter s;
     connectionIdCounter := connectionIdCounter s;
     heap := heap s; outputDiv := outputDiv s |}.

Definition set_nodeIdCounter (s : t) (x : Z) : t :=
  {| nodes := nodes s; connections := connections s;
     selectedNode := selectedNode s; connecting := connecting s;
     connectionStart := connectionStart s;
     nodeIdCounter := x;
     connectionIdCounter := connectionIdCounter s;
     heap := heap s; outputDiv := outputDiv s |}.

Definition set_connectionIdCounter (s : t) (x : Z) : t :=
  {| nodes := nodes s; connections := connections s;
     selectedNode := selectedNode s; connecting := connecting s;
     connectionStart := connectionStart s;
     nodeIdCounter := nodeIdCounter s;
     connectionIdCounter := x;
     heap := heap s; outputDiv := outputDiv s |}.

Definition set_heap (s : t) (x : gmap NodeRef Node.t) : t :=
  {| nodes := nodes s; connections := connections s;
     selectedNode := selectedNode s; connecting := connecting s;
     connectionStart := connectionStart s;
     nodeIdCounter := nodeIdCounter s;
     connectionIdCounter := connectionIdCounter s;
     heap := x; outputDiv := outputDiv s |}.

Definition set_outputDiv (s : t) (x : list LogLine) : t :=
  {| nodes := nodes s; connections := connections s;
     selectedNode := selectedNode s; connecting := connecting s;
     connectionStart := connectionStart s;
     nodeIdCounter := nodeIdCounter s;
     connectionIdCounter := connectionIdCounter s;
     heap := heap s; outputDiv := x |}.

(** [log(message, type)] appends one line to the output panel. *)
Definition log (message : LogMessage) (type : LogType) (s : t) : t :=
  set_outputDiv s (outputDiv s ++ [{| message := message; className := type |}]).

(** [this.nodes.find(n => n.element === nodeElement)] *)
Definition find_node (s : t) (nodeElement : DomElement) : option NodeRef :=
  List.find (fun n => bool_decide (ElementOf n = nodeElement)) (nodes s).

(** [addNode(type, config)]: the state after the call and what the
    call threw, if it did.  The counter is read and incremented before
    the constructor runs. *)
Definition addNode (type : string) (config : gmap string JsValue) (s : t)
    : t * option JsError :=
  let s1 := set_nodeIdCounter s (nodeIdCounter s + 1) in
  match Node.new (nodeIdCounter s) type config with
  | Throw e => (s1, Some e)
  | Normal n =>
      let r := fresh (dom (heap s1)) in
      (set_nodes (set_heap s1 (<[r := n]> (heap s1))) (nodes s1 ++ [r]), None)
  end.

Definition deselectAll (s : t) : t := set_selectedNode s None.

Definition selectNode (nodeElement : DomElement) (s : t) : t :=
  set_selectedNode (deselectAll s) (Some nodeElement).

(** [startConnection(e)], called when [e.target] is a pin connector. *)
Definition startConnection (nodeElement : DomElement) (pinType : PinType)
    (pinIndex : Z) (s : t) : t :=
  set_connecting s true
    (Some {| node := find_node s nodeElement; pinType := pinType;
             pinIndex := pinIndex |}).

Definition same_tuple (fromNode : NodeRef) (fromPin : Z) (toNode : NodeRef)
    (toPin : Z) (conn : Connection.t) : bool :=
  bool_decide (Connection.fromNode conn = fromNode)
  && bool_decide (Connection.fromPin conn = fromPin)
  && bool_decide (Connection.toNode conn = toNode)
  && bool_decide (Connection.toPin conn = toPin).

Definition same_input (toNode : NodeRef) (toPin : Z) (conn : Connection.t)
    : bool :=
  bool_decide (Connection.toNode conn = toNode)
  && bool_decide (Connection.toPin conn = toPin).

Definition createConnection (fromNode : NodeRef) (fromPin : Z)
    (toNode : NodeRef) (toPin : Z) (s : t) : t :=
  let exists_ := existsb (same_tuple fromNode fromPin toNode toPin) (connections s) in
  if exists_ then s
  else
    let inputTaken := existsb (same_input toNode toPin) (connections s) in
    if inputTaken then log MsgInputTaken LogError s
    else
      let connection :=
        {| id := connectionIdCounter s; fromNode := fromNode;
           fromPin := fromPin; toNode := toNode; toPin := toPin |} in
      set_connections
        (set_connectionIdCounter s (connectionIdCounter s + 1))
        (connections s ++ [connection]).

(** [endConnection(e)].  With [connectionStart.node] undefined the
    source would pass [undefined] on to [createConnection]; a pin
    connector of the page always lies in the element of a node of
    [this.nodes], so that [startConnection] always finds its node and the
    case does not arise: the embedding creates no connection there. *)
Definition endConnection (target : EventTarget) (s : t) : t :=
  match connecting s, connectionStart s with
  | true, Some start =>
      let s1 :=
        match target with
        | PinConnector nodeElement targetPinType targetPinIndex =>
            match find_node s nodeElement, node start with
            | Some targetNode, Some startNode =>
                if bool_decide (startNode ≠ targetNode)
                   && bool_decide (pinType start ≠ targetPinType)
                then
                  let fromNode := if bool_decide (pinType start = output)
                                  then startNode else targetNode in
                  let toNode := if bool_decide (pinType start = output)
                                then targetNode else startNode in
                  let fromPin := if bool_decide (pinType start = output)
                                 then pinIndex start else targetPinIndex in
                  let toPin := if bool_decide (pinType start = output)
                               then targetPinIndex else pinIndex start in
                  createConnection fromNode fromPin toNode toPin s
                else s
            | _, _ => s
            end
        | OtherTarget => s
        end in
      set_connecting s1 false None
  | _, _ => set_connecting s false None
  end.

Definition deleteConnection (connectionId : Z) (s : t) : t :=
  set_connections s
    (List.filter (fun conn => negb (bool_decide (id conn = connectionId)))
       (connections s)).

Definition deleteNode (nodeElement : DomElement) (s : t) : t :=
  match find_node s nodeElement with
  | None => s
  | Some node =>
      let s1 :=
        set_connections s
          (List.filter
             (fun conn => bool_decide (fromNode conn ≠ node)
                          && bool_decide (toNode conn ≠ node))
             (connections s)) in
      let s2 :=
        set_nodes s1
          (List.filter (fun n => bool_decide (n ≠ node)) (nodes s1)) in
      deselectAll s2
  end.

Definition clearAll (s : t) : t :=
  log MsgCleared LogInfo (set_connections (set_nodes s []) []).

(** The [onchange] handler of the operation selector of the node
    [node]: [node.config.operation = this.value]. *)
Definition change_operation (node : NodeRef) (value : string) (s : t) : t :=
  set_heap s
    (alter (fun n => Node.set_config n
                       (<["operation" := JsString value]> (Node.config n)))
       node (heap s)).

(** [conn.fromNode.getOutput(conn.fromPin)].  The references that the
    editor holds are to objects of the store; on any other reference
    the embedding reads [undefined] and writes nothing. *)
Definition read_output (s : t) (node : NodeRef) (index : Z) : JsValue :=
  match heap s !! node with
  | Some n => Node.getOutput n index
  | None => JsUndefined
  end.

Definition getNodeInputs (s : t) (node : NodeRef) : gmap Z JsValue :=
  let inputConnections :=
    List.filter (fun conn => bool_decide (toNode conn = node)) (connections s) in
  foldl (fun inputs conn =>
           <[toPin conn := read_output s (fromNode conn) (fromPin conn)]> inputs)
        ∅ inputConnections.

(** [node.reset()] on the object behind a reference. *)
Definition reset_node (s : t) (node : NodeRef) : t :=
  set_heap s (alter Node.reset node (heap s)).

(** The local state of one [executeGraph] call: the editor, the
    [executed] set, and the calls of [Node.execute] made so far, each
    with its receiver and its argument (oldest first). *)
Record Run := {
  editor : t;
  executed : gset NodeRef;
  calls : list (NodeRef * gmap Z JsValue)
}.

Section Execution.
Context {rt : Builtins}.

(** The [onchange] handler of an inline field of the node [node]:
    [node.updateInput(index, this.value)]. *)
Definition change_input (node : NodeRef) (index : Z) (value : string) (s : t) : t :=
  set_heap s (alter (fun n => Node.updateInput n index value) node (heap s)).

(** [node.execute(inputs)]; a print node writes to the panel of the
    one editor of the page. *)
Definition call_execute (node : NodeRef) (inputs : gmap Z JsValue) (s : t) : t :=
  match heap s !! node with
  | Some n =>
      let '(n', lines) := Node.execute n inputs in
      set_outputDiv (set_heap s (<[node := n']> (heap s))) (outputDiv s ++ lines)
  | None => s
  end.

(** The body of [executeNode] once the node is known not to be in
    [executed]: compute, then mark. *)
Definition visit (node : NodeRef) (st : Run) : Run :=
  let inputs := getNodeInputs (editor st) node in
  {| editor := call_execute node inputs (editor st);
     executed := {[node]} ∪ executed st;
     calls := calls st ++ [(node, inputs)] |}.

(** The closure [executeNode] of [executeGraph].  [fuel] bounds the
    depth of the recursion; [None] means it was not enough. *)
Fixpoint executeNode (fuel : nat) (node : NodeRef) (st : Run) : option Run :=
  match fuel with
  | O => None
  | S fuel' =>
      if bool_decide (node ∈ executed st) then Some st
      else
        let st1 := visit node st in
        foldl (fun acc conn => acc ≫= executeNode fuel' (toNode conn))
              (Some st1)
              (List.filter (fun conn => bool_decide (fromNode conn = node))
                 (connections (editor st1)))
  end.

(** The body of the last [forEach] of [executeGraph]. *)
Definition executeRoot (fuel : nat) (node : NodeRef) (st : Run) : option Run :=
  if bool_decide (node ∈ executed st) then Some st
  else executeNode fuel node st.

(** The state in which the traversal starts: the start line is
    logged, every node of the collection is reset and [executed] is
    empty. *)
Definition start_run (s : t) : Run :=
  let s1 := log MsgGraphStart LogInfo s in
  {| editor := foldl reset_node s1 (nodes s1); executed := ∅; calls := [] |}.

Definition traverse (fuel : nat) (st : Run) : option Run :=
  foldl (fun acc node => acc ≫= executeRoot fuel node)
        (Some st) (nodes (editor st)).

(** [executeGraph()]: the state after the call and the calls of
    [Node.execute] it made. *)
Definition executeGraph_fuel (fuel : nat) (s : t)
    : option (t * list (NodeRef * gmap Z JsValue)) :=
  traverse fuel (start_run s)
  ≫= fun st => Some (log MsgGraphDone LogInfo (editor st), calls st).

(** A recursion depth that always suffices: one more than the
    number of nodes the traversal can meet. *)
Definition depth_bound (s : t) : nat :=
  S (length (nodes s) + length (connections s)).

(** [executeGraph()] with the depth that suffices; the default is
    never taken ([executeGraph_trace_eq] below). *)
Definition executeGraph_trace (s : t) : t * list (NodeRef * gmap Z JsValue) :=
  default (s, []) (executeGraph_fuel (depth_bound s) s).

Definition executeGraph (s : t) : t := (executeGraph_trace s).1.
End Execution.

End NodeEditor.

(** ** Properties of graphs *)

Import NodeEditor.

(** The connections that arrive at the input pin [(toNode, toPin)]. *)
Definition incoming (toNode : NodeRef) (toPin : Z) (conns : list Connection.t)
    : list Connection.t :=
  List.filter (same_input toNode toPin) conns.

(** The connections that arrive at the node [toNode]. *)
Definition incoming_node (toNode : NodeRef) (conns : list Connection.t)
    : list Connection.t :=
  List.filter (fun conn => bool_decide (Connection.toNode conn = toNode)) conns.

(** The connections that carry the tuple [(fromNode, fromPin, toNode, toPin)]. *)
Definition copies (fromNode : NodeRef) (fromPin : Z) (toNode : NodeRef)
    (toPin : Z) (conns : list Connection.t) : list Connection.t :=
  List.filter (same_tuple fromNode fromPin toNode toPin) conns.

Definition fan_in_one (s : NodeEditor.t) : Prop :=
  forall toNode toPin, length (incoming toNode toPin (connections s)) <= 1.

Definition referential_integrity (s : NodeEditor.t) : Prop :=
  forall conn, In conn (connections s) ->
    In (Connection.fromNode conn) (nodes s) /\ In (Connection.toNode conn) (nodes s).

(** Every connection ends at a node of the collection. *)
Definition targets_owned (s : NodeEditor.t) : Prop :=
  forall conn, In conn (connections s) -> In (Connection.toNode conn) (nodes s).

Definition targets_owned_b (s : NodeEditor.t) : bool :=
  forallb (fun conn => bool_decide (Connection.toNode conn ∈ nodes s))
    (connections s).

Definition no_self_loop (s : NodeEditor.t) : Prop :=
  forall conn, In conn (connections s) ->
    Connection.fromNode conn <> Connection.toNode conn.

(** What [executeGraph] leaves alone in a [Node] object. *)
Definition same_identity (n n' : Node.t) : Prop :=
  Node.id n' = Node.id n /\ Node.type n' = Node.type n
  /\ Node.config n' = Node.config n /\ Node.element n' = Node.element n.

(** [s'] has the graph of [s]: the same collections, counters and
    gesture state, and the same objects up to their [outputValues]. *)
Record same_graph (s s' : NodeEditor.t) : Prop := {
  sg_nodes : nodes s' = nodes s;
  sg_connections : connections s' = connections s;
  sg_selectedNode : selectedNode s' = selectedNode s;
  sg_connecting : connecting s' = connecting s;
  sg_connectionStart : connectionStart s' = connectionStart s;
  sg_nodeIdCounter : nodeIdCounter s' = nodeIdCounter s;
  sg_connectionIdCounter : connectionIdCounter s' = connectionIdCounter s;
  sg_heap : forall r, option_Forall2 same_identity (heap s !! r) (heap s' !! r)
}.

(** The states that calls of the methods of the editor can produce,
    [createConnection] being called with any nodes and pins. *)
Inductive reachable : NodeEditor.t -> Prop :=
  | reach_new : reachable NodeEditor.new
  | reach_addNode type config s :
      reachable s -> reachable (addNode type config s).1
  | reach_createConnection fromNode fromPin toNode toPin s :
      reachable s -> reachable (createConnection fromNode fromPin toNode toPin s)
  | reach_deleteConnection connectionId s :
      reachable s -> reachable (deleteConnection connectionId s)
  | reach_deleteNode nodeElement s :
      reachable s -> reachable (deleteNode nodeElement s)
  | reach_clearAll s :
      reachable s -> reachable (clearAll s)
  | reach_startConnection nodeElement pinType pinIndex s :
      reachable s -> reachable (startConnection nodeElement pinType pinIndex s)
  | reach_endConnection target s :
      reachable s -> reachable (endConnection target s)
  | reach_executeGraph (rt : Builtins) s :
      reachable s -> reachable (executeGraph s)
  | reach_change_input (rt : Builtins) node index value s :
      reachable s -> reachable (change_input node index value s)
  | reach_change_operation node value s :
      reachable s -> reachable (change_operation node value s).

(** The states that the page can produce, from its buttons, mouse and
    key handlers and inline fields: connections are only made by the
    gesture that [endConnection] completes. *)
Inductive ui_reachable : NodeEditor.t -> Prop :=
  | ui_new : ui_reachable NodeEditor.new
  | ui_addNode type config s :
      ui_reachable s -> ui_reachable (addNode type config s).1
  | ui_selectNode nodeElement s :
      ui_reachable s -> ui_reachable (selectNode nodeElement s)
  | ui_deselectAll s :
      ui_reachable s -> ui_reachable (deselectAll s)
  | ui_startConnection nodeElement pinType pinIndex s :
      ui_reachable s -> ui_reachable (startConnection nodeElement pinType pinIndex s)
  | ui_endConnection target s :
      ui_reachable s -> ui_reachable (endConnection target s)
  | ui_deleteConnection connectionId s :
      ui_reachable s -> ui_reachable (deleteConnection connectionId s)
  | ui_deleteNode nodeElement s :
      ui_reachable s -> ui_reachable (deleteNode nodeElement s)
  | ui_clearAll s :
      ui_reachable s -> ui_reachable (clearAll s)
  | ui_executeGraph (rt : Builtins) s :
      ui_reachable s -> ui_reachable (executeGraph s)
  | ui_change_input (rt : Builtins) node index value s :
      ui_reachable s -> ui_reachable (change_input node index value s)
  | ui_change_operation node value s :
      ui_reachable s -> ui_reachable (change_operation node value s).

(** The nodes one traversal can meet. *)
Definition universe (s : NodeEditor.t) : gset NodeRef :=
  list_to_set (nodes s ++ map Connection.toNode (connections s)).

(** Every node that a connection ends at and another one starts from
    is in the node collection. *)
Definition relays_owned (s : NodeEditor.t) : Prop :=
  forall c1 c2, In c1 (connections s) -> In c2 (connections s) ->
    Connection.toNode c1 = Connection.fromNode c2 ->
    In (Connection.toNode c1) (nodes s).

(** The objects of [h2] are those of [h1], except that a node of [X]
    that is not in [E] and feeds no connection of [C] may already have
    received one [execute]. *)
Definition replayed {rt : Builtins} (X E : gset NodeRef) (C : list Connection.t)
    (h2 h1 : gmap NodeRef Node.t) : Prop :=
  forall r, h2 !! r = h1 !! r
    \/ (r ∈ X /\ (r ∉ E)
        /\ (forall conn, In conn C -> Connection.fromNode conn <> r)
        /\ exists i, h2 !! r = (fun n => (Node.execute n i).1) <$> (h1 !! r)).

Definition run_replay {rt : Builtins} (X : gset NodeRef) (st2 st1 : Run) : Prop :=
  connections (editor st2) = connections (editor st1)
  /\ executed st2 = executed st1
  /\ replayed X (executed st1) (connections (editor st1))
       (heap (editor st2)) (heap (editor st1)).

Definition touches (n : NodeRef) (conn : Connection.t) : bool :=
  bool_decide (Connection.fromNode conn = n)
  || bool_decide (Connection.toNode conn = n).

(** What the page maintains about the nodes that are no longer in the
    node collection: every reference is to an object of the store, a
    node outside the collection is an end of at most one connection, and
    of none while it is the start of a pending gesture. *)
Record ui_invariant (s : NodeEditor.t) : Prop := {
  ui_nodes_alloc : forall n, In n (nodes s) -> n ∈ dom (heap s);
  ui_conns_alloc : forall conn, In conn (connections s) ->
      Connection.fromNode conn ∈ dom (heap s)
      /\ Connection.toNode conn ∈ dom (heap s);
  ui_start_alloc : forall start n,
      connectionStart s = Some start -> node start = Some n -> n ∈ dom (heap s);
  ui_gone_once : forall n, ~ In n (nodes s) ->
      length (List.filter (touches n) (connections s)) <= 1;
  ui_gone_start : forall start n,
      connectionStart s = Some start -> node start = Some n ->
      ~ In n (nodes s) -> List.filter (touches n) (connections s) = []
}.

(** The recorded calls name each node at most once, and exactly the
    nodes of [executed]. *)
Definition trace_ok (st : Run) : Prop :=
  NoDup (calls st).*1 /\ forall n, n ∈ (calls st).*1 <-> n ∈ executed st.

(** One method call leaves the collection as it is, removes
    connections from it, or appends one connection at a free input pin. *)
Inductive conn_step (P : Connection.t -> Prop) (l l' : list Connection.t) : Prop :=
  | step_same : l' = l -> conn_step P l l'
  | step_filter f : l' = List.filter f l -> conn_step P l l'
  | step_push conn :
      l' = l ++ [conn] ->
      incoming (Connection.toNode conn) (Connection.toPin conn) l = [] ->
      P conn -> conn_step P l l'.

(** *** Example graphs *)

(** A stand-in for the conversions of the runtime, to run the
    definitions on the graphs below: their values are all numbers, so
    that no string is ever converted on them. *)
Definition numeric_builtins : Builtins :=
  {| NumberToString := fun _ => ""; StringToNumber := fun _ => nan;
     parseFloatString := fun _ => nan |}.

(** number(10) -> math(multiply, B = 5) -> print *)
Definition pipeline_graph : NodeEditor.t :=
  let s := (addNode "number" {[ "value" := JsNumber 10 ]} NodeEditor.new).1 in
  let s := (addNode "math" {[ "operation" := JsString "multiply";
                              "valueB" := JsNumber 5 ]} s).1 in
  let s := (addNode "print" ∅ s).1 in
  let s := createConnection 0 0 1 0 s in
  createConnection 1 0 2 0 s.

(** A math node created before the number node that feeds its pin A. *)
Definition hazard_graph : NodeEditor.t :=
  let s := (addNode "math" {[ "operation" := JsString "add" ]} NodeEditor.new).1 in
  let s := (addNode "number" {[ "value" := JsNumber 10 ]} s).1 in
  createConnection 1 0 0 0 s.

(** Two number nodes and a math node whose pin A is fed by the first. *)
Definition occupied_graph : NodeEditor.t :=
  let s := (addNode "number" {[ "value" := JsNumber 1 ]} NodeEditor.new).1 in
  let s := (addNode "number" {[ "value" := JsNumber 2 ]} s).1 in
  let s := (addNode "math" {[ "operation" := JsString "add" ]} s).1 in
  createConnection 0 0 2 0 s.

Definition one_math_node : NodeEditor.t :=
  (addNode "math" {[ "operation" := JsString "add" ]} NodeEditor.new).1.

(** A math node with A = 3, B = 4 and the add operation. *)
Definition math_3_4 : Node.t :=
  {| Node.id := 0; Node.type := "math";
     Node.config := {[ "valueA" := JsNumber 3; "valueB" := JsNumber 4;
                       "operation" := JsString "add" ]};
     Node.element := {| Node.input_pins := []; Node.output_pins := [] |};
     Node.outputValues := ∅ |}.

(** [a] is what the math case takes for its operand at pin [i]: the
    input when there is one, else the member [key] of the node's own
    [config] parsed as a number, with 0 when that gives nothing. *)
Definition reads_operand {rt : Builtins} (n : Node.t) (inputs : gmap Z JsValue)
    (i : Z) (key : string) (a : JsValue) : Prop :=
  (array_get inputs i <> JsUndefined -> a = array_get inputs i)
  /\ (array_get inputs i = JsUndefined ->
      a = js_or (JsNumber (parseFloat (member (Node.config n) key)))
                (JsNumber zero)
      /\ exists f, a = JsNumber f /\ is_nan f = false).

(** ** What a run records *)

(** The lines that [execute] sends to the panel for the call [c], the
    receiver being the object that [s] holds. *)
Definition call_lines {rt : Builtins} (s : NodeEditor.t)
    (c : NodeRef * gmap Z JsValue) : list LogLine :=
  match heap s !! c.1 with
  | Some n => (Node.execute n c.2).2
  | None => []
  end.

(** From [st0] to [st] the traversal has left alone the objects that
    are not in [executed], and has called [execute] once, with recorded
    inputs, on each of those that are. *)
Definition run_record {rt : Builtins} (st0 st : Run) : Prop :=
  trace_ok st
  /\ forall r,
       (r ∉ executed st -> heap (editor st) !! r = heap (editor st0) !! r)
       /\ (r ∈ executed st ->
           exists inputs, In (r, inputs) (calls st)
             /\ heap (editor st) !! r
                = (fun n => (Node.execute n inputs).1) <$> (heap (editor st0) !! r)).

(** The inputs of each recorded call: at a pin with one connection,
    what the source has at its output pin, after its own call when that
    came earlier and as the traversal found it otherwise; at a pin
    without connection, [undefined]. *)
Definition inputs_record (st0 st : Run) : Prop :=
  forall l1 node inputs l2,
    calls st = l1 ++ (node, inputs) :: l2 ->
    (forall conn,
        In conn (connections (editor st0)) -> Connection.toNode conn = node ->
        length (incoming node (Connection.toPin conn)
                  (connections (editor st0))) <= 1 ->
        array_get inputs (Connection.toPin conn)
        = if bool_decide (Connection.fromNode conn ∈ l1.*1)
          then read_output (editor st) (Connection.fromNode conn)
                 (Connection.fromPin conn)
          else read_output (editor st0) (Connection.fromNode conn)
                 (Connection.fromPin conn))
    /\ (forall p, incoming node p (connections (editor st0)) = [] ->
                  array_get inputs p = JsUndefined).

(** What makes [executeGraph] compute the node [c]: a connection from
    a node of [before], or the turn of [c] in the node collection, every
    node before it being in [before]. *)
Definition cause (N : list NodeRef) (C : list Connection.t)
    (before : NodeRef -> Prop) (c : NodeRef) : Prop :=
  (exists conn, In conn C /\ Connection.toNode conn = c
                /\ before (Connection.fromNode conn))
  \/ (exists pre post, N = pre ++ c :: post /\ forall m, In m pre -> before m).

(** Every recorded call has its cause among the calls before it. *)
Definition run_order (N : list NodeRef) (C : list Connection.t) (st : Run)
    : Prop :=
  nodes (editor st) = N /\ connections (editor st) = C /\ trace_ok st
  /\ forall l1 c i l2, calls st = l1 ++ (c, i) :: l2 ->
                       cause N C (fun m => m ∈ l1.*1) c.

(** Every node of [E] has had the targets of its connections computed. *)
Definition closed (C : list Connection.t) (E : gset NodeRef) : Prop :=
  forall conn, In conn C -> Connection.fromNode conn ∈ E ->
               Connection.toNode conn ∈ E.

(** From [st] to [st'] the traversal has gone on, and has finished the
    nodes it has computed in between. *)
Definition finished (st st' : Run) : Prop :=
  connections (editor st') = connections (editor st)
  /\ executed st ⊆ executed st'
  /\ forall conn, In conn (connections (editor st)) ->
       Connection.fromNode conn ∈ executed st' ->
       Connection.fromNode conn ∉ executed st ->
       Connection.toNode conn ∈ executed st'.

(** No recorded call of [c] has both [a] and [b] before it. *)
Definition apart (a b c : NodeRef) (st : Run) : Prop :=
  forall l1 i l2, calls st = l1 ++ (c, i) :: l2 ->
                  ~ (a ∈ l1.*1 /\ b ∈ l1.*1).

(** The state [st] of a traversal inside the call of [executeNode]
    that the last [forEach] makes on [root] in the state [st0]. *)
Definition within (C : list Connection.t) (a b c root : NodeRef)
    (st0 st : Run) : Prop :=
  connections (editor st) = C /\ trace_ok st /\ apart a b c st
  /\ executed st0 ⊆ executed st
  /\ (a ∈ executed st -> a ∈ executed st0 \/ a = root)
  /\ (b ∈ executed st -> b ∈ executed st0 \/ b = root).

(** The state of a traversal between two iterations of the last
    [forEach]. *)
Definition between (C : list Connection.t) (a b c : NodeRef) (st : Run)
    : Prop :=
  connections (editor st) = C /\ trace_ok st /\ apart a b c st
  /\ closed C (executed st).

(** A connection of [s] runs from [a] to [b]. *)
Definition feeds (s : NodeEditor.t) (a b : NodeRef) : Prop :=
  exists conn, In conn (connections s) /\ Connection.fromNode conn = a
               /\ Connection.toNode conn = b.

(** [n] is a node of the collection or is downstream of one. *)
Definition downstream (s : NodeEditor.t) (n : NodeRef) : Prop :=
  exists r, In r (nodes s) /\ rtc (feeds s) r n.

(** The type has an output: the case of [execute] for it writes
    [outputValues[0]]. *)
Definition produces (type : string) : bool :=
  bool_decide (type = "number") || bool_decide (type = "math")
  || bool_decide (type = "string").

(** ** Calls and ids *)

(** [s'] is [s] after one call of a method of the editor, or of a
    handler of an inline field. *)
Inductive call : NodeEditor.t -> NodeEditor.t -> Prop :=
  | call_addNode type config s : call s (addNode type config s).1
  | call_selectNode nodeElement s : call s (selectNode nodeElement s)
  | call_deselectAll s : call s (deselectAll s)
  | call_startConnection nodeElement pinType pinIndex s :
      call s (startConnection nodeElement pinType pinIndex s)
  | call_endConnection target s : call s (endConnection target s)
  | call_createConnection fromNode fromPin toNode toPin s :
      call s (createConnection fromNode fromPin toNode toPin s)
  | call_deleteConnection connectionId s : call s (deleteConnection connectionId s)
  | call_deleteNode nodeElement s : call s (deleteNode nodeElement s)
  | call_clearAll s : call s (clearAll s)
  | call_executeGraph (rt : Builtins) s : call s (executeGraph s)
  | call_change_input (rt : Builtins) node index value s :
      call s (change_input node index value s)
  | call_change_operation node value s : call s (change_operation node value s).

(** The ids of the connections are distinct and below the counter. *)
Definition connection_ids_ok (s : NodeEditor.t) : Prop :=
  NoDup (map Connection.id (connections s))
  /\ (0 <= connectionIdCounter s)%Z
  /\ forall conn, In conn (connections s) ->
                  (0 <= Connection.id conn < connectionIdCounter s)%Z.

(** The node collection has no duplicate, its nodes are objects of the
    store, and their ids are distinct and below the counter. *)
Definition node_ids_ok (s : NodeEditor.t) : Prop :=
  NoDup (nodes s)
  /\ (0 <= nodeIdCounter s)%Z
  /\ (forall r, In r (nodes s) ->
        exists n, heap s !! r = Some n
                  /\ (0 <= Node.id n < nodeIdCounter s)%Z)
  /\ forall r1 r2 n1 n2,
       In r1 (nodes s) -> In r2 (nodes s) ->
       heap s !! r1 = Some n1 -> heap s !! r2 = Some n2 ->
       Node.id n1 = Node.id n2 -> r1 = r2.

(** ** The handlers of the page *)

(** Where the mouse is: on the connector of a pin, elsewhere in the
    element of a node, or on neither. *)
Inductive MouseTarget :=
  | OnPin (nodeElement : DomElement) (pinType : PinType) (pinIndex : Z)
  | InNode (nodeElement : DomElement)
  | Elsewhere.

Inductive Button :=
  | addNumberNode | addMathNode | addStringNode | addPrintNode
  | runGraph | clearAllButton.

(** The events that the listeners of [setupEventListeners],
    [setupButtons] and [setupNodeDrag] and the inline handlers of a node
    element receive.  [mousedown] is the one that reaches the node
    container: the header of a node stops its own. *)
Inductive Event :=
  | mousedown (target : MouseTarget)
  | header_mousedown (nodeElement : DomElement)
  | mouseup (target : MouseTarget)
  | keydown (key : string)
  | click (button : Button)
  | close_click (nodeElement : DomElement)
  | input_change (node : NodeRef) (index : Z) (value : string)
  | select_change (node : NodeRef) (value : string).

Definition event_target (target : MouseTarget) : EventTarget :=
  match target with
  | OnPin nodeElement pinType pinIndex => PinConnector nodeElement pinType pinIndex
  | InNode _ | Elsewhere => OtherTarget
  end.

(** The state after the listener of the event has run, and what the
    listener threw.  The [dragging] flag, which only the move of an
    element reads, is left out. *)
Definition handle {rt : Builtins} (ev : Event) (s : NodeEditor.t)
    : NodeEditor.t * option JsError :=
  match ev with
  | mousedown (OnPin nodeElement pinType pinIndex) =>
      (startConnection nodeElement pinType pinIndex s, None)
  | mousedown (InNode nodeElement) => (selectNode nodeElement s, None)
  | mousedown Elsewhere => (deselectAll s, None)
  | header_mousedown nodeElement => (selectNode nodeElement s, None)
  | mouseup target =>
      (if connecting s then endConnection (event_target target) s else s, None)
  | keydown key =>
      (if bool_decide (key = "Delete") then
         match selectedNode s with
         | Some nodeElement => deleteNode nodeElement s
         | None => s
         end
       else s, None)
  | click addNumberNode => addNode "number" {[ "value" := JsNumber 0 ]} s
  | click addMathNode => addNode "math" {[ "operation" := JsString "add" ]} s
  | click addStringNode => addNode "string" {[ "value" := JsString "Hello" ]} s
  | click addPrintNode => addNode "print" ∅ s
  | click runGraph => (executeGraph s, None)
  | click clearAllButton => (clearAll s, None)
  | close_click nodeElement => (deleteNode nodeElement s, None)
  | input_change node index value => (change_input node index value s, None)
  | select_change node value => (change_operation node value s, None)
  end.

(** The state after the events [evs], in their order. *)
Definition run_events {rt : Builtins} (evs : list Event) (s : NodeEditor.t)
    : NodeEditor.t :=
  foldl (fun x ev => (handle ev x).1) s evs.

Definition pins (pinType : PinType) (el : Node.Element) : list Node.PinRow :=
  match pinType with
  | input => Node.input_pins el
  | output => Node.output_pins el
  end.

(** The element of the node [r] has a pin [pinIndex] of the direction
    [pinType]. *)
Definition pin_exists (s : NodeEditor.t) (r : NodeRef) (pinType : PinType)
    (pinIndex : Z) : bool :=
  match heap s !! r with
  | Some n =>
      bool_decide (0 <= pinIndex < Z.of_nat (length (pins pinType (Node.element n))))%Z
  | None => false
  end.

(** The element is in the document: [addNode] appends the element of
    a node when it pushes the node, and [deleteNode] and [clearAll]
    remove it when they drop the node. *)
Definition attached (s : NodeEditor.t) (nodeElement : DomElement) : bool :=
  match nodeElement with ElementOf r => bool_decide (r ∈ nodes s) end.

Definition has_field (row : option Node.PinRow) : bool :=
  match row with
  | Some {| Node.field := Some _ |} => true
  | _ => false
  end.

(** The events that the document can deliver in the state [s]: their
    targets are in the document, a pin is one that was rendered, and a
    change comes from a field that was rendered. *)
Definition delivered (s : NodeEditor.t) (ev : Event) : bool :=
  match ev with
  | mousedown target | mouseup target =>
      match target with
      | OnPin (ElementOf r) pinType pinIndex =>
          bool_decide (r ∈ nodes s) && pin_exists s r pinType pinIndex
      | InNode nodeElement => attached s nodeElement
      | Elsewhere => true
      end
  | header_mousedown nodeElement | close_click nodeElement => attached s nodeElement
  | keydown _ | click _ => true
  | input_change r index value =>
      bool_decide (r ∈ nodes s)
      && match heap s !! r with
         | Some n =>
             if bool_decide (Node.type n = "math")
             then bool_decide (0 <= index)%Z
                  && has_field (Node.input_pins (Node.element n) !! Z.to_nat index)
             else bool_decide (index = 0%Z)
                  && has_field (Node.output_pins (Node.element n) !! 0%nat)
         | None => false
         end
  | select_change r value =>
      bool_decide (r ∈ nodes s)
      && match heap s !! r with
         | Some n =>
             bool_decide (Node.type n = "math")
             && has_field (Node.output_pins (Node.element n) !! 0%nat)
             && bool_decide (value ∈ ["add"; "subtract"; "multiply"; "divide"])
         | None => false
         end
  end.

(** Each event of [evs] can be delivered in the state that the events
    before it lead to. *)
Fixpoint all_delivered {rt : Builtins} (evs : list Event) (s : NodeEditor.t)
    : bool :=
  match evs with
  | [] => true
  | ev :: evs' => delivered s ev && all_delivered evs' (handle ev s).1
  end.

(** The states of the editor of the page. *)
Inductive page_reachable {rt : Builtins} : NodeEditor.t -> Prop :=
  | page_new : page_reachable NodeEditor.new
  | page_event ev s :
      page_reachable s -> delivered s ev = true -> page_reachable (handle ev s).1.

(** The element of the node has as many pins as [nodeTypes] declares
    for its type. *)
Definition declared_pins (n : Node.t) : Prop :=
  exists info, Node.nodeTypes !! Node.type n = Some info
    /\ length (Node.input_pins (Node.element n)) = length (Node.inputs info)
    /\ length (Node.output_pins (Node.element n)) = length (Node.outputs info).

(** Every object of the store has the pins declared for its type,
    every connection runs from a rendered output pin to a rendered input
    pin, and a pending gesture starts at a rendered pin. *)
Record wired (s : NodeEditor.t) : Prop := {
  wired_heap : forall r n, heap s !! r = Some n -> declared_pins n;
  wired_connections : forall conn, In conn (connections s) ->
      pin_exists s (Connection.fromNode conn) output (Connection.fromPin conn) = true
      /\ pin_exists s (Connection.toNode conn) input (Connection.toPin conn) = true;
  wired_start : forall start r,
      connectionStart s = Some start -> node start = Some r ->
      pin_exists s r (pinType start) (pinIndex start) = true
}.

(** The gesture that leaves a connection behind: select the node [a],
    press on its output pin [i] and release outside the node container,
    where no listener hears it, press Delete, then release on the input
    pin [j] of [b]. *)
Definition stale_gesture (a b : NodeRef) (i j : Z) : list Event :=
  [ mousedown (InNode (ElementOf a)); mousedown (OnPin (ElementOf a) output i);
    keydown "Delete"; mouseup (OnPin (ElementOf b) input j) ].

Definition button_type (button : Button) : option string :=
  match button with
  | addNumberNode => Some "number"
  | addMathNode => Some "math"
  | addStringNode => Some "string"
  | addPrintNode => Some "print"
  | runGraph | clearAllButton => None
  end.

(** *** Example pages *)

(** Two number nodes wired to the pins A and B of a math node, by the
    buttons and the mouse. *)
Definition page_sum_events : list Event :=
  [ click addNumberNode; click addNumberNode; click addMathNode;
    mousedown (OnPin (ElementOf 0) output 0); mouseup (OnPin (ElementOf 2) input 0);
    mousedown (OnPin (ElementOf 1) output 0); mouseup (OnPin (ElementOf 2) input 1) ].

Definition page_sum : NodeEditor.t :=
  run_events (rt := numeric_builtins) page_sum_events NodeEditor.new.

(** A number node and a math node. *)
Definition page_pair : NodeEditor.t :=
  run_events (rt := numeric_builtins) [click addNumberNode; click addMathNode]
    NodeEditor.new.

(** A stand-in for the conversions of the runtime that is right on
    the strings ["0"] and ["1"], the only ones converted on the page
    below: [Number("0")] and [parseFloat("0")] are 0, [Number("1")] and
    [parseFloat("1")] are 1. *)
Definition digit_builtins : Builtins :=
  {| NumberToString := fun _ => "";
     StringToNumber := fun str =>
       if bool_decide (str = "0") then zero
       else if bool_decide (str = "1") then one else nan;
     parseFloatString := fun str =>
       if bool_decide (str = "0") then zero
       else if bool_decide (str = "1") then one else nan |}.

(** A string node whose field holds ["0"], wired to pin B of a math
    node with 1 in the field of A and the divide operation; then the run
    button. *)
Definition page_divide_events : list Event :=
  [ click addStringNode; click addMathNode;
    input_change 0 0 "0"; input_change 1 0 "1"; select_change 1 "divide";
    mousedown (OnPin (ElementOf 0) output 0); mouseup (OnPin (ElementOf 1) input 1);
    click runGraph ].

(** A math node with A = 1 and the divide operation. *)
Definition divide_1 : Node.t :=
  {| Node.id := 0; Node.type := "math";
     Node.config := {[ "valueA" := JsNumber 1;
                       "operation" := JsString "divide" ]};
     Node.element := {| Node.input_pins := []; Node.output_pins := [] |};
     Node.outputValues := ∅ |}.

(** * Proofs *)

(** *** Folding a step that may run out of fuel *)

Section FoldBind.
Context {A B : Type}.
Implicit Types (f g : B -> A -> option A) (l : list B).

Lemma foldl_bind_None f l :
  foldl (fun acc b => acc ≫= f b) None l = None.
Proof. induction l as [|b l IH]; simpl; auto. Qed.

Lemma foldl_bind_inv (P : A -> Prop) f l a a' :
  P a ->
  (forall b x x', In b l -> P x -> f b x = Some x' -> P x') ->
  foldl (fun acc b => acc ≫= f b) (Some a) l = Some a' -> P a'.
Proof.
  revert a. induction l as [|b l IH]; simpl; intros a Ha Hstep Hrun.
  - congruence.
  - destruct (f b a) as [x|] eqn:Hb.
    + apply (IH x); eauto.
    + rewrite foldl_bind_None in Hrun. discriminate.
Qed.

Lemma foldl_bind_total (P : A -> Prop) f l a :
  P a ->
  (forall b x, In b l -> P x -> exists x', f b x = Some x' /\ P x') ->
  exists a', foldl (fun acc b => acc ≫= f b) (Some a) l = Some a' /\ P a'.
Proof.
  revert a. induction l as [|b l IH]; simpl; intros a Ha Hstep.
  - eauto.
  - destruct (Hstep b a) as (x & Hx & HPx); auto.
    rewrite Hx. apply IH; eauto.
Qed.

Lemma foldl_bind_mono f g l a a' :
  (forall b x x', f b x = Some x' -> g b x = Some x') ->
  foldl (fun acc b => acc ≫= f b) (Some a) l = Some a' ->
  foldl (fun acc b => acc ≫= g b) (Some a) l = Some a'.
Proof.
  intros Hfg. revert a. induction l as [|b l IH]; simpl; intros a Hrun; auto.
  destruct (f b a) as [x|] eqn:Hb.
  - rewrite (Hfg _ _ _ Hb). auto.
  - rewrite foldl_bind_None in Hrun. discriminate.
Qed.

Lemma foldl_bind_sim (R : A -> A -> Prop) f l a1 a2 :
  R a1 a2 ->
  (forall b x1 x2, R x1 x2 -> option_Forall2 R (f b x1) (f b x2)) ->
  option_Forall2 R (foldl (fun acc b => acc ≫= f b) (Some a1) l)
                   (foldl (fun acc b => acc ≫= f b) (Some a2) l).
Proof.
  intros Ha Hstep. revert a1 a2 Ha.
  induction l as [|b l IH]; simpl; intros a1 a2 Ha.
  - by constructor.
  - destruct (Hstep b a1 a2 Ha) as [x1 x2 Hx|].
    + by apply IH.
    + rewrite !foldl_bind_None. constructor.
Qed.
End FoldBind.

(** *** What one traversal preserves *)

Section ExecutionFacts.
Context {rt : Builtins}.
Implicit Types (s : NodeEditor.t) (st : Run) (node : NodeRef).

Lemma same_identity_refl n : same_identity n n.
Proof. by repeat split. Qed.

Lemma same_identity_trans n1 n2 n3 :
  same_identity n1 n2 -> same_identity n2 n3 -> same_identity n1 n3.
Proof.
  intros (?&?&?&?) (?&?&?&?). repeat split; congruence.
Qed.

Lemma same_graph_refl s : same_graph s s.
Proof.
  split; auto. intros r. destruct (heap s !! r); constructor.
  apply same_identity_refl.
Qed.

Lemma same_graph_trans s1 s2 s3 :
  same_graph s1 s2 -> same_graph s2 s3 -> same_graph s1 s3.
Proof.
  intros [] []. split; try congruence.
  intros r. specialize (sg_heap0 r). specialize (sg_heap1 r).
  destruct sg_heap0 as [n1 n2 H12|]; inversion sg_heap1; subst; constructor.
  eapply same_identity_trans; eauto.
Qed.

Lemma same_identity_reset n : same_identity n (Node.reset n).
Proof. by repeat split. Qed.

Lemma same_identity_execute n inputs : same_identity n (Node.execute n inputs).1.
Proof.
  unfold Node.execute. repeat case_bool_decide; simpl; by repeat split.
Qed.

Lemma same_graph_log m ty s : same_graph s (log m ty s).
Proof.
  split; auto. intros r. simpl. destruct (heap s !! r); constructor.
  apply same_identity_refl.
Qed.

Lemma same_graph_reset_node s node : same_graph s (reset_node s node).
Proof.
  split; auto. intros r. simpl. rewrite lookup_alter.
  case_decide as Hr; subst; destruct (heap s !! r); simpl; constructor;
    auto using same_identity_refl, same_identity_reset.
Qed.

Lemma same_graph_reset_all s l : same_graph s (foldl reset_node s l).
Proof.
  revert s. induction l as [|r l IH]; intros s; simpl.
  - apply same_graph_refl.
  - eapply same_graph_trans; [apply same_graph_reset_node | apply IH].
Qed.

Lemma same_graph_call_execute node inputs s :
  same_graph s (call_execute node inputs s).
Proof.
  unfold call_execute. destruct (heap s !! node) as [n|] eqn:Hn.
  - pose proof (same_identity_execute n inputs) as Hid.
    destruct (Node.execute n inputs) as [n' lines]. simpl in Hid.
    split; auto. intros r. simpl.
    destruct (decide (node = r)) as [->|Hne].
    + rewrite lookup_insert_eq, Hn. by constructor.
    + rewrite lookup_insert_ne by done.
      destruct (heap s !! r); constructor. apply same_identity_refl.
  - apply same_graph_refl.
Qed.

Lemma same_graph_visit node st :
  same_graph (editor st) (editor (visit node st)).
Proof. apply same_graph_call_execute. Qed.

(** An invariant of the visited states is an invariant of the
    traversal, provided the nodes it is started on, and the targets
    of the connections it follows, satisfy [OK]. *)
Lemma executeNode_inv (I : Run -> Prop) (OK : NodeRef -> Prop) :
  (forall node st, I st -> OK node -> node ∉ executed st -> I (visit node st)) ->
  (forall st conn, I st -> In conn (connections (editor st)) ->
                   OK (Connection.toNode conn)) ->
  forall fuel node st st',
    I st -> OK node -> executeNode fuel node st = Some st' -> I st'.
Proof.
  intros Hvisit Htargets. induction fuel as [|fuel IH]; simpl;
    intros node st st' HI Hok Hrun; [discriminate|].
  case_bool_decide as Hex; [congruence|].
  pose proof (Hvisit _ _ HI Hok Hex) as HI1.
  revert Hrun. apply foldl_bind_inv; [exact HI1|].
  intros conn x x' Hconn Hx Hstep.
  apply filter_In in Hconn as [Hconn _].
  apply (IH (Connection.toNode conn) x x' Hx); [|exact Hstep].
  by apply (Htargets (visit node st)).
Qed.

Lemma executeNode_same_graph fuel node st st' :
  executeNode fuel node st = Some st' -> same_graph (editor st) (editor st').
Proof.
  apply (executeNode_inv (fun x => same_graph (editor st) (editor x))
           (fun _ => True)); auto using same_graph_refl.
  intros n x Hx _ _. eapply same_graph_trans; [exact Hx|apply same_graph_visit].
Qed.

Lemma executeNode_executed_mono fuel node st st' :
  executeNode fuel node st = Some st' -> executed st ⊆ executed st'.
Proof.
  apply (executeNode_inv (fun x => executed st ⊆ executed x) (fun _ => True));
    auto.
  intros n x Hx _ _. simpl. set_solver.
Qed.

Lemma executeNode_marks fuel node st st' :
  executeNode fuel node st = Some st' -> node ∈ executed st'.
Proof.
  destruct fuel as [|fuel]; simpl; [discriminate|].
  case_bool_decide as Hex; [congruence|].
  apply (foldl_bind_inv (fun x => node ∈ executed x)).
  - simpl. set_solver.
  - intros conn x x' _ Hx Hstep.
    apply executeNode_executed_mono in Hstep. set_solver.
Qed.

(** More fuel does not change a result. *)
Lemma executeNode_fuel_S fuel node st st' :
  executeNode fuel node st = Some st' -> executeNode (S fuel) node st = Some st'.
Proof.
  revert node st st'. induction fuel as [|fuel IH]; intros node st st' Hrun;
    [discriminate|].
  simpl in Hrun. change (executeNode (S (S fuel)) node st) with
    (if bool_decide (node ∈ executed st) then Some st
     else foldl (fun acc conn => acc ≫= executeNode (S fuel) (Connection.toNode conn))
            (Some (visit node st))
            (List.filter (fun conn => bool_decide (Connection.fromNode conn = node))
               (connections (editor (visit node st))))).
  case_bool_decide; [done|].
  revert Hrun. apply foldl_bind_mono. intros conn x x'. apply IH.
Qed.

Lemma executeNode_fuel_le fuel fuel' node st st' :
  fuel <= fuel' ->
  executeNode fuel node st = Some st' -> executeNode fuel' node st = Some st'.
Proof.
  induction 1 as [|fuel' _ IH]; auto. intros Hrun.
  apply executeNode_fuel_S. auto.
Qed.

(** *** Termination *)

Lemma unvisited_shrinks (U E : gset NodeRef) node :
  node ∈ U -> node ∉ E -> size (U ∖ ({[node]} ∪ E)) < size (U ∖ E).
Proof. intros HU HE. apply subset_size. set_solver. Qed.

Lemma unvisited_mono (U E E' : gset NodeRef) :
  E ⊆ E' -> size (U ∖ E') <= size (U ∖ E).
Proof. intros HE. apply subseteq_size. set_solver. Qed.

(** The traversal started on a node returns as soon as the fuel exceeds
    the number of nodes it has not marked yet. *)
Lemma executeNode_enough (C : list Connection.t) (U : gset NodeRef) :
  (forall conn, In conn C -> Connection.toNode conn ∈ U) ->
  forall fuel node st,
    connections (editor st) = C -> node ∈ U ->
    size (U ∖ executed st) < fuel ->
    exists st', executeNode fuel node st = Some st'.
Proof.
  intros HU. induction fuel as [|fuel IH]; intros node st HC Hnode Hsize;
    [lia|].
  simpl. case_bool_decide as Hex; [eauto|].
  pose proof (unvisited_shrinks U (executed st) node Hnode Hex) as Hlt.
  pose proof (sg_connections _ _ (same_graph_visit node st)) as HC1.
  edestruct (foldl_bind_total
               (fun x => executed (visit node st) ⊆ executed x
                         /\ connections (editor x) = C)
               (fun conn => executeNode fuel (Connection.toNode conn)))
    as (st' & Hst' & _); [| |eauto].
  - split; [done|congruence].
  - intros conn x Hconn [Hsub HCx].
    apply filter_In in Hconn as [Hconn _].
    assert (In conn C) as HinC by (rewrite <- HC, <- HC1; exact Hconn).
    destruct (IH (Connection.toNode conn) x) as [x' Hx']; auto.
    { pose proof (unvisited_mono U _ _ Hsub). simpl in *. lia. }
    exists x'. split; [done|]. split.
    + apply executeNode_executed_mono in Hx'. set_solver.
    + apply executeNode_same_graph in Hx'. destruct Hx'. congruence.
Qed.

Lemma executeRoot_inv (I : Run -> Prop) (OK : NodeRef -> Prop) :
  (forall node st, I st -> OK node -> node ∉ executed st -> I (visit node st)) ->
  (forall st conn, I st -> In conn (connections (editor st)) ->
                   OK (Connection.toNode conn)) ->
  forall fuel node st st',
    I st -> OK node -> executeRoot fuel node st = Some st' -> I st'.
Proof.
  intros Hvisit Htargets fuel node st st' HI Hok. unfold executeRoot.
  case_bool_decide; [congruence|]. by apply (executeNode_inv I OK).
Qed.

Lemma traverse_inv (I : Run -> Prop) (OK : NodeRef -> Prop) :
  (forall node st, I st -> OK node -> node ∉ executed st -> I (visit node st)) ->
  (forall st conn, I st -> In conn (connections (editor st)) ->
                   OK (Connection.toNode conn)) ->
  forall fuel st st',
    I st -> (forall n, In n (nodes (editor st)) -> OK n) ->
    traverse fuel st = Some st' -> I st'.
Proof.
  intros Hvisit Htargets fuel st st' HI Hok. unfold traverse.
  apply (foldl_bind_inv I); [done|].
  intros n x x' Hn Hx. apply (executeRoot_inv I OK); auto.
Qed.

Lemma traverse_same_graph fuel st st' :
  traverse fuel st = Some st' -> same_graph (editor st) (editor st').
Proof.
  apply (traverse_inv (fun x => same_graph (editor st) (editor x))
           (fun _ => True)); auto using same_graph_refl.
  intros n x Hx _ _. eapply same_graph_trans; [exact Hx|apply same_graph_visit].
Qed.

Lemma executeRoot_fuel_le fuel fuel' node st st' :
  fuel <= fuel' ->
  executeRoot fuel node st = Some st' -> executeRoot fuel' node st = Some st'.
Proof.
  intros Hle. unfold executeRoot. case_bool_decide; [done|].
  by apply executeNode_fuel_le.
Qed.

Lemma traverse_fuel_le fuel fuel' st st' :
  fuel <= fuel' ->
  traverse fuel st = Some st' -> traverse fuel' st = Some st'.
Proof.
  intros Hle. unfold traverse. apply foldl_bind_mono.
  intros n x x'. by apply executeRoot_fuel_le.
Qed.

Lemma size_list_to_set_le (l : list NodeRef) :
  size (list_to_set l : gset NodeRef) <= length l.
Proof.
  induction l as [|x l IH].
  - by rewrite list_to_set_nil, size_empty.
  - rewrite list_to_set_cons, size_union_alt, size_singleton. simpl.
    pose proof (subseteq_size (list_to_set l ∖ {[x]}) (list_to_set l : gset NodeRef)) as Hle.
    assert (list_to_set l ∖ {[x]} ⊆ (list_to_set l : gset NodeRef)) as Hsub
      by set_solver.
    specialize (Hle Hsub). lia.
Qed.

Lemma universe_target s conn :
  In conn (connections s) -> Connection.toNode conn ∈ universe s.
Proof.
  intros Hconn. unfold universe. rewrite elem_of_list_to_set, elem_of_app.
  right. apply list_elem_of_In, in_map, Hconn.
Qed.

Lemma universe_node s n : In n (nodes s) -> n ∈ universe s.
Proof.
  intros Hn. unfold universe. rewrite elem_of_list_to_set, elem_of_app.
  left. by apply list_elem_of_In.
Qed.

Lemma universe_size s :
  size (universe s) <= length (nodes s) + length (connections s).
Proof.
  unfold universe.
  pose proof (size_list_to_set_le
                (nodes s ++ map Connection.toNode (connections s))) as Hle.
  rewrite length_app, length_map in Hle. exact Hle.
Qed.

Lemma traverse_enough fuel st :
  size (universe (editor st)) < fuel -> exists st', traverse fuel st = Some st'.
Proof.
  intros Hfuel. unfold traverse.
  edestruct (foldl_bind_total
               (fun x => connections (editor x) = connections (editor st))
               (executeRoot fuel)) as (st' & Hst' & _); [| |eauto]; [done|].
  intros n x Hn HC. unfold executeRoot. case_bool_decide; [eauto|].
  destruct (executeNode_enough (connections (editor st)) (universe (editor st)))
    with (fuel := fuel) (node := n) (st := x) as [x' Hx']; auto.
  - apply universe_target.
  - by apply universe_node.
  - pose proof (subseteq_size (universe (editor st) ∖ executed x)
                  (universe (editor st))) as Hle.
    assert (universe (editor st) ∖ executed x ⊆ universe (editor st)) as Hsub
      by set_solver.
    specialize (Hle Hsub). lia.
  - exists x'. split; [done|].
    apply executeNode_same_graph in Hx'. destruct Hx'. congruence.
Qed.

Lemma same_graph_start_run s : same_graph s (editor (start_run s)).
Proof.
  unfold start_run. simpl.
  eapply same_graph_trans; [apply (same_graph_log MsgGraphStart LogInfo)|].
  apply same_graph_reset_all.
Qed.

Lemma same_graph_universe s s' : same_graph s s' -> universe s' = universe s.
Proof. intros []. unfold universe. congruence. Qed.

Lemma executeGraph_fuel_le fuel fuel' s r :
  fuel <= fuel' ->
  executeGraph_fuel fuel s = Some r -> executeGraph_fuel fuel' s = Some r.
Proof.
  intros Hle. unfold executeGraph_fuel.
  destruct (traverse fuel (start_run s)) as [st|] eqn:Hrun; [|discriminate].
  by rewrite (traverse_fuel_le _ _ _ _ Hle Hrun).
Qed.

(** [executeGraph] returns, whatever the graph: the bound is enough
    fuel, and any larger amount gives the same result. *)
Lemma executeGraph_fuel_enough s :
  exists st, traverse (depth_bound s) (start_run s) = Some st
    /\ forall k, executeGraph_fuel (depth_bound s + k) s
                 = Some (log MsgGraphDone LogInfo (editor st), calls st).
Proof.
  destruct (traverse_enough (depth_bound s) (start_run s)) as [st Hst].
  - rewrite (same_graph_universe _ _ (same_graph_start_run s)).
    pose proof (universe_size s). unfold depth_bound. lia.
  - exists st. split; [done|]. intros k.
    apply (executeGraph_fuel_le (depth_bound s)); [lia|].
    unfold executeGraph_fuel. by rewrite Hst.
Qed.

Lemma executeGraph_trace_eq s :
  exists st, traverse (depth_bound s) (start_run s) = Some st
    /\ executeGraph_trace s = (log MsgGraphDone LogInfo (editor st), calls st).
Proof.
  destruct (executeGraph_fuel_enough s) as (st & Hst & Hk).
  exists st. split; [done|]. unfold executeGraph_trace.
  specialize (Hk 0). rewrite Nat.add_0_r in Hk. by rewrite Hk.
Qed.

Lemma same_graph_executeGraph s : same_graph s (executeGraph s).
Proof.
  destruct (executeGraph_trace_eq s) as (st & Hst & Heq).
  unfold executeGraph. rewrite Heq. simpl.
  eapply same_graph_trans; [apply same_graph_start_run|].
  eapply same_graph_trans; [apply (traverse_same_graph _ _ _ Hst)|].
  apply same_graph_log.
Qed.

(** *** The calls of [Node.execute] *)

Lemma trace_ok_visit node st :
  trace_ok st -> node ∉ executed st -> trace_ok (visit node st).
Proof.
  intros [Hnodup Hiff] Hex. unfold trace_ok. simpl. rewrite fmap_app. simpl.
  split.
  - apply NoDup_app. split; [done|]. split; [|apply NoDup_singleton].
    intros x Hx Hx'. apply list_elem_of_singleton in Hx'. subst.
    by apply Hiff in Hx.
  - intros n. rewrite elem_of_app, list_elem_of_singleton, elem_of_union,
      elem_of_singleton, Hiff. tauto.
Qed.

Lemma traverse_trace_ok fuel st st' :
  trace_ok st -> traverse fuel st = Some st' -> trace_ok st'.
Proof.
  intros Hok. apply (traverse_inv trace_ok (fun _ => True)); auto.
  intros n x Hx _ Hex. by apply trace_ok_visit.
Qed.

Lemma trace_ok_start_run s : trace_ok (start_run s).
Proof.
  split; simpl; [constructor|]. intros n. split; intros Hn; by inversion Hn.
Qed.

Lemma executeRoot_marks fuel node st st' :
  executeRoot fuel node st = Some st' ->
  node ∈ executed st' /\ executed st ⊆ executed st'.
Proof.
  unfold executeRoot. case_bool_decide as Hex.
  - intros [= <-]. done.
  - intros Hrun. split; [by eapply executeNode_marks|
                         by eapply executeNode_executed_mono].
Qed.

Lemma foldl_executeRoot_all fuel l st st' :
  foldl (fun acc node => acc ≫= executeRoot fuel node) (Some st) l = Some st' ->
  executed st ⊆ executed st' /\ forall n, In n l -> n ∈ executed st'.
Proof.
  revert st. induction l as [|x l IH]; simpl; intros st Hrun.
  - injection Hrun as <-. split; [done|tauto].
  - destruct (executeRoot fuel x st) as [y|] eqn:Hx.
    + apply executeRoot_marks in Hx as [Hx Hsub].
      apply IH in Hrun as [Hsub' Hall]. split; [set_solver|].
      intros n [<-|Hn]; [set_solver|auto].
    + rewrite foldl_bind_None in Hrun. discriminate.
Qed.

(** *** Two traversals in step *)

Section Sim.
Variable R : Run -> Run -> Prop.
Hypothesis R_executed : forall a b, R a b -> executed a = executed b.
Hypothesis R_connections :
  forall a b, R a b -> connections (editor a) = connections (editor b).
Hypothesis R_visit :
  forall n a b, R a b -> n ∉ executed b -> R (visit n a) (visit n b).

Lemma executeNode_sim fuel node a b :
  R a b -> option_Forall2 R (executeNode fuel node a) (executeNode fuel node b).
Proof.
  revert node a b. induction fuel as [|fuel IH]; intros node a b Hsim;
    simpl; [constructor|].
  rewrite (R_executed _ _ Hsim).
  case_bool_decide as Hex; [by constructor|].
  pose proof (R_visit node _ _ Hsim Hex) as Hsim1.
  pose proof (R_connections _ _ Hsim1) as HC1.
  change (call_execute node (getNodeInputs (editor a) node) (editor a))
    with (editor (visit node a)).
  rewrite HC1.
  apply (foldl_bind_sim R
           (fun conn => executeNode fuel (Connection.toNode conn))); [done|].
  intros conn x1 x2 Hx. by apply IH.
Qed.

Lemma traverse_sim fuel a b :
  R a b -> nodes (editor a) = nodes (editor b) ->
  option_Forall2 R (traverse fuel a) (traverse fuel b).
Proof.
  intros Hsim HN. unfold traverse. rewrite HN.
  apply (foldl_bind_sim R (executeRoot fuel)); [done|].
  intros n x1 x2 Hx. unfold executeRoot.
  rewrite (R_executed _ _ Hx).
  case_bool_decide; [by constructor|]. by apply executeNode_sim.
Qed.
End Sim.

(** *** The traversal writes the nodes it visits only *)

Lemma call_execute_other node inputs s r :
  r <> node -> heap (call_execute node inputs s) !! r = heap s !! r.
Proof.
  intros Hne. unfold call_execute. destruct (heap s !! node) as [n|]; [|done].
  destruct (Node.execute n inputs) as [n' lines]. simpl.
  by rewrite lookup_insert_ne.
Qed.

Lemma reset_all_lookup s l r :
  heap (foldl reset_node s l) !! r
  = if bool_decide (r ∈ l) then Node.reset <$> heap s !! r else heap s !! r.
Proof.
  revert s. induction l as [|x l IH]; intros s.
  - rewrite bool_decide_eq_false_2; [done|]. by intros ?%elem_of_nil.
  - change (foldl reset_node s (x :: l))
      with (foldl reset_node (reset_node s x) l).
    rewrite IH.
    change (heap (reset_node s x)) with (alter Node.reset x (heap s)).
    rewrite lookup_alter.
    destruct (decide (x = r)) as [->|Hne].
    + rewrite (bool_decide_eq_true_2 (r ∈ r :: l)) by apply list_elem_of_here.
      case_bool_decide; destruct (heap s !! r); done.
    + case_bool_decide as Hin.
      * rewrite bool_decide_eq_true_2; [done|]. by apply list_elem_of_further.
      * rewrite bool_decide_eq_false_2; [done|].
        intros [?|?]%elem_of_cons; congruence.
Qed.

Lemma same_identity_reset_eq n n' :
  same_identity n n' -> Node.reset n' = Node.reset n.
Proof.
  destruct n, n'. intros (?&?&?&?). simpl in *. unfold Node.reset,
    Node.set_outputValues. simpl. congruence.
Qed.

(** A second [execute] overwrites what the first one wrote. *)
Lemma execute_absorb (n : Node.t) (i j : gmap Z JsValue) :
  (Node.execute (Node.execute n i).1 j).1 = (Node.execute n j).1.
Proof.
  unfold Node.execute. repeat case_bool_decide; simpl;
    repeat case_bool_decide; try done; simpl;
    unfold Node.set_outputValues; simpl; by rewrite ?insert_insert_eq.
Qed.

Lemma call_execute_lookup node inputs s :
  heap (call_execute node inputs s) !! node
  = (fun n => (Node.execute n inputs).1) <$> heap s !! node.
Proof.
  unfold call_execute. destruct (heap s !! node) as [n|] eqn:Hn; simpl.
  - destruct (Node.execute n inputs) as [n' lines]. simpl.
    by rewrite lookup_insert_eq.
  - by rewrite Hn.
Qed.

Lemma foldl_ext_in {A B} (f g : A -> B -> A) (l : list B) (a : A) :
  (forall x b, In b l -> f x b = g x b) -> foldl f a l = foldl g a l.
Proof.
  revert a. induction l as [|b l IH]; intros a Hfg; simpl; [done|].
  rewrite Hfg by (by left). apply IH. intros x b' Hb'. apply Hfg. by right.
Qed.

Lemma getNodeInputs_replay X E s2 s1 node :
  connections s2 = connections s1 ->
  replayed X E (connections s1) (heap s2) (heap s1) ->
  getNodeInputs s2 node = getNodeInputs s1 node.
Proof.
  intros HC Hrep. unfold getNodeInputs. rewrite HC.
  apply foldl_ext_in. intros inputs conn [Hconn _]%filter_In.
  f_equal. unfold read_output.
  destruct (Hrep (Connection.fromNode conn)) as [->|(_ & _ & Hsrc & _)];
    [done|].
  by destruct (Hsrc conn Hconn).
Qed.

Lemma run_replay_visit X node st2 st1 :
  run_replay X st2 st1 -> node ∉ executed st1 ->
  run_replay X (visit node st2) (visit node st1).
Proof.
  intros (HC & HE & Hrep) Hex.
  pose proof (sg_connections _ _ (same_graph_visit node st1)) as HC1.
  pose proof (sg_connections _ _ (same_graph_visit node st2)) as HC2.
  split; [congruence|]. split; [simpl; by rewrite HE|].
  rewrite HC1. simpl.
  rewrite (getNodeInputs_replay X _ _ _ node HC Hrep).
  set (inputs := getNodeInputs (editor st1) node).
  intros r. destruct (decide (r = node)) as [->|Hne].
  - left. rewrite !call_execute_lookup.
    destruct (Hrep node) as [->|(_ & _ & _ & i & ->)]; [done|].
    destruct (heap (editor st1) !! node) as [n|]; simpl; [|done].
    by rewrite execute_absorb.
  - rewrite !call_execute_other by done.
    destruct (Hrep r) as [Heq|(HX & HnE & Hsrc & i & Hi)]; [by left|].
    right. split; [done|]. split; [set_solver|]. split; [done|]. by exists i.
Qed.
End ExecutionFacts.

(** *** How the methods change the connection collection *)

Section GraphFacts.
Implicit Types (s : NodeEditor.t) (conn : Connection.t).

Lemma conn_step_weaken (P Q : Connection.t -> Prop) l l' :
  (forall conn, P conn -> Q conn) -> conn_step P l l' -> conn_step Q l l'.
Proof.
  intros HPQ [H|f H|conn H Hfree HP];
    [by apply step_same|by apply (step_filter _ _ _ f)|].
  apply (step_push _ _ _ conn); auto.
Qed.

Lemma existsb_false_filter {A} (f : A -> bool) (l : list A) :
  existsb f l = false <-> List.filter f l = [].
Proof.
  induction l as [|x l IH]; simpl; [done|].
  destruct (f x); simpl; [split; discriminate|exact IH].
Qed.

Lemma same_tuple_same_input fromNode fromPin toNode toPin conn :
  same_tuple fromNode fromPin toNode toPin conn = true ->
  same_input toNode toPin conn = true.
Proof.
  unfold same_tuple, same_input. intros H.
  repeat (apply andb_prop in H as [H ?]). by apply andb_true_intro.
Qed.

Lemma same_input_spec toNode toPin conn :
  same_input toNode toPin conn = true <->
  Connection.toNode conn = toNode /\ Connection.toPin conn = toPin.
Proof.
  unfold same_input. rewrite andb_true_iff, !bool_decide_eq_true. tauto.
Qed.

Lemma createConnection_step fromNode fromPin toNode toPin s :
  conn_step (fun conn => Connection.fromNode conn = fromNode
                         /\ Connection.toNode conn = toNode)
    (connections s) (connections (createConnection fromNode fromPin toNode toPin s)).
Proof.
  unfold createConnection.
  destruct (existsb (same_tuple _ _ _ _) _); [by apply step_same|].
  destruct (existsb (same_input _ _) _) eqn:Htaken; [by apply step_same|].
  eapply step_push; simpl; [reflexivity| |done].
  by apply existsb_false_filter.
Qed.

(** *** Looking a node up by its element *)

Lemma find_node_Some s nodeElement n :
  find_node s nodeElement = Some n ->
  In n (nodes s) /\ nodeElement = ElementOf n.
Proof.
  unfold find_node. intros H. apply find_some in H as [Hin Heq].
  by apply bool_decide_eq_true in Heq.
Qed.

Lemma find_node_In s n : In n (nodes s) -> find_node s (ElementOf n) = Some n.
Proof.
  unfold find_node. induction (nodes s) as [|x l IH]; simpl; [done|].
  intros [->|Hin].
  - by rewrite bool_decide_eq_true_2.
  - case_bool_decide as Heq; [|auto]. by injection Heq as ->.
Qed.


Lemma endConnection_step target s :
  conn_step (fun conn => Connection.fromNode conn <> Connection.toNode conn)
    (connections s) (connections (endConnection target s)).
Proof.
  unfold endConnection.
  destruct (connecting s); [|by apply step_same].
  destruct (connectionStart s) as [start|]; [|by apply step_same].
  destruct target as [nodeElement targetPinType targetPinIndex|];
    [|by apply step_same].
  destruct (find_node s nodeElement) as [targetNode|]; [|by apply step_same].
  destruct (node start) as [startNode|]; [|by apply step_same].
  destruct (bool_decide (startNode ≠ targetNode)) eqn:Hne; simpl;
    [|by apply step_same].
  apply bool_decide_eq_true in Hne.
  destruct (bool_decide (pinType start ≠ targetPinType)); simpl;
    [|by apply step_same].
  eapply conn_step_weaken; [|apply createConnection_step].
  intros conn [-> ->]. by case_bool_decide.
Qed.

Lemma endConnection_same_node s start n targetPinType targetPinIndex :
  connectionStart s = Some start -> node start = Some n ->
  connections (endConnection (PinConnector (ElementOf n) targetPinType
                                targetPinIndex) s)
  = connections s.
Proof.
  intros Hstart Hnode. unfold endConnection. rewrite Hstart, Hnode.
  destruct (connecting s); [|done]. simpl.
  destruct (find_node s (ElementOf n)) as [m|] eqn:Hfind; [|done].
  apply find_node_Some in Hfind as [_ [= ->]].
  by rewrite (bool_decide_eq_false_2 (m ≠ m)) by auto.
Qed.

Lemma deleteNode_step nodeElement s :
  conn_step (fun _ => False) (connections s)
    (connections (deleteNode nodeElement s)).
Proof.
  unfold deleteNode. destruct (find_node s nodeElement); [|by apply step_same].
  by eapply step_filter.
Qed.

(** *** Invariants of the connection collection *)

Lemma filter_filter_length {A} (f g : A -> bool) (l : list A) :
  length (List.filter g (List.filter f l)) <= length (List.filter g l).
Proof.
  induction l as [|x l IH]; simpl; [done|].
  destruct (f x), (g x) eqn:Hg; simpl; rewrite ?Hg; simpl; lia.
Qed.

Lemma incoming_push toNode toPin l conn :
  incoming (Connection.toNode conn) (Connection.toPin conn) l = [] ->
  length (incoming toNode toPin l) <= 1 ->
  length (incoming toNode toPin (l ++ [conn])) <= 1.
Proof.
  intros Hfree Hle. unfold incoming in *. rewrite List.filter_app, length_app.
  simpl. destruct (same_input toNode toPin conn) eqn:Hsame; simpl; [|lia].
  apply same_input_spec in Hsame as [<- <-]. rewrite Hfree. simpl. lia.
Qed.

Lemma clearAll_step P s :
  conn_step P (connections s) (connections (clearAll s)).
Proof.
  apply (step_filter _ _ _ (fun _ => false)). simpl.
  induction (connections s) as [|conn l IH]; simpl; auto.
Qed.
End GraphFacts.

(** ** The connection collection *)

Section ConnectionInvariants.
Implicit Types (s : NodeEditor.t) (conn : Connection.t).

Lemma reachable_connections (Q : list Connection.t -> Prop) :
  Q [] ->
  (forall l l', Q l -> conn_step (fun _ => True) l l' -> Q l') ->
  forall s, reachable s -> Q (connections s).
Proof.
  intros Hnil Hstep s Hs.
  induction Hs as [|type config s H IH|fromNode fromPin toNode toPin s H IH
                  |connectionId s H IH|nodeElement s H IH|s H IH
                  |nodeElement pinType pinIndex s H IH|target s H IH|rt s H IH
                  |rt node index value s H IH|node value s H IH];
    [exact Hnil|apply (Hstep _ _ IH)..].
  - apply step_same. unfold addNode. by destruct (Node.new _ _ _).
  - eapply conn_step_weaken; [|apply createConnection_step]. done.
  - by eapply step_filter.
  - eapply conn_step_weaken; [|apply deleteNode_step]. done.
  - apply clearAll_step.
  - by apply step_same.
  - eapply conn_step_weaken; [|apply endConnection_step]. done.
  - apply step_same. apply (sg_connections _ _ (same_graph_executeGraph s)).
  - by apply step_same.
  - by apply step_same.
Qed.

Lemma ui_reachable_connections (Q : list Connection.t -> Prop) :
  Q [] ->
  (forall l l',
      Q l ->
      conn_step (fun conn => Connection.fromNode conn <> Connection.toNode conn)
        l l' -> Q l') ->
  forall s, ui_reachable s -> Q (connections s).
Proof.
  intros Hnil Hstep s Hs.
  induction Hs as [|type config s H IH|nodeElement s H IH|s H IH
                  |nodeElement pinType pinIndex s H IH|target s H IH
                  |connectionId s H IH|nodeElement s H IH|s H IH|rt s H IH
                  |rt node index value s H IH|node value s H IH];
    [exact Hnil|apply (Hstep _ _ IH)..].
  - apply step_same. unfold addNode. by destruct (Node.new _ _ _).
  - by apply step_same.
  - by apply step_same.
  - by apply step_same.
  - apply endConnection_step.
  - by eapply step_filter.
  - eapply conn_step_weaken; [|apply deleteNode_step]. done.
  - apply clearAll_step.
  - apply step_same. apply (sg_connections _ _ (same_graph_executeGraph s)).
  - by apply step_same.
  - by apply step_same.
Qed.

Lemma fan_in_list_step P l l' :
  conn_step P l l' ->
  (forall toNode toPin, length (incoming toNode toPin l) <= 1) ->
  forall toNode toPin, length (incoming toNode toPin l') <= 1.
Proof.
  intros Hstep Hfan toNode toPin. specialize (Hfan toNode toPin).
  destruct Hstep as [->|f ->|conn -> Hfree _]; [done| |].
  - unfold incoming in *. etrans; [apply filter_filter_length|done].
  - by apply incoming_push.
Qed.

Lemma reachable_fan_in s : reachable s -> fan_in_one s.
Proof.
  intros Hs.
  refine (reachable_connections
            (fun l => forall toNode toPin, length (incoming toNode toPin l) <= 1)
            _ _ s Hs).
  - intros toNode toPin. simpl. lia.
  - intros l l' Hl Hstep. by eapply fan_in_list_step.
Qed.

Lemma createConnection_occupied fromNode fromPin toNode toPin s :
  incoming toNode toPin (connections s) <> [] ->
  connections (createConnection fromNode fromPin toNode toPin s) = connections s
  /\ connectionIdCounter (createConnection fromNode fromPin toNode toPin s)
     = connectionIdCounter s.
Proof.
  intros Hocc. unfold createConnection.
  destruct (existsb (same_tuple _ _ _ _) _); [done|].
  destruct (existsb (same_input _ _) _) eqn:Htaken; [done|].
  by apply existsb_false_filter in Htaken.
Qed.

(** C1. In every state that the methods of the editor can produce,
    whatever the sequence of [createConnection] calls, each input pin
    has at most one incoming connection; and a [createConnection] onto
    an input pin that already has one leaves the connection collection
    (and the connection counter) unchanged. *)
Theorem fan_in_invariant s :
  reachable s ->
  (forall toNode toPin, length (incoming toNode toPin (connections s)) <= 1)
  /\ (forall fromNode fromPin toNode toPin,
        incoming toNode toPin (connections s) <> [] ->
        connections (createConnection fromNode fromPin toNode toPin s)
        = connections s
        /\ connectionIdCounter (createConnection fromNode fromPin toNode toPin s)
           = connectionIdCounter s).
Proof.
  intros Hs. split; [by apply reachable_fan_in|].
  intros. by apply createConnection_occupied.
Qed.

Lemma fan_in_invariant_witness :
  length (incoming 2 0 (connections occupied_graph)) <= 1
  /\ connections (createConnection 1 0 2 0 occupied_graph)
     = connections occupied_graph.
Proof.
  assert (reachable occupied_graph) as Hreach
    by (unfold occupied_graph; repeat constructor).
  destruct (fan_in_invariant occupied_graph Hreach) as [Hfan Hrej].
  split; [apply Hfan|].
  apply (Hrej 1 0%Z 2 0%Z). vm_compute. discriminate.
Defined.

(** *** Deleting a node *)





(** *** Creating the same connection twice *)

Lemma copies_incoming fromNode fromPin toNode toPin l :
  length (copies fromNode fromPin toNode toPin l)
  <= length (incoming toNode toPin l).
Proof.
  unfold copies, incoming. induction l as [|conn l IH]; simpl; [done|].
  destruct (same_tuple _ _ _ _ conn) eqn:Htuple.
  - rewrite (same_tuple_same_input _ _ _ _ _ Htuple). simpl. lia.
  - destruct (same_input _ _ conn); simpl; lia.
Qed.

Lemma createConnection_copies fromNode fromPin toNode toPin s :
  copies fromNode fromPin toNode toPin
    (connections (createConnection fromNode fromPin toNode toPin s))
  = if existsb (same_tuple fromNode fromPin toNode toPin) (connections s)
    then copies fromNode fromPin toNode toPin (connections s)
    else if existsb (same_input toNode toPin) (connections s) then []
    else [ {| Connection.id := connectionIdCounter s;
              Connection.fromNode := fromNode; Connection.fromPin := fromPin;
              Connection.toNode := toNode; Connection.toPin := toPin |} ].
Proof.
  unfold createConnection.
  destruct (existsb (same_tuple _ _ _ _) (connections s)) eqn:Hex; [done|].
  apply existsb_false_filter in Hex.
  destruct (existsb (same_input _ _) (connections s)) eqn:Htaken; simpl.
  - exact Hex.
  - unfold copies in *. rewrite List.filter_app, Hex. simpl.
    unfold same_tuple. simpl. by rewrite !bool_decide_eq_true_2 by done.
Qed.

(** C5, as the code has it. In a state that the methods of the editor
    can produce, two [createConnection] calls with the same tuple leave
    exactly one connection with that tuple in the collection, and the
    second call changes nothing at all: the duplicate test returns before
    anything is written.  The one exception is a tuple that is not in the
    collection while another connection holds its input pin: both calls
    are then rejected by the test of the pin, each writes its error line
    to the panel and nothing else, and no connection carries the
    tuple. *)
Theorem createConnection_twice fromNode fromPin toNode toPin s :
  reachable s ->
  let s1 := createConnection fromNode fromPin toNode toPin s in
  let s2 := createConnection fromNode fromPin toNode toPin s1 in
  (copies fromNode fromPin toNode toPin (connections s) <> []
   \/ incoming toNode toPin (connections s) = [] ->
   s2 = s1
   /\ length (copies fromNode fromPin toNode toPin (connections s2)) = 1)
  /\ (copies fromNode fromPin toNode toPin (connections s) = [] ->
      incoming toNode toPin (connections s) <> [] ->
      s1 = log MsgInputTaken LogError s
      /\ s2 = log MsgInputTaken LogError s1
      /\ connections s2 = connections s
      /\ copies fromNode fromPin toNode toPin (connections s2) = []).
Proof.
  intros Hs s1 s2. subst s1 s2. split.
  - intros Hcase.
    destruct (existsb (same_tuple fromNode fromPin toNode toPin) (connections s))
      eqn:Hex.
    + assert (createConnection fromNode fromPin toNode toPin s = s) as ->
        by (unfold createConnection; by rewrite Hex).
      assert (createConnection fromNode fromPin toNode toPin s = s) as ->
        by (unfold createConnection; by rewrite Hex).
      split; [done|].
      pose proof (copies_incoming fromNode fromPin toNode toPin (connections s)).
      pose proof (reachable_fan_in s Hs toNode toPin).
      destruct (copies fromNode fromPin toNode toPin (connections s)) eqn:Hc.
      * apply existsb_false_filter in Hc. unfold NodeRef in *. congruence.
      * simpl in *. lia.
    + pose proof Hex as Hnone. apply existsb_false_filter in Hnone.
      destruct Hcase as [Hcopy|Hfree]; [done|].
      apply existsb_false_filter in Hfree.
      pose proof (createConnection_copies fromNode fromPin toNode toPin s)
        as Hone.
      rewrite Hex, Hfree in Hone.
      assert (createConnection fromNode fromPin toNode toPin
                (createConnection fromNode fromPin toNode toPin s)
              = createConnection fromNode fromPin toNode toPin s) as ->.
      { unfold createConnection at 1.
        destruct (existsb (same_tuple fromNode fromPin toNode toPin)
                    (connections (createConnection fromNode fromPin toNode
                                    toPin s))) eqn:Hdup; [done|].
        apply existsb_false_filter in Hdup. unfold copies in Hone.
        by rewrite Hdup in Hone. }
      split; [done|]. by rewrite Hone.
  - intros Hnone Htaken.
    apply existsb_false_filter in Hnone.
    assert (existsb (same_input toNode toPin) (connections s) = true) as Hin.
    { destruct (existsb (same_input toNode toPin) (connections s)) eqn:Hin;
        [done|]. by apply existsb_false_filter in Hin. }
    assert (createConnection fromNode fromPin toNode toPin s
            = log MsgInputTaken LogError s) as ->
      by (unfold createConnection; by rewrite Hnone, Hin).
    assert (createConnection fromNode fromPin toNode toPin
              (log MsgInputTaken LogError s)
            = log MsgInputTaken LogError (log MsgInputTaken LogError s)) as ->
      by (unfold createConnection; simpl; by rewrite Hnone, Hin).
    split; [done|]. split; [done|]. split; [done|].
    simpl. by apply existsb_false_filter.
Qed.

Lemma createConnection_twice_witness :
  reachable pipeline_graph
  /\ createConnection 0 0 1 0 (createConnection 0 0 1 0 pipeline_graph)
     = createConnection 0 0 1 0 pipeline_graph
  /\ length (copies 0 0 1 0
               (connections (createConnection 0 0 1 0
                               (createConnection 0 0 1 0 pipeline_graph))))
     = 1.
Proof.
  assert (reachable pipeline_graph) as Hreach
    by (unfold pipeline_graph; repeat constructor).
  split; [exact Hreach|].
  apply (proj1 (createConnection_twice 0 0%Z 1 0%Z pipeline_graph Hreach)).
  left. vm_compute. discriminate.
Defined.

(** C5 as stated fails: the input pin [(2, 0)] of [occupied_graph] is
    fed by node 0; after two calls that connect node 1 to it, no
    connection of the collection carries that tuple, and the second call
    has written a line to the panel. *)
Lemma createConnection_twice_counterexample :
  reachable occupied_graph
  /\ length (copies 1 0 2 0
               (connections (createConnection 1 0 2 0
                               (createConnection 1 0 2 0 occupied_graph))))
     = 0
  /\ outputDiv (createConnection 1 0 2 0
                  (createConnection 1 0 2 0 occupied_graph))
     = outputDiv (createConnection 1 0 2 0 occupied_graph)
       ++ [ {| message := MsgInputTaken; className := LogError |} ].
Proof.
  split; [unfold occupied_graph; repeat constructor|].
  split; vm_compute; reflexivity.
Qed.

(** *** Self-loops *)

Lemma ui_reachable_no_self_loop s : ui_reachable s -> no_self_loop s.
Proof.
  intros Hs.
  refine (ui_reachable_connections
            (fun l => forall conn, In conn l ->
                        Connection.fromNode conn <> Connection.toNode conn)
            _ _ s Hs).
  - intros conn [].
  - intros l l' Hl Hstep conn.
    destruct Hstep as [->|f ->|c -> _ Hc]; [by apply Hl| |].
    + intros [Hin _]%filter_In. by apply Hl.
    + intros [Hin|[<-|[]]]%in_app_or; [by apply Hl|done].
Qed.

(** C8, as the code has it. In every state that the page can produce,
    where connections are made by the gesture that [endConnection]
    completes, each connection joins two distinct nodes; [endConnection]
    on a pin of the node the gesture started from leaves the collection
    unchanged.  ([createConnection] itself performs no such check.) *)
Theorem no_self_loop_by_gesture s :
  ui_reachable s ->
  (forall conn, In conn (connections s) ->
                Connection.fromNode conn <> Connection.toNode conn)
  /\ (forall start n targetPinType targetPinIndex,
        connectionStart s = Some start -> node start = Some n ->
        connections (endConnection (PinConnector (ElementOf n) targetPinType
                                      targetPinIndex) s)
        = connections s).
Proof.
  intros Hs. split; [by apply ui_reachable_no_self_loop|].
  intros; by eapply endConnection_same_node.
Qed.

(** A gesture from the output pin of node 0 of [pipeline_graph] that
    ends on the input pin of node 1, replayed on the page. *)
Lemma no_self_loop_by_gesture_witness :
  Forall (fun conn => Connection.fromNode conn <> Connection.toNode conn)
    (connections
       (endConnection (PinConnector (ElementOf 1) input 0)
          (startConnection (ElementOf 0) output 0
             (addNode "math" ∅ (addNode "number" ∅ NodeEditor.new).1).1))).
Proof.
  apply List.Forall_forall.
  apply (no_self_loop_by_gesture
           (endConnection (PinConnector (ElementOf 1) input 0)
              (startConnection (ElementOf 0) output 0
                 (addNode "math" ∅ (addNode "number" ∅ NodeEditor.new).1).1))).
  repeat constructor.
Defined.

(** C8 as stated fails for [createConnection]: called with the same
    node at both ends it stores the connection. *)
Lemma self_loop_counterexample :
  reachable one_math_node
  /\ connections (createConnection 0 0 0 0 one_math_node)
     = [ {| Connection.id := 0; Connection.fromNode := 0;
            Connection.fromPin := 0; Connection.toNode := 0;
            Connection.toPin := 0 |} ].
Proof.
  split; [unfold one_math_node; repeat constructor|].
  vm_compute. reflexivity.
Qed.

(** *** Creating and deleting one connection *)

(** X4. When no connection carries the tuple and its input pin is free,
    [createConnection] appends exactly one connection, with the tuple
    and the current counter as id, and increments the counter. *)
Theorem createConnection_fresh fromNode fromPin toNode toPin s :
  copies fromNode fromPin toNode toPin (connections s) = [] ->
  incoming toNode toPin (connections s) = [] ->
  connections (createConnection fromNode fromPin toNode toPin s)
  = connections s
    ++ [ {| Connection.id := connectionIdCounter s;
            Connection.fromNode := fromNode; Connection.fromPin := fromPin;
            Connection.toNode := toNode; Connection.toPin := toPin |} ]
  /\ connectionIdCounter (createConnection fromNode fromPin toNode toPin s)
     = (connectionIdCounter s + 1)%Z.
Proof.
  intros Hnew%existsb_false_filter Hfree%existsb_false_filter.
  unfold createConnection. by rewrite Hnew, Hfree.
Qed.

Lemma createConnection_fresh_witness :
  connections (createConnection 1 7 2 9 NodeEditor.new)
  = [ {| Connection.id := 0; Connection.fromNode := 1; Connection.fromPin := 7;
         Connection.toNode := 2; Connection.toPin := 9 |} ]
  /\ connectionIdCounter (createConnection 1 7 2 9 NodeEditor.new) = 1%Z.
Proof.
  apply (createConnection_fresh 1 7%Z 2 9%Z NodeEditor.new); reflexivity.
Defined.

(** X3. [deleteConnection] removes every connection with the given id
    and no other; it changes nothing when no connection has the id, and
    a second call changes nothing. *)
Theorem deleteConnection_idempotent connectionId s :
  (forall conn, In conn (connections (deleteConnection connectionId s)) <->
                In conn (connections s) /\ Connection.id conn <> connectionId)
  /\ ((forall conn, In conn (connections s) ->
                    Connection.id conn <> connectionId) ->
      deleteConnection connectionId s = s)
  /\ deleteConnection connectionId (deleteConnection connectionId s)
     = deleteConnection connectionId s.
Proof.
  assert (forall l : list Connection.t,
             (forall conn, In conn l -> Connection.id conn <> connectionId) ->
             List.filter
               (fun conn => negb (bool_decide (Connection.id conn = connectionId)))
               l = l) as Hkeep.
  { induction l as [|conn l IH]; simpl; intros Hall; [done|].
    rewrite bool_decide_eq_false_2 by (apply Hall; by left). simpl.
    f_equal. apply IH. intros c Hc. apply Hall. by right. }
  split; [|split].
  - intros conn. unfold deleteConnection. simpl.
    rewrite filter_In, negb_true_iff, bool_decide_eq_false. tauto.
  - intros Hall. unfold deleteConnection. rewrite (Hkeep _ Hall).
    by destruct s.
  - unfold deleteConnection. simpl. f_equal. apply Hkeep.
    intros conn [_ Hid]%filter_In.
    by apply negb_true_iff, bool_decide_eq_false in Hid.
Qed.
End ConnectionInvariants.

(** ** What the page maintains *)

Section UiFacts.
Implicit Types (s : NodeEditor.t) (conn : Connection.t).

Lemma filter_nil_filter {A} (f g : A -> bool) (l : list A) :
  List.filter g l = [] -> List.filter g (List.filter f l) = [].
Proof.
  intros Hnil. pose proof (filter_filter_length f g l) as Hle.
  rewrite Hnil in Hle. simpl in Hle.
  destruct (List.filter g (List.filter f l)); [done|simpl in Hle; lia].
Qed.

Lemma filter_excluded {A} (f g : A -> bool) (l : list A) :
  (forall x, f x = true -> g x = false) -> List.filter g (List.filter f l) = [].
Proof.
  intros Hfg. induction l as [|x l IH]; simpl; [done|].
  destruct (f x) eqn:Hf; [|done]. simpl. by rewrite (Hfg x Hf).
Qed.

Lemma filter_le_1_unique {A} (f : A -> bool) (l : list A) (a b : A) :
  length (List.filter f l) <= 1 -> In a l -> In b l ->
  f a = true -> f b = true -> a = b.
Proof.
  intros Hle Ha Hb Hfa Hfb.
  assert (In a (List.filter f l)) as Ha' by (apply filter_In; auto).
  assert (In b (List.filter f l)) as Hb' by (apply filter_In; auto).
  destruct (List.filter f l) as [|x [|y l']]; simpl in *; [done| |lia].
  destruct Ha' as [<-|[]], Hb' as [<-|[]]. done.
Qed.

Lemma touches_spec n conn :
  touches n conn = true <->
  Connection.fromNode conn = n \/ Connection.toNode conn = n.
Proof. unfold touches. rewrite orb_true_iff, !bool_decide_eq_true. tauto. Qed.

Lemma same_graph_dom s s' : same_graph s s' -> dom (heap s') = dom (heap s).
Proof.
  intros Hsg. apply set_eq. intros r. rewrite !elem_of_dom.
  destruct (sg_heap _ _ Hsg r) as [n n' _|]; split; intros [? ?]; eauto;
    discriminate.
Qed.

Lemma ui_invariant_same_graph s s' :
  same_graph s s' -> ui_invariant s -> ui_invariant s'.
Proof.
  intros Hsg [H1 H2 H3 H4 H5]. pose proof (same_graph_dom _ _ Hsg) as Hdom.
  destruct Hsg as [HN HC _ _ HS _ _ _].
  split; rewrite ?HN, ?HC, ?HS, ?Hdom; auto.
Qed.

Lemma ui_invariant_heap s (h : gmap NodeRef Node.t) :
  dom h = dom (heap s) -> ui_invariant s -> ui_invariant (set_heap s h).
Proof. intros Hdom [H1 H2 H3 H4 H5]. split; simpl; rewrite ?Hdom; auto. Qed.

Lemma ui_invariant_new : ui_invariant NodeEditor.new.
Proof. split; simpl; try done. intros; lia. Qed.

Lemma ui_invariant_addNode type config s :
  ui_invariant s -> ui_invariant (addNode type config s).1.
Proof.
  intros [H1 H2 H3 H4 H5]. unfold addNode.
  destruct (Node.new _ _ _) as [n|e]; simpl; [|by split].
  pose proof (is_fresh (dom (heap s))) as Hfresh.
  set (r := fresh (dom (heap s))) in *.
  split; simpl.
  - intros m [Hm|[<-|[]]]%in_app_or; rewrite dom_insert_L; set_solver.
  - intros conn Hconn. destruct (H2 conn Hconn).
    rewrite dom_insert_L. set_solver.
  - intros start m Hs Hm. rewrite dom_insert_L.
    pose proof (H3 start m Hs Hm). set_solver.
  - intros m Hm. apply H4. intros Hin. apply Hm, in_or_app. by left.
  - intros start m Hs Hm Hnot. apply (H5 start m Hs Hm).
    intros Hin. apply Hnot, in_or_app. by left.
Qed.

Lemma ui_invariant_startConnection nodeElement pinType pinIndex s :
  ui_invariant s -> ui_invariant (startConnection nodeElement pinType pinIndex s).
Proof.
  intros [H1 H2 H3 H4 H5]. split; simpl; auto.
  - intros start n [= <-]. simpl. intros [Hin _]%find_node_Some. auto.
  - intros start n [= <-]. simpl. intros [Hin _]%find_node_Some Hnot. done.
Qed.

Lemma ui_invariant_filter f s :
  ui_invariant s -> ui_invariant (set_connections s (List.filter f (connections s))).
Proof.
  intros [H1 H2 H3 H4 H5]. split; simpl; auto.
  - intros conn [Hconn _]%filter_In. auto.
  - intros n Hn. etrans; [apply filter_filter_length|auto].
  - intros start n Hs Hn Hnot. apply filter_nil_filter. eauto.
Qed.

Lemma ui_invariant_deleteNode nodeElement s :
  ui_invariant s -> ui_invariant (deleteNode nodeElement s).
Proof.
  intros Hinv. unfold deleteNode.
  destruct (find_node s nodeElement) as [n|] eqn:Hfind; [|done].
  pose proof (ui_invariant_filter
                (fun conn => bool_decide (Connection.fromNode conn ≠ n)
                             && bool_decide (Connection.toNode conn ≠ n))
                s Hinv) as [H1 H2 H3 H4 H5].
  simpl in *.
  assert (forall m, List.filter (touches m)
            (List.filter (fun conn => bool_decide (Connection.fromNode conn ≠ m)
                                      && bool_decide (Connection.toNode conn ≠ m))
               (connections s)) = []) as Hnone.
  { intros m. apply filter_excluded. intros conn Hkeep.
    apply andb_prop in Hkeep
      as [Hfrom%bool_decide_eq_true Hto%bool_decide_eq_true].
    unfold touches. by rewrite !bool_decide_eq_false_2. }
  split; simpl; auto.
  - intros m [Hm _]%filter_In. auto.
  - intros m Hm. destruct (decide (m = n)) as [->|Hne].
    + rewrite Hnone. simpl. lia.
    + apply H4. intros Hin. apply Hm, filter_In.
      split; [done|by apply bool_decide_eq_true].
  - intros start m Hs Hm Hnot. destruct (decide (m = n)) as [->|Hne].
    + apply Hnone.
    + apply (H5 start m Hs Hm). intros Hin. apply Hnot, filter_In.
      split; [done|by apply bool_decide_eq_true].
Qed.

Lemma ui_invariant_clearAll s : ui_invariant s -> ui_invariant (clearAll s).
Proof.
  intros [H1 H2 H3 H4 H5]. split; simpl; auto; done.
Qed.

Lemma ui_invariant_gesture_off s :
  ui_invariant s -> ui_invariant (set_connecting s false None).
Proof. intros [H1 H2 H3 H4 H5]. split; simpl; auto; done. Qed.

Lemma filter_touches_push n l conn :
  List.filter (touches n) (l ++ [conn])
  = List.filter (touches n) l ++ (if touches n conn then [conn] else []).
Proof. rewrite List.filter_app. simpl. by destruct (touches n conn). Qed.

(** A connection between the start of the gesture and a node of the
    collection, as [endConnection] makes it. *)
Lemma ui_invariant_connect fromNode fromPin toNode toPin start startNode s :
  ui_invariant s ->
  connectionStart s = Some start -> node start = Some startNode ->
  (fromNode = startNode /\ In toNode (nodes s)
   \/ toNode = startNode /\ In fromNode (nodes s)) ->
  ui_invariant
    (set_connecting (createConnection fromNode fromPin toNode toPin s) false None).
Proof.
  intros Hinv Hs Hstart Hends. unfold createConnection.
  destruct (existsb (same_tuple _ _ _ _) _);
    [by apply ui_invariant_gesture_off|].
  destruct (existsb (same_input _ _) _).
  { apply ui_invariant_gesture_off. destruct Hinv. by split. }
  destruct Hinv as [H1 H2 H3 H4 H5]. split; simpl; auto; try done.
  - intros conn [Hconn|[<-|[]]]%in_app_or; [auto|]. simpl.
    pose proof (H3 start startNode Hs Hstart).
    destruct Hends as [[-> Hin]|[-> Hin]]; auto.
  - intros n Hn. rewrite filter_touches_push, length_app.
    destruct (touches n _) eqn:Ht; simpl; [|specialize (H4 n Hn); lia].
    apply touches_spec in Ht. simpl in Ht.
    assert (n = startNode) as ->.
    { destruct Hends as [[-> Hin]|[-> Hin]], Ht as [<-|<-]; done. }
    rewrite (H5 start startNode Hs Hstart Hn). simpl. lia.
Qed.

Lemma ui_invariant_endConnection target s :
  ui_invariant s -> ui_invariant (endConnection target s).
Proof.
  intros Hinv. unfold endConnection.
  destruct (connecting s); [|by apply ui_invariant_gesture_off].
  destruct (connectionStart s) as [start|] eqn:Hs;
    [|by apply ui_invariant_gesture_off].
  destruct target as [nodeElement targetPinType targetPinIndex|];
    [|by apply ui_invariant_gesture_off].
  destruct (find_node s nodeElement) as [targetNode|] eqn:Hfind;
    [|by apply ui_invariant_gesture_off].
  apply find_node_Some in Hfind as [Hin _].
  destruct (node start) as [startNode|] eqn:Hstart;
    [|by apply ui_invariant_gesture_off].
  destruct (bool_decide (startNode ≠ targetNode)
            && bool_decide (pinType start ≠ targetPinType));
    [|by apply ui_invariant_gesture_off].
  apply (ui_invariant_connect _ _ _ _ start startNode); auto.
  case_bool_decide; auto.
Qed.

Lemma ui_reachable_invariant s : ui_reachable s -> ui_invariant s.
Proof.
  induction 1 as [|type config s H IH|nodeElement s H IH|s H IH
                 |nodeElement pinType pinIndex s H IH|target s H IH
                 |connectionId s H IH|nodeElement s H IH|s H IH|rt s H IH
                 |rt node index value s H IH|node value s H IH].
  - apply ui_invariant_new.
  - by apply ui_invariant_addNode.
  - destruct IH. by split.
  - destruct IH. by split.
  - by apply ui_invariant_startConnection.
  - by apply ui_invariant_endConnection.
  - by apply ui_invariant_filter.
  - by apply ui_invariant_deleteNode.
  - by apply ui_invariant_clearAll.
  - apply (ui_invariant_same_graph s); [apply same_graph_executeGraph|done].
  - apply ui_invariant_heap; [|done]. apply dom_alter_L.
  - apply ui_invariant_heap; [|done]. apply dom_alter_L.
Qed.

Lemma ui_reachable_relays_owned s : ui_reachable s -> relays_owned s.
Proof.
  intros Hs c1 c2 Hc1 Hc2 Heq.
  destruct (decide (Connection.toNode c1 ∈ nodes s)) as [Hin|Hnot];
    [by apply list_elem_of_In|].
  rewrite list_elem_of_In in Hnot.
  pose proof (ui_gone_once _ (ui_reachable_invariant s Hs) _ Hnot) as Hle.
  assert (c1 = c2) as <-.
  { apply (filter_le_1_unique _ _ _ _ Hle Hc1 Hc2); apply touches_spec; auto. }
  by destruct (ui_reachable_no_self_loop s Hs c1 Hc1).
Qed.

Lemma targets_owned_relays_owned s : targets_owned s -> relays_owned s.
Proof. intros Hown c1 c2 Hc1 _ _. by apply Hown. Qed.
End UiFacts.

(** ** The execution engine *)

Section ExecutionClaims.
Context {rt : Builtins}.
Implicit Types (s : NodeEditor.t) (st : Run).

(** C4. One call of [executeGraph] returns on every graph, cyclic or
    not: the recursion never goes deeper than [depth_bound s], and any
    larger allowance gives the same final state and the same calls.
    Within the call no node receives [execute] twice (and every node of
    the collection receives it). *)
Theorem executeGraph_terminates_once s :
  exists s' tr,
    (forall k, executeGraph_fuel (depth_bound s + k) s = Some (s', tr))
    /\ executeGraph_trace s = (s', tr)
    /\ NoDup tr.*1
    /\ (forall n, In n (nodes s) -> n ∈ tr.*1).
Proof.
  destruct (executeGraph_fuel_enough s) as (st & Hst & Hk).
  exists (log MsgGraphDone LogInfo (editor st)), (calls st).
  pose proof (traverse_trace_ok _ _ _ (trace_ok_start_run s) Hst) as [Hnd Hiff].
  split; [exact Hk|]. split; [|split; [exact Hnd|]].
  - unfold executeGraph_trace. specialize (Hk 0).
    rewrite Nat.add_0_r in Hk. by rewrite Hk.
  - intros n Hn. apply Hiff.
    unfold traverse in Hst. apply foldl_executeRoot_all in Hst as [_ Hall].
    apply Hall. by rewrite (sg_nodes _ _ (same_graph_start_run s)).
Qed.

Lemma call_execute_output node inputs s :
  exists lines, outputDiv (call_execute node inputs s) = outputDiv s ++ lines.
Proof.
  unfold call_execute. destruct (heap s !! node) as [n|].
  - destruct (Node.execute n inputs) as [n' lines]. by exists lines.
  - exists []. by rewrite app_nil_r.
Qed.

Lemma reset_all_output s l : outputDiv (foldl reset_node s l) = outputDiv s.
Proof. revert s. induction l as [|r l IH]; intros s; simpl; [done|by rewrite IH]. Qed.

Lemma traverse_output fuel st st' :
  traverse fuel st = Some st' ->
  exists lines, outputDiv (editor st') = outputDiv (editor st) ++ lines.
Proof.
  apply (traverse_inv
           (fun x => exists lines,
                       outputDiv (editor x) = outputDiv (editor st) ++ lines)
           (fun _ => True)); auto.
  - intros n x [lines Hx] _ _.
    destruct (call_execute_output n (getNodeInputs (editor x) n) (editor x))
      as [more Hmore].
    exists (lines ++ more). simpl. by rewrite Hmore, Hx, app_assoc.
  - exists []. by rewrite app_nil_r.
Qed.

(** C10. One call of [executeGraph] changes the [outputValues] of
    nodes and appends lines to the output panel, and nothing else: the
    node collection, the connection collection (hence every connection
    tuple), both counters and the gesture state are the same after the
    call, the store holds the same objects, and each has its [id],
    [type], [config] and [element] unchanged. *)
Theorem executeGraph_frame s :
  nodes (executeGraph s) = nodes s
  /\ connections (executeGraph s) = connections s
  /\ nodeIdCounter (executeGraph s) = nodeIdCounter s
  /\ connectionIdCounter (executeGraph s) = connectionIdCounter s
  /\ selectedNode (executeGraph s) = selectedNode s
  /\ connecting (executeGraph s) = connecting s
  /\ connectionStart (executeGraph s) = connectionStart s
  /\ (forall r, option_Forall2
                  (fun n n' => Node.id n' = Node.id n
                               /\ Node.type n' = Node.type n
                               /\ Node.config n' = Node.config n
                               /\ Node.element n' = Node.element n)
                  (heap s !! r) (heap (executeGraph s) !! r))
  /\ exists lines, outputDiv (executeGraph s) = outputDiv s ++ lines.
Proof.
  destruct (same_graph_executeGraph s).
  repeat (split; [done|]).
  destruct (executeGraph_trace_eq s) as (st & Hst & Heq).
  unfold executeGraph. rewrite Heq. simpl.
  destruct (traverse_output _ _ _ Hst) as [lines Hlines].
  rewrite Hlines. unfold start_run. simpl. rewrite reset_all_output. simpl.
  eexists. by rewrite <- !app_assoc.
Qed.

(** *** Running twice *)

(** One traversal leaves an object as it was or as one [execute] made
    it, and as it was when it is not in [executed]. *)
Lemma traverse_touched fuel st0 st :
  traverse fuel st0 = Some st ->
  forall r,
    (r ∉ executed st -> heap (editor st) !! r = heap (editor st0) !! r)
    /\ (heap (editor st) !! r = heap (editor st0) !! r
        \/ exists i, heap (editor st) !! r
                     = (fun n => (Node.execute n i).1) <$> heap (editor st0) !! r).
Proof.
  apply (traverse_inv
           (fun x => forall r,
                (r ∉ executed x -> heap (editor x) !! r = heap (editor st0) !! r)
                /\ (heap (editor x) !! r = heap (editor st0) !! r
                    \/ exists i, heap (editor x) !! r
                         = (fun n => (Node.execute n i).1)
                             <$> heap (editor st0) !! r))
           (fun _ => True)); auto.
  intros n x Hx _ Hex r. simpl.
  destruct (decide (r = n)) as [->|Hne].
  - split; [set_solver|]. right. eexists.
    rewrite call_execute_lookup. by rewrite (proj1 (Hx n) Hex).
  - rewrite call_execute_other by done. destruct (Hx r) as [H1 H2].
    split; [|done]. intros Hr. apply H1. set_solver.
Qed.

(** A traversal that starts with [executed] empty marks nodes of the
    collection and targets of connections only. *)
Lemma traverse_executed_origin fuel st0 st :
  executed st0 = ∅ -> traverse fuel st0 = Some st ->
  forall r, r ∈ executed st ->
    In r (nodes (editor st0))
    \/ exists conn, In conn (connections (editor st0))
                    /\ Connection.toNode conn = r.
Proof.
  intros Hempty Hrun.
  enough (same_graph (editor st0) (editor st)
          /\ forall r, r ∈ executed st ->
               In r (nodes (editor st0))
               \/ exists conn, In conn (connections (editor st0))
                               /\ Connection.toNode conn = r) as [_ H];
    [exact H|].
  revert Hrun.
  apply (traverse_inv
           (fun x => same_graph (editor st0) (editor x)
                     /\ forall r, r ∈ executed x ->
                          In r (nodes (editor st0))
                          \/ exists conn, In conn (connections (editor st0))
                                          /\ Connection.toNode conn = r)
           (fun n => In n (nodes (editor st0))
                     \/ exists conn, In conn (connections (editor st0))
                                     /\ Connection.toNode conn = n)).
  - intros n x [Hsg Hall] Hn _. split.
    + eapply same_graph_trans; [exact Hsg|apply same_graph_visit].
    + intros r. simpl. rewrite elem_of_union, elem_of_singleton.
      intros [->|Hr]; auto.
  - intros x conn [Hsg _] Hconn. right. exists conn. split; [|done].
    by rewrite <- (sg_connections _ _ Hsg).
  - split; [apply same_graph_refl|]. intros r. rewrite Hempty. set_solver.
  - auto.
Qed.

Lemma run_replay_start s :
  relays_owned s ->
  forall st1, traverse (depth_bound s) (start_run s) = Some st1 ->
    run_replay (executed st1)
      (start_run (log MsgGraphDone LogInfo (editor st1))) (start_run s).
Proof.
  intros Hown st1 Hst1.
  pose proof (same_graph_start_run s) as Hsg0.
  pose proof (traverse_same_graph _ _ _ Hst1) as Hsg1.
  set (s1 := log MsgGraphDone LogInfo (editor st1)).
  assert (same_graph s s1) as Hsg.
  { eapply same_graph_trans; [exact Hsg0|].
    eapply same_graph_trans; [exact Hsg1|apply same_graph_log]. }
  pose proof (same_graph_start_run s1) as Hsg2.
  split; [|split; [done|]].
  { rewrite (sg_connections _ _ Hsg2), (sg_connections _ _ Hsg0).
    apply (sg_connections _ _ Hsg). }
  intros r. unfold start_run at 1 4. simpl.
  rewrite !reset_all_lookup. simpl. rewrite (sg_nodes _ _ Hsg1).
  rewrite (sg_nodes _ _ Hsg0).
  case_bool_decide as Hin.
  - left. pose proof (sg_heap _ _ Hsg r) as Hh.
    change (heap s1) with (heap (editor st1)) in Hh.
    inversion Hh as [n n' Hid Hn Hn'|Hn Hn']; simpl.
    + by rewrite (same_identity_reset_eq _ _ Hid).
    + done.
  - assert (heap (editor (start_run s)) !! r = heap s !! r) as Hstart.
    { unfold start_run. simpl. rewrite reset_all_lookup. simpl.
      by rewrite bool_decide_eq_false_2. }
    destruct (traverse_touched _ _ _ Hst1 r) as [Hout Hcases].
    rewrite Hstart in Hout, Hcases.
    destruct (decide (r ∈ executed st1)) as [Hex|Hex]; [|left; auto].
    destruct Hcases as [Heq|[i Hi]]; [by left|]. right.
    split; [done|]. split; [set_solver|]. split; [|by exists i].
    intros conn Hconn Hsrc.
    change (In conn (connections (editor (start_run s)))) in Hconn.
    rewrite (sg_connections _ _ Hsg0) in Hconn.
    destruct (traverse_executed_origin _ (start_run s) _ eq_refl Hst1 r Hex)
      as [Hn|(c1 & Hc1 & Hto)].
    + rewrite (sg_nodes _ _ Hsg0) in Hn. apply Hin. by apply list_elem_of_In.
    + rewrite (sg_connections _ _ Hsg0) in Hc1.
      apply Hin, list_elem_of_In. rewrite <- Hto.
      apply (Hown c1 conn Hc1 Hconn). congruence.
Qed.

Lemma executeGraph_twice_heap s :
  relays_owned s ->
  heap (executeGraph (executeGraph s)) = heap (executeGraph s).
Proof.
  intros Hown.
  pose proof (same_graph_executeGraph s) as Hsg.
  destruct (executeGraph_trace_eq s) as (st1 & Hst1 & Heq1).
  destruct (executeGraph_trace_eq (executeGraph s)) as (st2 & Hst2 & Heq2).
  assert (depth_bound (executeGraph s) = depth_bound s) as Hbound.
  { unfold depth_bound. by rewrite (sg_nodes _ _ Hsg), (sg_connections _ _ Hsg). }
  rewrite Hbound in Hst2.
  assert (executeGraph s = log MsgGraphDone LogInfo (editor st1)) as Hs1
    by (unfold executeGraph; by rewrite Heq1).
  pose proof (run_replay_start s Hown st1 Hst1) as Hsim.
  rewrite <- Hs1 in Hsim.
  pose proof (traverse_sim (run_replay (executed st1))
                (fun a b H => proj1 (proj2 H))
                (fun a b H => proj1 H)
                (fun n a b => run_replay_visit (executed st1) n a b)
                (depth_bound s) _ _ Hsim) as Hrun.
  rewrite Hst1, Hst2 in Hrun.
  assert (nodes (editor (start_run (executeGraph s)))
          = nodes (editor (start_run s))) as Hnodes.
  { rewrite (sg_nodes _ _ (same_graph_start_run (executeGraph s))),
      (sg_nodes _ _ (same_graph_start_run s)).
    apply (sg_nodes _ _ Hsg). }
  specialize (Hrun Hnodes).
  inversion Hrun as [? ? (_ & _ & Hrep)|]; subst.
  unfold executeGraph at 1 3. rewrite Heq1, Heq2. simpl.
  apply map_eq. intros r.
  destruct (Hrep r) as [Heq|(HX & HnE & _)]; [exact Heq|done].
Qed.

(** C7. On every graph that the page can produce, and on every graph
    whose connections all end at nodes of the node collection, a second
    [executeGraph] right after the first leaves every node with the
    [outputValues] the first call gave it: the whole store is the same
    after both calls. *)
Theorem executeGraph_idempotent s :
  ui_reachable s \/ targets_owned s ->
  heap (executeGraph (executeGraph s)) = heap (executeGraph s)
  /\ forall r, Node.outputValues <$> (heap (executeGraph (executeGraph s)) !! r)
               = Node.outputValues <$> (heap (executeGraph s) !! r).
Proof.
  intros Hs.
  enough (heap (executeGraph (executeGraph s)) = heap (executeGraph s)) as ->
    by done.
  apply executeGraph_twice_heap.
  destruct Hs as [Hui|Hown];
    [by apply ui_reachable_relays_owned|by apply targets_owned_relays_owned].
Qed.
End ExecutionClaims.

(** ** Computing a node *)

Section NodeClaims.
Context {rt : Builtins}.

Lemma strict_neq_undefined (v : JsValue) :
  strict_neq v JsUndefined = true <-> v <> JsUndefined.
Proof. destruct v; simpl; split; try done. Qed.

Lemma number_or_zero (f : float) :
  exists g, js_or (JsNumber f) (JsNumber zero) = JsNumber g /\ is_nan g = false.
Proof.
  unfold js_or, ToBoolean.
  destruct (is_zero f) eqn:Hz, (is_nan f) eqn:Hn; simpl; eauto.
Qed.

Lemma math_operand_reads n inputs i key :
  reads_operand n inputs i key (Node.math_operand n inputs i key).
Proof.
  unfold reads_operand, Node.math_operand. split; intros H.
  - apply strict_neq_undefined in H. by rewrite H.
  - rewrite H. simpl. split; [done|]. apply number_or_zero.
Qed.

Lemma getOutput_written n v :
  Node.getOutput
    (Node.set_outputValues n (<[0%Z := v]> (Node.outputValues n))) 0 = v.
Proof.
  unfold Node.getOutput, array_get. simpl. by rewrite lookup_insert_eq.
Qed.

Lemma execute_math n inputs :
  Node.type n = "math" ->
  Node.execute n inputs
  = (Node.set_outputValues n
       (<[0%Z := Node.math_result
                   (js_or (member (Node.config n) "operation") (JsString "add"))
                   (Node.math_operand n inputs 0 "valueA")
                   (Node.math_operand n inputs 1 "valueB")]>
          (Node.outputValues n)), []).
Proof. intros Hty. unfold Node.execute. by rewrite Hty. Qed.

Lemma getNodeInputs_unconnected s node :
  incoming_node node (connections s) = [] -> getNodeInputs s node = ∅.
Proof. unfold getNodeInputs, incoming_node. by intros ->. Qed.

(** C3, as the code has it. [execute] on a math node takes its
    operands from [inputs[0]] and [inputs[1]], and for an undefined
    input from [valueA] or [valueB] of its own [config], parsed as a
    number, with 0 when that gives nothing (the fallback is a number and
    not NaN).  With A = 3, B = 4, the add operation and no input the
    output is 7.  With the divide operation and a divisor that is the
    number 0 the output is the number 0, whatever the dividend.  The
    guard [b !== 0] compares without conversion: a divisor that is a
    string, or a number other than 0, is divided by. *)
Theorem math_compute (n : Node.t) (inputs : gmap Z JsValue) :
  Node.type n = "math" ->
  (exists a b,
      reads_operand n inputs 0 "valueA" a
      /\ reads_operand n inputs 1 "valueB" b
      /\ Node.execute n inputs
         = (Node.set_outputValues n
              (<[0%Z := Node.math_result
                          (js_or (member (Node.config n) "operation")
                                 (JsString "add")) a b]>
                 (Node.outputValues n)), []))
  /\ (member (Node.config n) "valueA" = JsNumber 3 ->
      member (Node.config n) "valueB" = JsNumber 4 ->
      member (Node.config n) "operation" = JsString "add" ->
      array_get inputs 0 = JsUndefined -> array_get inputs 1 = JsUndefined ->
      Node.getOutput (Node.execute n inputs).1 0 = JsNumber 7)
  /\ (member (Node.config n) "operation" = JsString "divide" ->
      forall d, Node.math_operand n inputs 1 "valueB" = JsNumber d ->
                is_zero d = true ->
                Node.getOutput (Node.execute n inputs).1 0 = JsNumber zero)
  /\ (member (Node.config n) "operation" = JsString "divide" ->
      forall str, Node.math_operand n inputs 1 "valueB" = JsString str ->
                  Node.getOutput (Node.execute n inputs).1 0
                  = js_div (Node.math_operand n inputs 0 "valueA")
                      (JsString str))
  /\ (member (Node.config n) "operation" = JsString "divide" ->
      forall d, Node.math_operand n inputs 1 "valueB" = JsNumber d ->
                is_zero d = false ->
                Node.getOutput (Node.execute n inputs).1 0
                = js_div (Node.math_operand n inputs 0 "valueA") (JsNumber d)).
Proof.
  intros Hty. rewrite (execute_math n inputs Hty).
  split; [|split; [|split; [|split]]].
  - exists (Node.math_operand n inputs 0 "valueA"),
           (Node.math_operand n inputs 1 "valueB").
    split; [apply math_operand_reads|]. split; [apply math_operand_reads|done].
  - intros HA HB Hop H0 H1. simpl. rewrite getOutput_written.
    unfold Node.math_operand. rewrite H0, H1, HA, HB, Hop. reflexivity.
  - intros Hop d Hd Hz. simpl. rewrite getOutput_written, Hd, Hop.
    unfold Node.math_result, js_or. simpl.
    unfold strict_neq. simpl. unfold is_zero in Hz. by rewrite Hz.
  - intros Hop str Hstr. simpl. rewrite getOutput_written, Hstr, Hop.
    reflexivity.
  - intros Hop d Hd Hz. simpl. rewrite getOutput_written, Hd, Hop.
    unfold Node.math_result, js_or. simpl.
    unfold strict_neq. simpl. unfold is_zero in Hz. by rewrite Hz.
Qed.

(** X5. [execute] on a number node ignores its inputs and outputs
    [parseFloat(config.value) || 0], that is [config.value] parsed as a
    number, 0 when that gives nothing: always a number, never NaN.  On a string node it outputs [config.value], or
    ["Hello"] when that is missing, empty or 0. *)
Theorem source_compute (n : Node.t) (inputs : gmap Z JsValue) :
  (Node.type n = "number" ->
   Node.execute n inputs = Node.execute n ∅
   /\ Node.getOutput (Node.execute n inputs).1 0
      = js_or (JsNumber (parseFloat (member (Node.config n) "value")))
          (JsNumber zero)
   /\ exists f, Node.getOutput (Node.execute n inputs).1 0 = JsNumber f
                /\ is_nan f = false)
  /\ (Node.type n = "string" ->
      Node.execute n inputs = Node.execute n ∅
      /\ Node.getOutput (Node.execute n inputs).1 0
         = js_or (member (Node.config n) "value") (JsString "Hello")
      /\ Node.getOutput (Node.execute n inputs).1 0 <> JsUndefined).
Proof.
  split; intros Hty; unfold Node.execute; rewrite Hty; simpl.
  - split; [done|]. rewrite getOutput_written. split; [done|].
    apply number_or_zero.
  - split; [done|]. rewrite getOutput_written. split; [done|].
    unfold js_or, ToBoolean.
    destruct (member (Node.config n) "value") as [|f|str]; [done|..];
      by destruct (negb _).
Qed.

(** *** Unknown types *)

Lemma own_types :
  Node.nodeTypes !! "number" <> None /\ Node.nodeTypes !! "math" <> None
  /\ Node.nodeTypes !! "string" <> None /\ Node.nodeTypes !! "print" <> None.
Proof.
  split; [vm_compute; discriminate|].
  split; [vm_compute; discriminate|].
  split; vm_compute; discriminate.
Qed.

(** X2. A type that is neither a member of [nodeTypes] nor inherited
    by it gets the shape of the number type: the constructor returns a
    node with no input pin and one output pin, and [execute] on it does
    nothing. *)
Theorem unknown_type_fallback (id : Z) (type : string)
    (config : gmap string JsValue) :
  Node.nodeTypes !! type = None -> type ∉ Node.Object_prototype ->
  Node.getNodeInfo type = Node.Shape Node.number_info
  /\ exists n, Node.new id type config = Normal n
       /\ Node.input_pins (Node.element n) = []
       /\ length (Node.output_pins (Node.element n)) = 1
       /\ forall inputs, Node.execute n inputs = (n, []).
Proof.
  intros Hown Hproto.
  assert (Node.getNodeInfo type = Node.Shape Node.number_info) as Hinfo.
  { unfold Node.getNodeInfo, Node.nodeTypes_get. rewrite Hown.
    by rewrite bool_decide_eq_false_2. }
  split; [exact Hinfo|].
  unfold Node.new, Node.createElement. rewrite Hinfo. simpl.
  eexists. split; [reflexivity|]. split; [done|]. split; [done|].
  intros inputs. unfold Node.execute. simpl.
  destruct own_types as (Hnumber & Hmath & Hstring & Hprint).
  repeat case_bool_decide; try done; subst type; done.
Qed.
End NodeClaims.

(** C9. The fallback of [getNodeInfo] misses the members that
    [nodeTypes] inherits: for the type ["constructor"], which is not one
    of the four types, the lookup yields the inherited member and not the
    number shape, and the constructor of [Node] (hence [addNode]) throws
    while rendering the pins. *)
Theorem inherited_type_throws :
  Node.nodeTypes !! "constructor" = None
  /\ Node.getNodeInfo "constructor" = Node.Inherited "constructor"
  /\ Node.new 0 "constructor" ∅ = Throw TypeError
  /\ (addNode "constructor" ∅ NodeEditor.new).2 = Some TypeError
  /\ nodes (addNode "constructor" ∅ NodeEditor.new).1 = [].
Proof.
  split; [vm_compute; reflexivity|].
  split; [vm_compute; reflexivity|].
  split; [vm_compute; reflexivity|].
  split; vm_compute; reflexivity.
Qed.

Lemma unknown_type_fallback_witness :
  Node.nodeTypes !! "foo" = None
  /\ Node.getNodeInfo "foo" = Node.Shape Node.number_info.
Proof.
  assert (Node.nodeTypes !! "foo" = None) as Hown by (vm_compute; reflexivity).
  split; [exact Hown|].
  apply (unknown_type_fallback (rt := numeric_builtins) 0 "foo" ∅ Hown).
  apply (bool_decide_eq_false_1 ("foo" ∈ Node.Object_prototype)).
  vm_compute. reflexivity.
Defined.

Lemma math_compute_witness :
  Node.type math_3_4 = "math"
  /\ Node.getOutput (Node.execute (rt := numeric_builtins) math_3_4 ∅).1 0
     = JsNumber 7.
Proof.
  split; [reflexivity|].
  apply (math_compute (rt := numeric_builtins) math_3_4 ∅);
    vm_compute; reflexivity.
Defined.

(** C3 as stated fails: the string ["0"] at pin B is a divisor equal
    to 0 once converted, the guard lets it through and the output is
    [Infinity]; the page delivers that input from a string node. *)
Lemma divide_by_string_zero_counterexample :
  Node.type divide_1 = "math"
  /\ member (Node.config divide_1) "operation" = JsString "divide"
  /\ ToNumber (rt := digit_builtins)
       (Node.math_operand (rt := digit_builtins) divide_1
          {[ 1%Z := JsString "0" ]} 1 "valueB")
     = zero
  /\ Node.getOutput
       (Node.execute (rt := digit_builtins) divide_1
          {[ 1%Z := JsString "0" ]}).1 0
     = JsNumber infinity
  /\ all_delivered (rt := digit_builtins) page_divide_events NodeEditor.new
     = true
  /\ read_output
       (run_events (rt := digit_builtins) page_divide_events NodeEditor.new) 1 0
     = JsNumber infinity.
Proof.
  split; [reflexivity|].
  split; [vm_compute; reflexivity|].
  split; [vm_compute; reflexivity|].
  split; [vm_compute; reflexivity|].
  split; vm_compute; reflexivity.
Qed.

Section ExampleRuns.
Context {rt : Builtins}.

(** C6. There is a graph whose consumer was created before its
    producer, with the connection between them as only connection, on
    which [executeGraph] calls [execute] on the consumer with an
    undefined value at the connected input: the producer then outputs
    10, and the consumer has computed 0 + 0 instead of the 10 + 0 that
    [execute] gives it once the input is there. *)
Theorem unordered_execution_hazard :
  exists s consumer producer inputs,
    nodes s = [consumer; producer]
    /\ connections s
       = [ {| Connection.id := 0; Connection.fromNode := producer;
              Connection.fromPin := 0; Connection.toNode := consumer;
              Connection.toPin := 0 |} ]
    /\ (executeGraph_trace s).2 = [(consumer, inputs); (producer, ∅)]
    /\ array_get inputs 0 = JsUndefined
    /\ read_output (executeGraph s) producer 0 = JsNumber 10
    /\ read_output (executeGraph s) consumer 0 = JsNumber 0
    /\ (fun n => Node.getOutput (Node.execute n {[ 0%Z := JsNumber 10 ]}).1 0)
         <$> heap s !! consumer
       = Some (JsNumber 10).
Proof.
  exists hazard_graph, 0, 1, {[ 0%Z := JsUndefined ]}.
  split; [vm_compute; reflexivity|].
  split; [vm_compute; reflexivity|].
  split; [vm_compute; reflexivity|].
  split; [vm_compute; reflexivity|].
  split; [vm_compute; reflexivity|].
  split; vm_compute; reflexivity.
Qed.

(** X1. On the graph number(10) -> math(multiply, B = 5) -> print, one
    [executeGraph] leaves 50 on the output of the math node, and the
    output panel receives the start line, one print line with 50 and the
    end line. *)
Theorem pipeline_propagation :
  read_output (executeGraph pipeline_graph) 1 0 = JsNumber 50
  /\ outputDiv (executeGraph pipeline_graph)
     = [ {| message := MsgGraphStart; className := LogInfo |};
         {| message := MsgPrint (JsNumber 50); className := LogInfo |};
         {| message := MsgGraphDone; className := LogInfo |} ]
  /\ (executeGraph_trace pipeline_graph).2.*1 = [0; 1; 2].
Proof.
  split; [vm_compute; reflexivity|].
  split; vm_compute; reflexivity.
Qed.
End ExampleRuns.

Lemma targets_owned_b_true (s : NodeEditor.t) :
  targets_owned_b s = true -> targets_owned s.
Proof.
  unfold targets_owned_b. rewrite forallb_forall. intros Hall conn Hconn.
  apply Hall, bool_decide_eq_true in Hconn. by apply list_elem_of_In.
Qed.

Lemma executeGraph_idempotent_witness :
  targets_owned pipeline_graph
  /\ heap (executeGraph (rt := numeric_builtins)
             (executeGraph (rt := numeric_builtins) pipeline_graph))
     = heap (executeGraph (rt := numeric_builtins) pipeline_graph).
Proof.
  assert (targets_owned pipeline_graph) as Hown
    by (apply targets_owned_b_true; vm_compute; reflexivity).
  split; [exact Hown|].
  exact (proj1 (executeGraph_idempotent (rt := numeric_builtins)
                  pipeline_graph (or_intror Hown))).
Defined.

(** ** What a run computes *)

Section RunFacts.
Context {rt : Builtins}.
Implicit Types (s : NodeEditor.t) (st : Run) (node : NodeRef)
  (conn : Connection.t).

(** *** The inputs of a node *)

Lemma foldl_insert_miss {A} (k : A -> Z) (v : A -> JsValue) (l : list A)
    (m : gmap Z JsValue) (p : Z) :
  (forall c, In c l -> k c <> p) ->
  foldl (fun acc c => <[k c := v c]> acc) m l !! p = m !! p.
Proof.
  revert m. induction l as [|c l IH]; intros m Hmiss; simpl; [done|].
  rewrite IH by (intros c' Hc'; apply Hmiss; by right).
  apply lookup_insert_ne, Hmiss. by left.
Qed.

Lemma foldl_insert_last {A} (k : A -> Z) (v : A -> JsValue) (l1 l2 : list A)
    (c : A) (m : gmap Z JsValue) :
  (forall c', In c' l2 -> k c' <> k c) ->
  foldl (fun acc c => <[k c := v c]> acc) m (l1 ++ c :: l2) !! k c
  = Some (v c).
Proof.
  intros Hmiss. rewrite foldl_app. simpl.
  rewrite foldl_insert_miss by done. apply lookup_insert_eq.
Qed.

Lemma filter_le_1_split {A} (f : A -> bool) (l1 l2 : list A) (c : A) :
  length (List.filter f (l1 ++ c :: l2)) <= 1 -> f c = true ->
  forall c', In c' l2 -> f c' = false.
Proof.
  rewrite List.filter_app, length_app. simpl. intros Hle Hc. rewrite Hc in Hle.
  simpl in Hle.
  assert (List.filter f l2 = []) as H2
    by (destruct (List.filter f l2); simpl in *; done || lia).
  intros c' Hin. destruct (f c') eqn:Hf; [exfalso|done].
  assert (In c' (List.filter f l2)) as Hin' by (by apply filter_In).
  by rewrite H2 in Hin'.
Qed.

Lemma getNodeInputs_connected s conn :
  In conn (connections s) ->
  length (incoming (Connection.toNode conn) (Connection.toPin conn)
            (connections s)) <= 1 ->
  array_get (getNodeInputs s (Connection.toNode conn)) (Connection.toPin conn)
  = read_output s (Connection.fromNode conn) (Connection.fromPin conn).
Proof.
  intros Hin Hfan. unfold getNodeInputs, array_get.
  apply in_split in Hin as (l1 & l2 & Hsplit). rewrite Hsplit in *.
  rewrite List.filter_app. simpl. rewrite bool_decide_eq_true_2 by done.
  rewrite (foldl_insert_last Connection.toPin
             (fun c => read_output s (Connection.fromNode c) (Connection.fromPin c)));
    [done|].
  intros c' [Hc' Hto%bool_decide_eq_true]%filter_In Hpin.
  assert (same_input (Connection.toNode conn) (Connection.toPin conn) c' = false)
    as Hf.
  { apply (filter_le_1_split _ l1 l2 conn Hfan); [|done].
    by apply same_input_spec. }
  apply not_true_iff_false in Hf. by apply Hf, same_input_spec.
Qed.

Lemma getNodeInputs_unconnected_pin s node p :
  incoming node p (connections s) = [] ->
  array_get (getNodeInputs s node) p = JsUndefined.
Proof.
  intros Hnone. unfold getNodeInputs, array_get.
  rewrite foldl_insert_miss; [by rewrite lookup_empty|].
  intros c [Hc Hto%bool_decide_eq_true]%filter_In Hpin.
  assert (In c (incoming node p (connections s))) as Hin.
  { apply filter_In. split; [done|]. by apply same_input_spec. }
  by rewrite Hnone in Hin.
Qed.

(** X6. [getNodeInputs] gives a pin the output of the source of the
    last connection to that pin in the connection collection, as the
    source has it at the time of the call (a later assignment to
    [inputs[toPin]] overwrites an earlier one), and [undefined] when no
    connection arrives at the pin. *)
Theorem getNodeInputs_pin s node p :
  array_get (getNodeInputs s node) p
  = match last (incoming node p (connections s)) with
    | Some conn => read_output s (Connection.fromNode conn) (Connection.fromPin conn)
    | None => JsUndefined
    end.
Proof.
  unfold getNodeInputs, array_get.
  enough (forall l (m : gmap Z JsValue),
            foldl (fun inputs conn =>
                     <[Connection.toPin conn :=
                         read_output s (Connection.fromNode conn)
                           (Connection.fromPin conn)]> inputs) m
              (List.filter (fun conn => bool_decide (Connection.toNode conn = node)) l)
            !! p
            = match last (incoming node p l) with
              | Some conn => Some (read_output s (Connection.fromNode conn)
                                     (Connection.fromPin conn))
              | None => m !! p
              end) as Hgen.
  { rewrite Hgen. by destruct (last _). }
  induction l as [|c l IH] using rev_ind; intros m; [done|].
  unfold incoming. rewrite !List.filter_app, foldl_app. simpl.
  unfold same_input at 2. case_bool_decide as Hto; simpl.
  - case_bool_decide as Hpin; simpl.
    + rewrite last_snoc, <- Hpin. apply lookup_insert_eq.
    + rewrite app_nil_r, lookup_insert_ne by done. apply IH.
  - rewrite app_nil_r. apply IH.
Qed.

(** *** One call for each node *)

Lemma run_record_visit st0 node st :
  run_record st0 st -> node ∉ executed st -> run_record st0 (visit node st).
Proof.
  intros [Hok Hrec] Hex. split; [by apply trace_ok_visit|].
  intros r. simpl. destruct (decide (r = node)) as [->|Hne].
  - split; [set_solver|]. intros _.
    exists (getNodeInputs (editor st) node). split.
    + apply in_or_app. right. by left.
    + rewrite call_execute_lookup. by rewrite (proj1 (Hrec node) Hex).
  - rewrite call_execute_other by done. destruct (Hrec r) as [H1 H2]. split.
    + intros Hr. apply H1. set_solver.
    + intros Hr. destruct H2 as (inputs & Hin & Hheap); [set_solver|].
      exists inputs. split; [|done]. apply in_or_app. by left.
Qed.

Lemma run_record_start st0 : trace_ok st0 -> executed st0 = ∅ -> run_record st0 st0.
Proof.
  intros Hok Hempty. split; [done|]. intros r. split; [done|].
  rewrite Hempty. set_solver.
Qed.

Lemma run_record_traverse fuel st0 st :
  trace_ok st0 -> executed st0 = ∅ ->
  traverse fuel st0 = Some st -> run_record st0 st.
Proof.
  intros Hok Hempty.
  apply (traverse_inv (run_record st0) (fun _ => True)); auto.
  - intros n x Hx _ Hex. by apply run_record_visit.
  - by apply run_record_start.
Qed.

Lemma start_run_lookup s r :
  heap (editor (start_run s)) !! r
  = if bool_decide (r ∈ nodes s) then Node.reset <$> (heap s !! r)
    else heap s !! r.
Proof. unfold start_run. simpl. by rewrite reset_all_lookup. Qed.

Lemma executeGraph_node_call s r :
  In r (nodes s) ->
  exists inputs,
    In (r, inputs) (executeGraph_trace s).2
    /\ heap (executeGraph s) !! r
       = (fun n => (Node.execute (Node.reset n) inputs).1) <$> (heap s !! r).
Proof.
  intros Hr.
  destruct (executeGraph_trace_eq s) as (st & Hst & Heq).
  pose proof (run_record_traverse _ _ _ (trace_ok_start_run s) eq_refl Hst)
    as [Hok Hrec].
  assert (r ∈ executed st) as Hex.
  { unfold traverse in Hst. apply foldl_executeRoot_all in Hst as [_ Hall].
    apply Hall. by rewrite (sg_nodes _ _ (same_graph_start_run s)). }
  destruct (proj2 (Hrec r) Hex) as (inputs & Hin & Hheap).
  exists inputs. unfold executeGraph. rewrite Heq. simpl. split; [done|].
  rewrite Hheap, start_run_lookup.
  rewrite bool_decide_eq_true_2 by (by apply list_elem_of_In).
  by destruct (heap s !! r).
Qed.

Lemma math_result_defined operation a b :
  Node.math_result operation a b <> JsUndefined.
Proof.
  unfold Node.math_result, js_add, js_sub, js_mul, js_div.
  repeat (match goal with |- context [if ?c then _ else _] => destruct c end);
    try done.
  destruct a, b; done.
Qed.

Lemma execute_output (n : Node.t) inputs :
  if produces (Node.type n)
  then exists v, Node.outputValues (Node.execute n inputs).1
                 = <[0%Z := v]> (Node.outputValues n)
                 /\ v <> JsUndefined
  else (Node.execute n inputs).1 = n.
Proof.
  unfold produces, Node.execute.
  case_bool_decide as Hnum; simpl.
  { eexists. split; [done|].
    destruct (number_or_zero (parseFloat (member (Node.config n) "value")))
      as (g & -> & _). done. }
  case_bool_decide as Hmath; simpl.
  { eexists. split; [done|]. apply math_result_defined. }
  case_bool_decide as Hstr; simpl.
  { eexists. split; [done|]. unfold js_or, ToBoolean.
    destruct (member (Node.config n) "value") as [|f|str]; [done|..];
      by destruct (negb _). }
  by case_bool_decide.
Qed.

(** X7. After [executeGraph] each node of the collection is what one
    [execute] makes of it once it is reset, the call being in the
    record of the run: a number, math or string node holds one output
    value, at pin 0, and it is not [undefined]; any other node holds
    none; nothing of what the node held before the run is left in its
    outputs, and the rest of the node is as before. *)
Theorem executeGraph_node_result s r n :
  In r (nodes s) -> heap s !! r = Some n ->
  exists inputs n',
    In (r, inputs) (executeGraph_trace s).2
    /\ heap (executeGraph s) !! r = Some n'
    /\ n' = (Node.execute (Node.reset n) inputs).1
    /\ same_identity n n'
    /\ if produces (Node.type n)
       then exists v, Node.outputValues n' = {[ 0%Z := v ]} /\ v <> JsUndefined
       else Node.outputValues n' = ∅.
Proof.
  intros Hr Hn.
  destruct (executeGraph_node_call s r Hr) as (inputs & Hin & Hheap).
  rewrite Hn in Hheap. simpl in Hheap.
  exists inputs, (Node.execute (Node.reset n) inputs).1.
  split; [done|]. split; [done|]. split; [done|]. split.
  - eapply same_identity_trans; [apply same_identity_reset|].
    apply same_identity_execute.
  - pose proof (execute_output (Node.reset n) inputs) as Hout.
    change (Node.type (Node.reset n)) with (Node.type n) in Hout.
    destruct (produces (Node.type n)).
    + destruct Hout as (v & -> & Hv). exists v. split; [|done].
      simpl. by rewrite insert_empty.
    + by rewrite Hout.
Qed.

(** *** The inputs of each call *)

Lemma read_output_heap s s' r p :
  heap s' !! r = heap s !! r -> read_output s' r p = read_output s r p.
Proof. unfold read_output. by intros ->. Qed.

Lemma inputs_record_visit st0 node st :
  same_graph (editor st0) (editor st) -> run_record st0 st ->
  inputs_record st0 st -> node ∉ executed st ->
  inputs_record st0 (visit node st).
Proof.
  intros Hsg [[Hnd Hiff] Hrec] Hinp Hex l1 n inputs l2. simpl.
  pose proof (sg_connections _ _ Hsg) as HC.
  destruct l2 as [|e l2 _] using rev_ind.
  - intros [Hl1 [= <- <-]]%app_inj_tail. rewrite <- Hl1. split.
    + intros conn Hconn <- Hfan. rewrite <- HC in Hconn, Hfan.
      rewrite (getNodeInputs_connected _ conn Hconn Hfan).
      case_bool_decide as Hsrc.
      * symmetry. apply read_output_heap, call_execute_other.
        intros Heq. apply Hex. rewrite <- Heq. by apply Hiff.
      * apply read_output_heap, (proj1 (Hrec _)).
        intros Hin. by apply Hsrc, Hiff.
    + intros p Hp. rewrite <- HC in Hp. by apply getNodeInputs_unconnected_pin.
  - rewrite app_comm_cons, app_assoc. intros [Hcalls _]%app_inj_tail.
    destruct (Hinp l1 n inputs l2 Hcalls) as [Hconns Hfree].
    split; [|exact Hfree].
    intros conn Hconn Hto Hfan. rewrite (Hconns conn Hconn Hto Hfan).
    case_bool_decide as Hsrc; [|done].
    symmetry. apply read_output_heap, call_execute_other.
    intros Heq. apply Hex, Hiff. rewrite Hcalls, fmap_app, elem_of_app.
    left. by rewrite <- Heq.
Qed.

Lemma inputs_record_traverse fuel st0 st :
  trace_ok st0 -> executed st0 = ∅ -> calls st0 = [] ->
  traverse fuel st0 = Some st ->
  same_graph (editor st0) (editor st) /\ run_record st0 st
  /\ inputs_record st0 st.
Proof.
  intros Hok Hempty Hcalls.
  apply (traverse_inv
           (fun x => same_graph (editor st0) (editor x) /\ run_record st0 x
                     /\ inputs_record st0 x)
           (fun _ => True)); auto.
  - intros n x (Hsg & Hrec & Hinp) _ Hex. split; [|split].
    + eapply same_graph_trans; [exact Hsg|apply same_graph_visit].
    + by apply run_record_visit.
    + by apply inputs_record_visit.
  - split; [apply same_graph_refl|]. split; [by apply run_record_start|].
    intros l1 n inputs l2. rewrite Hcalls. by destruct l1.
Qed.

Lemma read_output_start_run s r p :
  In r (nodes s) -> read_output (editor (start_run s)) r p = JsUndefined.
Proof.
  intros Hr. unfold read_output. rewrite start_run_lookup.
  rewrite bool_decide_eq_true_2 by (by apply list_elem_of_In).
  by destruct (heap s !! r).
Qed.

Lemma executeGraph_inputs_at s l1 node inputs l2 :
  (executeGraph_trace s).2 = l1 ++ (node, inputs) :: l2 ->
  (forall conn,
      In conn (connections s) -> Connection.toNode conn = node ->
      length (incoming node (Connection.toPin conn) (connections s)) <= 1 ->
      array_get inputs (Connection.toPin conn)
      = if bool_decide (Connection.fromNode conn ∈ l1.*1)
        then read_output (executeGraph s) (Connection.fromNode conn)
               (Connection.fromPin conn)
        else read_output (editor (start_run s)) (Connection.fromNode conn)
               (Connection.fromPin conn))
  /\ (forall p, incoming node p (connections s) = [] ->
                array_get inputs p = JsUndefined).
Proof.
  intros Htrace.
  destruct (executeGraph_trace_eq s) as (st & Hst & Heq).
  rewrite Heq in Htrace. simpl in Htrace.
  destruct (inputs_record_traverse _ _ _ (trace_ok_start_run s) eq_refl
              eq_refl Hst) as (Hsg & _ & Hinp).
  pose proof (sg_connections _ _ (same_graph_start_run s)) as HC.
  destruct (Hinp _ _ _ _ Htrace) as [Hconns Hfree]. rewrite HC in *.
  split; [|exact Hfree].
  intros conn Hconn Hto Hfan. rewrite (Hconns conn Hconn Hto Hfan).
  unfold executeGraph. by rewrite Heq.
Qed.

Lemma executeGraph_input_late s l1 node inputs l2 conn :
  (executeGraph_trace s).2 = l1 ++ (node, inputs) :: l2 ->
  In conn (connections s) -> Connection.toNode conn = node ->
  length (incoming node (Connection.toPin conn) (connections s)) <= 1 ->
  Connection.fromNode conn ∉ l1.*1 -> In (Connection.fromNode conn) (nodes s) ->
  array_get inputs (Connection.toPin conn) = JsUndefined.
Proof.
  intros Htrace Hconn Hto Hfan Hsrc Hnode.
  destruct (executeGraph_inputs_at s _ _ _ _ Htrace) as [Hpins _].
  rewrite (Hpins conn Hconn Hto Hfan), bool_decide_eq_false_2 by done.
  by apply read_output_start_run.
Qed.

(** X8. The inputs that [executeGraph] passes to a node: at a pin
    with one connection, the final output of the source when the source
    was computed earlier in the run; [undefined] when the source is a
    node of the collection that was not (it was reset and is computed
    later); what the source held before the run when it is neither; at
    a pin without connection, [undefined]. *)
Theorem executeGraph_inputs s l1 node inputs l2 :
  (executeGraph_trace s).2 = l1 ++ (node, inputs) :: l2 ->
  (forall conn,
      In conn (connections s) -> Connection.toNode conn = node ->
      length (incoming node (Connection.toPin conn) (connections s)) <= 1 ->
      (Connection.fromNode conn ∈ l1.*1 ->
       array_get inputs (Connection.toPin conn)
       = read_output (executeGraph s) (Connection.fromNode conn)
           (Connection.fromPin conn))
      /\ (Connection.fromNode conn ∉ l1.*1 ->
          In (Connection.fromNode conn) (nodes s) ->
          array_get inputs (Connection.toPin conn) = JsUndefined)
      /\ (Connection.fromNode conn ∉ l1.*1 ->
          ~ In (Connection.fromNode conn) (nodes s) ->
          array_get inputs (Connection.toPin conn)
          = read_output s (Connection.fromNode conn) (Connection.fromPin conn)))
  /\ (forall p, incoming node p (connections s) = [] ->
                array_get inputs p = JsUndefined).
Proof.
  intros Htrace.
  destruct (executeGraph_inputs_at s _ _ _ _ Htrace) as [Hpins Hfree].
  split; [|exact Hfree].
  intros conn Hconn Hto Hfan. rewrite (Hpins conn Hconn Hto Hfan).
  split; [|split].
  - intros Hsrc. by rewrite bool_decide_eq_true_2.
  - intros Hsrc Hnode. rewrite bool_decide_eq_false_2 by done.
    by apply read_output_start_run.
  - intros Hsrc Hnode. rewrite bool_decide_eq_false_2 by done.
    apply read_output_heap. rewrite start_run_lookup.
    rewrite bool_decide_eq_false_2; [done|]. by rewrite list_elem_of_In.
Qed.

(** *** The output panel *)

Lemma execute_lines_identity (n n' : Node.t) inputs :
  same_identity n n' -> (Node.execute n' inputs).2 = (Node.execute n inputs).2.
Proof.
  intros (_ & Hty & _). unfold Node.execute. rewrite Hty.
  by repeat case_bool_decide.
Qed.

Lemma call_lines_same_graph s s' c :
  same_graph s s' -> call_lines s' c = call_lines s c.
Proof.
  intros Hsg. unfold call_lines.
  destruct (sg_heap _ _ Hsg c.1) as [n n' Hid|]; [|done].
  by apply execute_lines_identity.
Qed.

Lemma traverse_lines fuel st0 st :
  trace_ok st0 -> executed st0 = ∅ -> calls st0 = [] ->
  traverse fuel st0 = Some st ->
  outputDiv (editor st)
  = outputDiv (editor st0) ++ flat_map (call_lines (editor st0)) (calls st).
Proof.
  intros Hok Hempty Hcalls Hrun.
  enough (run_record st0 st
          /\ outputDiv (editor st)
             = outputDiv (editor st0)
               ++ flat_map (call_lines (editor st0)) (calls st)) as [_ H];
    [exact H|].
  revert Hrun.
  apply (traverse_inv
           (fun x => run_record st0 x
                     /\ outputDiv (editor x)
                        = outputDiv (editor st0)
                          ++ flat_map (call_lines (editor st0)) (calls x))
           (fun _ => True)); auto.
  - intros n x [Hrec Hout] _ Hex. split; [by apply run_record_visit|].
    simpl. rewrite flat_map_app, app_assoc, <- Hout. simpl.
    rewrite app_nil_r. unfold call_execute, call_lines. simpl.
    rewrite <- (proj1 (proj2 Hrec n) Hex).
    destruct (heap (editor x) !! n) as [m|]; [|by rewrite app_nil_r].
    by destruct (Node.execute m _).
  - split; [by apply run_record_start|].
    rewrite Hcalls. simpl. by rewrite app_nil_r.
Qed.

(** X9. One [executeGraph] appends to the output panel the start
    line, the lines of the calls of [execute] in the order of the
    calls, and the end line; a call writes one line when its receiver is
    a print node, with the input at pin 0 or the "none" string when
    that is [undefined], and nothing otherwise. *)
Theorem executeGraph_log s :
  outputDiv (executeGraph s)
  = outputDiv s
    ++ [ {| message := MsgGraphStart; className := LogInfo |} ]
    ++ flat_map (call_lines s) (executeGraph_trace s).2
    ++ [ {| message := MsgGraphDone; className := LogInfo |} ]
  /\ forall r inputs n,
       heap s !! r = Some n ->
       call_lines s (r, inputs)
       = if bool_decide (Node.type n = "print")
         then [ {| message :=
                     MsgPrint (if strict_neq (array_get inputs 0) JsUndefined
                               then array_get inputs 0 else JsString "없음");
                   className := LogInfo |} ]
         else [].
Proof.
  split.
  - destruct (executeGraph_trace_eq s) as (st & Hst & Heq).
    unfold executeGraph. rewrite Heq. simpl.
    rewrite (traverse_lines _ _ _ (trace_ok_start_run s) eq_refl eq_refl Hst).
    unfold start_run at 1. simpl. rewrite reset_all_output. simpl.
    rewrite <- !app_assoc. simpl. do 2 f_equal.
    f_equal. apply flat_map_ext. intros c.
    apply call_lines_same_graph, same_graph_start_run.
  - intros r inputs n Hn. unfold call_lines. simpl. rewrite Hn.
    unfold Node.execute. repeat case_bool_decide; simpl; congruence.
Qed.

(** *** The order of the calls *)

Lemma executeNode_inv_dep (I : Run -> Prop) (A : Run -> NodeRef -> Prop) :
  (forall node st, I st -> A st node -> node ∉ executed st -> I (visit node st)) ->
  (forall st conn, I st -> In conn (connections (editor st)) ->
                   Connection.fromNode conn ∈ executed st ->
                   A st (Connection.toNode conn)) ->
  forall fuel node st st',
    I st -> A st node -> executeNode fuel node st = Some st' -> I st'.
Proof.
  intros Hvisit Htargets. induction fuel as [|fuel IH]; simpl;
    intros node st st' HI HA Hrun; [discriminate|].
  case_bool_decide as Hex; [congruence|].
  pose proof (Hvisit _ _ HI HA Hex) as HI1.
  enough (I st' /\ node ∈ executed st'
          /\ connections (editor st') = connections (editor (visit node st)))
    as [H _]; [exact H|].
  revert Hrun.
  apply (foldl_bind_inv
           (fun x => I x /\ node ∈ executed x
                     /\ connections (editor x)
                        = connections (editor (visit node st)))).
  { split; [exact HI1|]. split; [simpl; set_solver|done]. }
  intros conn x x' [Hconn Hfrom%bool_decide_eq_true]%filter_In
    (Hx & Hnode & HC) Hstep.
  split; [|split].
  - apply (IH (Connection.toNode conn) x x' Hx); [|exact Hstep].
    apply Htargets; [done|by rewrite HC|by rewrite Hfrom].
  - apply executeNode_executed_mono in Hstep. set_solver.
  - rewrite <- HC. apply (sg_connections _ _ (executeNode_same_graph _ _ _ _ Hstep)).
Qed.

Lemma roots_inv_dep (I : Run -> Prop) (A : Run -> NodeRef -> Prop)
    (N : list NodeRef) :
  (forall node st, I st -> A st node -> node ∉ executed st -> I (visit node st)) ->
  (forall st conn, I st -> In conn (connections (editor st)) ->
                   Connection.fromNode conn ∈ executed st ->
                   A st (Connection.toNode conn)) ->
  (forall st pre n post, I st -> N = pre ++ n :: post ->
                         (forall m, In m pre -> m ∈ executed st) -> A st n) ->
  forall fuel post pre st st',
    N = pre ++ post -> I st -> (forall m, In m pre -> m ∈ executed st) ->
    foldl (fun acc node => acc ≫= executeRoot fuel node) (Some st) post
    = Some st' ->
    I st'.
Proof.
  intros Hvisit Htargets Hroot fuel.
  induction post as [|n post IH]; simpl; intros pre st st' HN HI Hpre Hrun.
  - congruence.
  - destruct (executeRoot fuel n st) as [y|] eqn:Hn;
      [|by rewrite foldl_bind_None in Hrun].
    pose proof (executeRoot_marks _ _ _ _ Hn) as [Hmark Hsub].
    apply (IH (pre ++ [n]) y st'); [by rewrite <- app_assoc| |
                                    |exact Hrun].
    + unfold executeRoot in Hn. case_bool_decide; [congruence|].
      apply (executeNode_inv_dep I A Hvisit Htargets fuel n st y HI);
        [|exact Hn].
      by apply (Hroot st pre n post).
    + intros m [Hm|[<-|[]]]%in_app_or; [|done]. apply Hsub. by apply Hpre.
Qed.

Lemma run_order_visit N C node st :
  run_order N C st -> cause N C (fun m => m ∈ executed st) node ->
  node ∉ executed st -> run_order N C (visit node st).
Proof.
  intros (HN & HC & Hok & Hcalls) Hcause Hex.
  pose proof (same_graph_visit node st) as Hsg.
  split; [by rewrite (sg_nodes _ _ Hsg)|].
  split; [by rewrite (sg_connections _ _ Hsg)|].
  split; [by apply trace_ok_visit|].
  intros l1 c i l2. simpl.
  destruct l2 as [|e l2 _] using rev_ind.
  - intros [Hl1 [= <- <-]]%app_inj_tail. rewrite <- Hl1.
    destruct Hok as [_ Hiff].
    destruct Hcause as [(conn & ? & ? & ?)|(pre & post & ? & Hpre)].
    + left. exists conn. by rewrite Hiff.
    + right. exists pre, post. split; [done|]. intros m Hm.
      by apply Hiff, Hpre.
  - rewrite app_comm_cons, app_assoc. intros [Hl _]%app_inj_tail.
    by apply (Hcalls l1 c i l2).
Qed.

Lemma run_order_traverse fuel st0 st :
  trace_ok st0 -> calls st0 = [] ->
  traverse fuel st0 = Some st ->
  run_order (nodes (editor st0)) (connections (editor st0)) st.
Proof.
  intros Hok Hcalls Hrun.
  set (N := nodes (editor st0)). set (C := connections (editor st0)).
  apply (roots_inv_dep (run_order N C)
           (fun x n => cause N C (fun m => m ∈ executed x) n) N)
    with (fuel := fuel) (post := N) (pre := []) (st := st0); auto.
  - intros n x Hx Hcause Hex. by apply run_order_visit.
  - intros x conn (_ & HC & _) Hconn Hfrom. left. exists conn.
    by rewrite <- HC.
  - intros x pre n post _ HN Hpre. right. by exists pre, post.
  - split; [done|]. split; [done|]. split; [done|].
    intros l1 c i l2. rewrite Hcalls. by destruct l1.
  - by intros m [].
Qed.

Lemma trace_run_order s :
  exists st, (executeGraph_trace s).2 = calls st
             /\ run_order (nodes s) (connections s) st.
Proof.
  destruct (executeGraph_trace_eq s) as (st & Hst & Heq).
  exists st. rewrite Heq. split; [done|].
  pose proof (run_order_traverse _ _ _ (trace_ok_start_run s) eq_refl Hst)
    as Hord.
  pose proof (same_graph_start_run s) as Hsg.
  by rewrite (sg_nodes _ _ Hsg), (sg_connections _ _ Hsg) in Hord.
Qed.

(** X10. [executeGraph] computes a node either after a node that a
    connection links to it, or at its turn in the node collection, when
    every node created before it has been computed; no node is computed
    twice. *)
Theorem executeGraph_call_cause s l1 c inputs l2 :
  (executeGraph_trace s).2 = l1 ++ (c, inputs) :: l2 ->
  cause (nodes s) (connections s) (fun m => m ∈ l1.*1) c
  /\ c ∉ l1.*1 /\ c ∉ l2.*1.
Proof.
  destruct (trace_run_order s) as (st & -> & _ & _ & [Hnd _] & Hcause).
  intros Hcalls. split; [by apply (Hcause l1 c inputs l2)|].
  rewrite Hcalls, fmap_app, fmap_cons in Hnd. simpl in Hnd.
  apply NoDup_app in Hnd as (_ & Hdisj & [Hc _]%NoDup_cons).
  split; [|done]. intros Hin. apply (Hdisj c Hin). by left.
Qed.

Lemma first_occurrence_prefix {A} (c : A) (pre post pre' post' : list A) :
  pre ++ c :: post = pre' ++ c :: post' -> ~ In c pre ->
  forall m, In m pre -> In m pre'.
Proof.
  revert pre'. induction pre as [|x pre IH]; intros pre' Heq Hc m Hm;
    [destruct Hm|].
  destruct pre' as [|y pre']; simpl in Heq.
  - injection Heq as -> _. exfalso. apply Hc. by left.
  - injection Heq as -> Heq. destruct Hm as [<-|Hm]; [by left|].
    right. apply (IH pre' Heq); [|done]. intros ?. apply Hc. by right.
Qed.

Lemma incoming_le_incoming_node node p (l : list Connection.t) :
  length (incoming node p l) <= length (incoming_node node l).
Proof.
  unfold incoming, incoming_node.
  induction l as [|x l IH]; simpl; [done|]. unfold same_input at 1.
  case_bool_decide; simpl; [|done]. case_bool_decide; simpl; lia.
Qed.

(** X11. A node with one incoming connection, created after the
    source of that connection, is computed with the final output of the
    source at the pin of the connection. *)
Theorem single_source_propagates s conn pre post inputs :
  incoming_node (Connection.toNode conn) (connections s) = [conn] ->
  nodes s = pre ++ Connection.toNode conn :: post ->
  In (Connection.fromNode conn) pre ->
  ~ In (Connection.toNode conn) pre ->
  In (Connection.toNode conn, inputs) (executeGraph_trace s).2 ->
  array_get inputs (Connection.toPin conn)
  = read_output (executeGraph s) (Connection.fromNode conn)
      (Connection.fromPin conn).
Proof.
  intros Hone Hnodes Hfrom Hfirst (l1 & l2 & Htrace)%in_split.
  assert (forall c, In c (connections s) ->
                    Connection.toNode c = Connection.toNode conn -> c = conn)
    as Honly.
  { intros c Hc Hto.
    assert (In c (incoming_node (Connection.toNode conn) (connections s)))
      as Hin by (apply filter_In; by rewrite bool_decide_eq_true).
    rewrite Hone in Hin. by destruct Hin as [<-|[]]. }
  assert (In conn (connections s)) as Hconn.
  { assert (In conn (incoming_node (Connection.toNode conn) (connections s)))
      as Hin by (rewrite Hone; by left).
    by apply filter_In in Hin as [? _]. }
  assert (Connection.fromNode conn ∈ l1.*1) as Hsrc.
  { destruct (trace_run_order s) as (st & Hcalls & _ & _ & _ & Hcause).
    rewrite Hcalls in Htrace.
    destruct (Hcause _ _ _ _ Htrace)
      as [(c & Hc & Hto & Hbefore)|(pre' & post' & Hnodes' & Hbefore)].
    - by rewrite (Honly c Hc Hto) in Hbefore.
    - apply Hbefore. rewrite Hnodes in Hnodes'.
      by apply (first_occurrence_prefix _ _ _ _ _ Hnodes' Hfirst). }
  destruct (executeGraph_inputs_at s _ _ _ _ Htrace) as [Hpins _].
  rewrite (Hpins conn Hconn eq_refl), bool_decide_eq_true_2; [done..|].
  etrans; [apply incoming_le_incoming_node|]. by rewrite Hone.
Qed.

(** *** Two sources *)

Lemma executeNode_trace_ok fuel node st st' :
  trace_ok st -> executeNode fuel node st = Some st' -> trace_ok st'.
Proof.
  intros Hok.
  apply (executeNode_inv trace_ok (fun _ => True)); auto.
  intros n x Hx _ Hex. by apply trace_ok_visit.
Qed.

Lemma finished_refl st : finished st st.
Proof. split; [done|]. split; [done|]. by intros conn _ ? ?. Qed.

Lemma finished_trans st1 st2 st3 :
  finished st1 st2 -> finished st2 st3 -> finished st1 st3.
Proof.
  intros (HC1 & Hsub1 & Hnew1) (HC2 & Hsub2 & Hnew2).
  split; [by rewrite HC2|]. split; [set_solver|].
  intros conn Hconn Hin Hout.
  destruct (decide (Connection.fromNode conn ∈ executed st2)) as [Hmid|Hmid].
  - apply Hsub2. by apply Hnew1.
  - apply Hnew2; [by rewrite HC1|done..].
Qed.

Lemma finished_children fuel (l : list Connection.t) st st' :
  (forall c x x', In c l -> executeNode fuel (Connection.toNode c) x = Some x' ->
                  finished x x') ->
  foldl (fun acc c => acc ≫= executeNode fuel (Connection.toNode c))
    (Some st) l = Some st' ->
  finished st st' /\ forall c, In c l -> Connection.toNode c ∈ executed st'.
Proof.
  revert st. induction l as [|c l IH]; simpl; intros st Hstep Hrun.
  - injection Hrun as <-. split; [apply finished_refl|]. by intros ? [].
  - destruct (executeNode fuel (Connection.toNode c) st) as [y|] eqn:Hc;
      [|by rewrite foldl_bind_None in Hrun].
    destruct (IH y) as [Hfin Hall]; [by eauto|done|].
    split.
    + eapply finished_trans; [|exact Hfin]. apply (Hstep c); [by left|done].
    + intros c' [<-|Hc']; [|by apply Hall].
      destruct Hfin as (_ & Hsub & _). apply Hsub.
      by apply executeNode_marks in Hc.
Qed.

(** When [executeNode] returns, the nodes it has computed have had
    the targets of their connections computed. *)
Lemma executeNode_finished fuel node st st' :
  executeNode fuel node st = Some st' -> finished st st'.
Proof.
  revert node st st'. induction fuel as [|fuel IH]; simpl;
    intros node st st' Hrun; [discriminate|].
  case_bool_decide as Hex; [injection Hrun as <-; apply finished_refl|].
  apply finished_children in Hrun as [(HC & Hsub & Hnew) Hkids];
    [|by intros c x x' _; apply IH].
  pose proof (sg_connections _ _ (same_graph_visit node st)) as HC1.
  split; [congruence|]. split; [simpl in Hsub; set_solver|].
  intros conn Hconn Hin Hout.
  destruct (decide (Connection.fromNode conn = node)) as [Heq|Hne].
  - apply Hkids. apply filter_In. rewrite <- HC1 in Hconn.
    split; [exact Hconn|]. by rewrite bool_decide_eq_true.
  - rewrite <- HC1 in Hconn. apply Hnew; [exact Hconn|done|]. simpl.
    set_solver.
Qed.

Lemma closed_finished C st st' :
  connections (editor st) = C -> closed C (executed st) ->
  finished st st' -> closed C (executed st').
Proof.
  intros HC Hclosed (_ & Hsub & Hnew) conn Hconn Hfrom.
  destruct (decide (Connection.fromNode conn ∈ executed st)) as [Hold|Hold].
  - apply Hsub. by apply Hclosed.
  - apply Hnew; [by rewrite HC|done..].
Qed.

Section TwoSources.
Variables (C : list Connection.t) (a b c : NodeRef).
Hypothesis Hab : a <> b.
Hypothesis Hac : exists conn, In conn C /\ Connection.fromNode conn = a
                              /\ Connection.toNode conn = c.
Hypothesis Hbc : exists conn, In conn C /\ Connection.fromNode conn = b
                              /\ Connection.toNode conn = c.
Hypothesis Ha : forall conn, In conn C -> Connection.toNode conn <> a.
Hypothesis Hb : forall conn, In conn C -> Connection.toNode conn <> b.

Lemma within_visit root st0 node st :
  closed C (executed st0) ->
  within C a b c root st0 st ->
  (node = root \/ exists conn, In conn C /\ Connection.toNode conn = node) ->
  node ∉ executed st -> within C a b c root st0 (visit node st).
Proof.
  intros Hclosed (HC & Hok & Hapart & Hsub & Hwa & Hwb) Hnode Hex.
  assert (forall x, x = a \/ x = b -> node = x -> x = root) as Hsrc.
  { intros x Hx <-. destruct Hnode as [|(conn & Hconn & Hto)]; [done|].
    exfalso. destruct Hx as [->| ->]; [by apply (Ha conn)|by apply (Hb conn)]. }
  split; [by rewrite (sg_connections _ _ (same_graph_visit node st))|].
  split; [by apply trace_ok_visit|].
  split; [|split; [simpl; set_solver|]].
  - intros l1 i l2. simpl. destruct l2 as [|e l2 _] using rev_ind.
    + intros [Hl1 [= -> _]]%app_inj_tail [Hina Hinb]. rewrite <- Hl1 in *.
      destruct Hok as [_ Hiff]. apply Hiff in Hina, Hinb.
      apply Hex.
      destruct (Hwa Hina) as [Ha0| ->]; [|destruct (Hwb Hinb) as [Hb0| ->]];
        [..|done].
      * destruct Hac as (conn & Hconn & Hfrom & <-).
        apply Hsub, Hclosed; [done|by rewrite Hfrom].
      * destruct Hbc as (conn & Hconn & Hfrom & <-).
        apply Hsub, Hclosed; [done|by rewrite Hfrom].
    + rewrite app_comm_cons, app_assoc. intros [Hl _]%app_inj_tail.
      by apply (Hapart l1 i l2).
  - simpl. split.
    + intros [Hn%elem_of_singleton|?]%elem_of_union; [|by auto].
      right. apply Hsrc; [by left|done].
    + intros [Hn%elem_of_singleton|?]%elem_of_union; [|by auto].
      right. apply Hsrc; [by right|done].
Qed.

Lemma between_executeRoot fuel root st st' :
  between C a b c st -> executeRoot fuel root st = Some st' ->
  between C a b c st'.
Proof.
  intros (HC & Hok & Hapart & Hclosed). unfold executeRoot.
  case_bool_decide as Hex; [by intros [= <-]|]. intros Hrun.
  pose proof (sg_connections _ _ (executeNode_same_graph _ _ _ _ Hrun)) as HC'.
  split; [by rewrite HC'|].
  split; [by eapply executeNode_trace_ok|].
  split; [|by eapply closed_finished, executeNode_finished].
  enough (within C a b c root st st') as (_ & _ & H & _); [exact H|].
  revert Hrun.
  apply (executeNode_inv (within C a b c root st)
           (fun n => n = root
                     \/ exists conn, In conn C /\ Connection.toNode conn = n)).
  - intros n x Hx Hn Hnex. by apply within_visit.
  - intros x conn (HCx & _) Hconn. right. exists conn. by rewrite <- HCx.
  - split; [done|]. split; [done|]. split; [done|]. split; [done|]. tauto.
  - by left.
Qed.

Lemma between_traverse fuel st st' :
  between C a b c st -> traverse fuel st = Some st' -> between C a b c st'.
Proof.
  intros Hb0. unfold traverse.
  apply (foldl_bind_inv (between C a b c)); [done|].
  intros n x x' _. apply between_executeRoot.
Qed.
End TwoSources.

Lemma two_sources_apart s ca cb l1 inputs l2 :
  In ca (connections s) -> In cb (connections s) ->
  Connection.toNode ca = Connection.toNode cb ->
  Connection.fromNode ca <> Connection.fromNode cb ->
  incoming_node (Connection.fromNode ca) (connections s) = [] ->
  incoming_node (Connection.fromNode cb) (connections s) = [] ->
  (executeGraph_trace s).2 = l1 ++ (Connection.toNode ca, inputs) :: l2 ->
  ~ (Connection.fromNode ca ∈ l1.*1 /\ Connection.fromNode cb ∈ l1.*1).
Proof.
  intros Hca Hcb Hto Hne Hna Hnb Htrace.
  assert (forall x, incoming_node x (connections s) = [] ->
                    forall conn, In conn (connections s) ->
                                 Connection.toNode conn <> x) as Hfree.
  { intros x Hx conn Hconn Heq.
    assert (In conn (incoming_node x (connections s))) as Hin
      by (apply filter_In; by rewrite bool_decide_eq_true).
    by rewrite Hx in Hin. }
  destruct (executeGraph_trace_eq s) as (st & Hst & Heq).
  rewrite Heq in Htrace. simpl in Htrace.
  pose proof (sg_connections _ _ (same_graph_start_run s)) as HC.
  assert (between (connections s) (Connection.fromNode ca)
            (Connection.fromNode cb) (Connection.toNode ca) (start_run s))
    as Hstart.
  { split; [done|]. split; [apply trace_ok_start_run|].
    split; [by intros [] ? ? ?|]. intros conn _. simpl. set_solver. }
  eapply between_traverse in Hstart as (_ & _ & Hres & _);
    [by apply (Hres l1 inputs l2)|done|by exists ca|by exists cb
     |by apply Hfree|by apply Hfree|exact Hst].
Qed.

(** X12. A node that two nodes feed, neither of which has an incoming
    connection, is never computed after both, whatever the order in
    which the nodes were created: the first of the two to be computed
    drags it along.  When the two are in the collection, it reads
    [undefined] at one of the two pins. *)
Theorem two_sources_never_meet s ca cb l1 inputs l2 :
  In ca (connections s) -> In cb (connections s) ->
  Connection.toNode ca = Connection.toNode cb ->
  Connection.fromNode ca <> Connection.fromNode cb ->
  incoming_node (Connection.fromNode ca) (connections s) = [] ->
  incoming_node (Connection.fromNode cb) (connections s) = [] ->
  (executeGraph_trace s).2 = l1 ++ (Connection.toNode ca, inputs) :: l2 ->
  ~ (Connection.fromNode ca ∈ l1.*1 /\ Connection.fromNode cb ∈ l1.*1)
  /\ (In (Connection.fromNode ca) (nodes s) ->
      In (Connection.fromNode cb) (nodes s) ->
      length (incoming (Connection.toNode ca) (Connection.toPin ca)
                (connections s)) <= 1 ->
      length (incoming (Connection.toNode cb) (Connection.toPin cb)
                (connections s)) <= 1 ->
      array_get inputs (Connection.toPin ca) = JsUndefined
      \/ array_get inputs (Connection.toPin cb) = JsUndefined).
Proof.
  intros Hca Hcb Hto Hne Hna Hnb Htrace.
  pose proof (two_sources_apart s ca cb l1 inputs l2 Hca Hcb Hto Hne Hna Hnb
                Htrace) as Hapart.
  split; [exact Hapart|].
  intros Hina Hinb Hfa Hfb.
  destruct (decide (Connection.fromNode ca ∈ l1.*1)) as [Ha|Ha].
  - right. apply (executeGraph_input_late s l1 _ inputs l2 cb Htrace);
      [done|done|by rewrite Hto| |done].
    intros Hb. by apply Hapart.
  - left. by apply (executeGraph_input_late s l1 _ inputs l2 ca Htrace).
Qed.

(** *** Which nodes are computed *)

Lemma closed_traverse fuel st st' :
  closed (connections (editor st)) (executed st) ->
  traverse fuel st = Some st' ->
  connections (editor st') = connections (editor st)
  /\ closed (connections (editor st)) (executed st').
Proof.
  intros Hclosed. unfold traverse.
  apply (foldl_bind_inv
           (fun x => connections (editor x) = connections (editor st)
                     /\ closed (connections (editor st)) (executed x)));
    [done|].
  intros n x x' _ [HC Hx]. unfold executeRoot.
  case_bool_decide; [by intros [= <-]|]. intros Hrun.
  pose proof (executeNode_finished _ _ _ _ Hrun) as Hfin.
  split; [|by eapply closed_finished].
  destruct Hfin as (HC' & _). by rewrite HC'.
Qed.

Lemma calls_downstream s st :
  run_order (nodes s) (connections s) st ->
  forall l1 l2, calls st = l1 ++ l2 -> forall m, m ∈ l1.*1 -> downstream s m.
Proof.
  intros (_ & _ & _ & Hcause).
  induction l1 as [|[c i] l1 IH] using rev_ind; intros l2 Hcalls m Hm.
  { by apply elem_of_nil in Hm. }
  rewrite <- app_assoc in Hcalls. simpl in Hcalls.
  rewrite fmap_app, elem_of_app in Hm. destruct Hm as [Hm|Hm].
  { by apply (IH ((c, i) :: l2)). }
  apply list_elem_of_singleton in Hm. simpl in Hm. subst m.
  destruct (Hcause l1 c i l2 Hcalls)
    as [(conn & Hconn & Hto & Hbefore)|(pre & post & Hnodes & _)].
  - destruct (IH ((c, i) :: l2) Hcalls _ Hbefore) as (r & Hr & Hpath).
    exists r. split; [done|]. eapply rtc_r; [exact Hpath|]. by exists conn.
  - exists c. split; [|done]. rewrite Hnodes. apply in_or_app. right. by left.
Qed.

(** X23. [executeGraph] computes the nodes of the collection and the nodes
    downstream of them, and no other: a node that was deleted is still
    computed when a connection that the deletion could not see leads
    to it. *)
Theorem executeGraph_runs_downstream s n :
  n ∈ (executeGraph_trace s).2.*1 <-> downstream s n.
Proof.
  split.
  - destruct (trace_run_order s) as (st & -> & Hord). intros Hn.
    apply (calls_downstream s st Hord (calls st) []); [|done].
    by rewrite app_nil_r.
  - intros (r & Hr & Hpath).
    destruct (executeGraph_trace_eq s) as (st & Hst & Heq).
    rewrite Heq. simpl.
    pose proof (traverse_trace_ok _ _ _ (trace_ok_start_run s) Hst) as [_ Hiff].
    apply Hiff.
    pose proof (same_graph_start_run s) as Hsg.
    destruct (closed_traverse (depth_bound s) (start_run s) st)
      as [_ Hclosed]; [|exact Hst|].
    { intros conn _. simpl. set_solver. }
    rewrite (sg_connections _ _ Hsg) in Hclosed.
    revert n Hpath. apply (rtc_ind_r (fun n => n ∈ executed st)).
    + unfold traverse in Hst. apply foldl_executeRoot_all in Hst as [_ Hall].
      apply Hall. by rewrite (sg_nodes _ _ Hsg).
    + intros m n _ (conn & Hconn & <- & <-) Hm. by apply Hclosed.
Qed.
(** *** Fields and outputs *)

Lemma member_insert (o : gmap string JsValue) k v : member (<[k := v]> o) k = v.
Proof. unfold member. by rewrite lookup_insert_eq. Qed.

Lemma parsed_again (f : float) :
  js_or (JsNumber (parseFloat (js_or (JsNumber f) (JsNumber zero))))
    (JsNumber zero)
  = js_or (JsNumber f) (JsNumber zero).
Proof.
  unfold js_or, ToBoolean.
  destruct (is_zero f) eqn:Hz, (is_nan f) eqn:Hn; simpl; try reflexivity.
  rewrite !Hz, Hn. reflexivity.
Qed.

(** X13. What is typed in the field of a node is what the node
    computes with: a number node outputs the number parsed from the
    text, 0 when there is none; a string node outputs the text, or
    ["Hello"] when the text is empty; a math node takes the parsed
    number for its operand A (index 0) or B (any other index) at a pin
    without input. *)
Theorem updateInput_then_execute (n : Node.t) index value inputs :
  (Node.type n = "number" ->
   Node.getOutput (Node.execute (Node.updateInput n index value) inputs).1 0
   = js_or (JsNumber (parseFloatString value)) (JsNumber zero))
  /\ (Node.type n = "string" ->
      Node.getOutput (Node.execute (Node.updateInput n index value) inputs).1 0
      = JsString (if bool_decide (value = "") then "Hello" else value))
  /\ (Node.type n = "math" ->
      let key := if bool_decide (index = 0%Z) then "valueA" else "valueB" in
      let pin := if bool_decide (index = 0%Z) then 0%Z else 1%Z in
      array_get inputs pin = JsUndefined ->
      Node.math_operand (Node.updateInput n index value) inputs pin key
      = js_or (JsNumber (parseFloatString value)) (JsNumber zero)).
Proof.
  split; [|split]; intros Hty.
  - unfold Node.updateInput, Node.execute. rewrite Hty. simpl. rewrite Hty.
    simpl. unfold Node.getOutput, array_get. simpl.
    rewrite lookup_insert_eq, member_insert. apply parsed_again.
  - unfold Node.updateInput, Node.execute. rewrite Hty. simpl. rewrite Hty.
    simpl. unfold Node.getOutput, array_get. simpl.
    rewrite lookup_insert_eq, member_insert. simpl.
    unfold js_or, ToBoolean. by case_bool_decide.
  - simpl. intros Hin. unfold Node.math_operand. rewrite Hin. simpl.
    unfold Node.updateInput. rewrite Hty. simpl.
    case_bool_decide; simpl; rewrite member_insert; apply parsed_again.
Qed.

End RunFacts.

(** ** Calls and ids *)

Section Calls.
Implicit Types (s : NodeEditor.t) (conn : Connection.t).

Lemma calls_inv (I : NodeEditor.t -> Prop) :
  I NodeEditor.new -> (forall s s', I s -> call s s' -> I s') ->
  forall s, reachable s \/ ui_reachable s -> I s.
Proof.
  intros Hnew Hstep s [Hs|Hs]; induction Hs;
    (exact Hnew || (eapply Hstep; [eassumption|constructor])).
Qed.

(** *** Connection ids *)

Lemma NoDup_map_filter {A B} (g : A -> B) (f : A -> bool) (l : list A) :
  NoDup (map g l) -> NoDup (map g (List.filter f l)).
Proof.
  induction l as [|x l IH]; simpl; [done|].
  intros [Hx Hl]%NoDup_cons. destruct (f x); simpl; [|auto].
  apply NoDup_cons. split; [|auto]. intros Hin. apply Hx.
  apply list_elem_of_In, in_map_iff in Hin as (y & Hy & [Hin _]%filter_In).
  apply list_elem_of_In, in_map_iff. eauto.
Qed.

Lemma connection_ids_filter f s :
  connection_ids_ok s ->
  connection_ids_ok (set_connections s (List.filter f (connections s))).
Proof.
  intros (Hnd & Hpos & Hlt). split; simpl; [by apply NoDup_map_filter|].
  split; [done|]. intros conn [Hin _]%filter_In. by apply Hlt.
Qed.

Lemma connection_ids_same s s' :
  connections s' = connections s ->
  connectionIdCounter s' = connectionIdCounter s ->
  connection_ids_ok s -> connection_ids_ok s'.
Proof. unfold connection_ids_ok. by intros -> ->. Qed.

Lemma connection_ids_createConnection fromNode fromPin toNode toPin s :
  connection_ids_ok s ->
  connection_ids_ok (createConnection fromNode fromPin toNode toPin s).
Proof.
  intros (Hnd & Hpos & Hlt). unfold createConnection.
  destruct (existsb (same_tuple _ _ _ _) _); [done|].
  destruct (existsb (same_input _ _) _); [done|].
  split; [|split]; simpl.
  - rewrite map_app. simpl. apply NoDup_app. split; [done|].
    split; [|apply NoDup_singleton].
    intros x Hx ->%list_elem_of_singleton.
    apply list_elem_of_In, in_map_iff in Hx as (conn & Hid & Hin).
    specialize (Hlt conn Hin). lia.
  - lia.
  - intros conn [Hin|[<-|[]]]%in_app_or; simpl; [|lia].
    specialize (Hlt conn Hin). lia.
Qed.

Lemma connection_ids_endConnection target s :
  connection_ids_ok s -> connection_ids_ok (endConnection target s).
Proof.
  intros Hs. unfold endConnection.
  destruct (connecting s); [|done].
  destruct (connectionStart s) as [start|]; [|done].
  destruct target as [nodeElement targetPinType targetPinIndex|]; [|done].
  destruct (find_node s nodeElement) as [targetNode|]; [|done].
  destruct (node start) as [startNode|]; [|done].
  destruct (_ && _); [|done].
  match goal with
  | |- connection_ids_ok (set_connecting ?x _ _) =>
      apply (connection_ids_same x); [done..|]
  end.
  by apply connection_ids_createConnection.
Qed.

Lemma connection_ids_call s s' :
  connection_ids_ok s -> call s s' -> connection_ids_ok s'.
Proof.
  intros Hs Hcall. destruct Hcall; try done.
  - unfold addNode. by destruct (Node.new _ _ _).
  - by apply connection_ids_endConnection.
  - by apply connection_ids_createConnection.
  - by apply connection_ids_filter.
  - unfold deleteNode. destruct (find_node _ _); [|done].
    by apply (connection_ids_filter _ s).
  - destruct Hs as (_ & Hpos & _). split; [apply NoDup_nil_2|].
    split; [done|]. by intros ? [].
  - pose proof (same_graph_executeGraph s) as Hsg.
    eapply connection_ids_same; [apply Hsg..|done].
Qed.

Lemma deleteConnection_one (l1 l2 : list Connection.t) conn :
  NoDup (map Connection.id (l1 ++ conn :: l2)) ->
  List.filter (fun c => negb (bool_decide (Connection.id c = Connection.id conn)))
    (l1 ++ conn :: l2)
  = l1 ++ l2.
Proof.
  rewrite map_app. simpl.
  intros (Hl1 & Hdisj & [Hc Hl2]%NoDup_cons)%NoDup_app.
  assert (forall l, (forall c, In c l -> Connection.id c <> Connection.id conn) ->
            List.filter
              (fun c => negb (bool_decide (Connection.id c = Connection.id conn))) l
            = l) as Hkeep.
  { induction l as [|x l IH]; simpl; [done|]. intros Hne.
    rewrite bool_decide_eq_false_2 by (apply Hne; by left). simpl.
    f_equal. apply IH. intros c Hin. apply Hne. by right. }
  rewrite List.filter_app. simpl. rewrite bool_decide_eq_true_2 by done. simpl.
  rewrite !Hkeep; [done|..].
  - intros c Hin Heq. apply Hc. rewrite <- Heq.
    apply list_elem_of_In, in_map. done.
  - intros c Hin Heq. apply (Hdisj (Connection.id c)).
    + by apply list_elem_of_In, in_map.
    + rewrite Heq. by left.
Qed.

(** X14. The ids of the connections are distinct, whatever was deleted
    or cleared in between, and below the counter; hence
    [deleteConnection] with the id of a connection removes that
    connection and keeps the others, in their order. *)
Theorem connection_ids_unique s :
  reachable s \/ ui_reachable s ->
  connection_ids_ok s
  /\ forall l1 conn l2,
       connections s = l1 ++ conn :: l2 ->
       connections (deleteConnection (Connection.id conn) s) = l1 ++ l2.
Proof.
  intros Hs.
  assert (connection_ids_ok s) as Hok.
  { revert s Hs. apply calls_inv; [|apply connection_ids_call].
    split; [apply NoDup_nil_2|]. split; [done|]. by intros ? []. }
  split; [exact Hok|]. intros l1 conn l2 Hl. simpl. rewrite Hl.
  apply deleteConnection_one. rewrite <- Hl. apply Hok.
Qed.

(** *** Node ids *)

Lemma NoDup_filter_list {A} (f : A -> bool) (l : list A) :
  NoDup l -> NoDup (List.filter f l).
Proof.
  induction l as [|x l IH]; simpl; [done|].
  intros [Hx Hl]%NoDup_cons. destruct (f x); [|auto].
  apply NoDup_cons. split; [|auto].
  intros [Hin _]%list_elem_of_In%filter_In. by apply Hx, list_elem_of_In.
Qed.

Lemma node_ids_sub s s' :
  (forall r, In r (nodes s') -> In r (nodes s)) -> NoDup (nodes s') ->
  heap s' = heap s -> nodeIdCounter s' = nodeIdCounter s ->
  node_ids_ok s -> node_ids_ok s'.
Proof.
  intros Hsub Hnd Hheap Hctr (_ & Hpos & Halloc & Hinj).
  split; [done|]. rewrite Hheap, Hctr. split; [done|]. split.
  - intros r Hr. by apply Halloc, Hsub.
  - intros r1 r2 n1 n2 H1 H2. apply Hinj; by apply Hsub.
Qed.

Lemma node_ids_heap s s' :
  nodes s' = nodes s -> nodeIdCounter s' = nodeIdCounter s ->
  (forall r n, heap s !! r = Some n ->
               exists n', heap s' !! r = Some n' /\ Node.id n' = Node.id n) ->
  node_ids_ok s -> node_ids_ok s'.
Proof.
  intros Hnodes Hctr Hheap (Hnd & Hpos & Halloc & Hinj).
  split; [by rewrite Hnodes|]. rewrite Hnodes, Hctr. split; [done|]. split.
  - intros r Hr. destruct (Halloc r Hr) as (n & Hn & Hid).
    destruct (Hheap r n Hn) as (n' & Hn' & Heq). exists n'. by rewrite Heq.
  - intros r1 r2 n1' n2' H1 H2 Hn1 Hn2 Hid.
    destruct (Halloc r1 H1) as (n1 & Hm1 & _).
    destruct (Halloc r2 H2) as (n2 & Hm2 & _).
    destruct (Hheap r1 n1 Hm1) as (k1 & Hk1 & Heq1).
    destruct (Hheap r2 n2 Hm2) as (k2 & Hk2 & Heq2).
    apply (Hinj r1 r2 n1 n2); try done. congruence.
Qed.

Lemma alter_keeps_id (f : Node.t -> Node.t) node (h : gmap NodeRef Node.t) :
  (forall n, Node.id (f n) = Node.id n) ->
  forall r n, h !! r = Some n ->
    exists n', alter f node h !! r = Some n' /\ Node.id n' = Node.id n.
Proof.
  intros Hf r n Hr. destruct (decide (r = node)) as [->|Hne].
  - rewrite lookup_alter_eq, Hr. simpl. eauto.
  - rewrite lookup_alter_ne by done. eauto.
Qed.

Lemma new_id id type config n :
  Node.new id type config = Normal n -> Node.id n = id.
Proof.
  unfold Node.new. destruct (Node.createElement _ _); [|done].
  by intros [= <-].
Qed.

Lemma node_ids_addNode type config s :
  node_ids_ok s -> node_ids_ok (addNode type config s).1.
Proof.
  intros (Hnd & Hpos & Halloc & Hinj). unfold addNode.
  destruct (Node.new _ _ _) as [n|e] eqn:Hnew; simpl.
  - apply new_id in Hnew.
    set (r := fresh (dom (heap s))).
    assert (r ∉ dom (heap s)) as Hfresh by apply is_fresh.
    assert (~ In r (nodes s)) as Hr.
    { intros Hin. destruct (Halloc r Hin) as (m & Hm & _).
      apply Hfresh, elem_of_dom. eauto. }
    split; [|split; [simpl; lia|split]]; simpl.
    + apply NoDup_app. split; [done|]. split; [|apply NoDup_singleton].
      intros x Hx ->%list_elem_of_singleton. by apply Hr, list_elem_of_In.
    + intros x [Hx|[<-|[]]]%in_app_or.
      * destruct (Halloc x Hx) as (m & Hm & Hid). exists m.
        rewrite lookup_insert_ne by (intros ->; done). split; [done|lia].
      * exists n. rewrite lookup_insert_eq. split; [done|lia].
    + intros r1 r2 n1 n2 H1 H2.
      apply in_app_or in H1 as [H1|[<-|[]]], H2 as [H2|[<-|[]]].
      * rewrite !lookup_insert_ne by (intros ->; done). by apply Hinj.
      * rewrite lookup_insert_ne by (intros ->; done).
        rewrite lookup_insert_eq. intros Hn1 [= <-] Hid.
        destruct (Halloc r1 H1) as (m & Hm & Hlt). simplify_eq. lia.
      * rewrite lookup_insert_eq.
        rewrite lookup_insert_ne by (intros ->; done). intros [= <-] Hn2 Hid.
        destruct (Halloc r2 H2) as (m & Hm & Hlt). simplify_eq. lia.
      * done.
  - split; [done|]. split; [simpl; lia|]. split; [|done].
    intros r Hr. destruct (Halloc r Hr) as (m & Hm & Hid). exists m.
    split; [done|]. simpl. lia.
Qed.

Lemma node_ids_createConnection fromNode fromPin toNode toPin s :
  node_ids_ok s -> node_ids_ok (createConnection fromNode fromPin toNode toPin s).
Proof.
  unfold createConnection.
  destruct (existsb (same_tuple _ _ _ _) _); [done|].
  by destruct (existsb (same_input _ _) _).
Qed.

Lemma node_ids_endConnection target s :
  node_ids_ok s -> node_ids_ok (endConnection target s).
Proof.
  intros Hs. unfold endConnection.
  destruct (connecting s); [|done].
  destruct (connectionStart s) as [start|]; [|done].
  destruct target as [nodeElement targetPinType targetPinIndex|]; [|done].
  destruct (find_node s nodeElement) as [targetNode|]; [|done].
  destruct (node start) as [startNode|]; [|done].
  destruct (_ && _); [|done].
  match goal with
  | |- node_ids_ok (set_connecting ?x _ _) =>
      apply (node_ids_heap x); [done..|by eauto|]
  end.
  by apply node_ids_createConnection.
Qed.

Lemma node_ids_call s s' : node_ids_ok s -> call s s' -> node_ids_ok s'.
Proof.
  intros Hs Hcall. destruct Hcall; try done.
  - by apply node_ids_addNode.
  - by apply node_ids_endConnection.
  - by apply node_ids_createConnection.
  - unfold deleteNode. destruct (find_node _ _); [|done].
    eapply node_ids_sub; [..|exact Hs]; simpl; try done.
    + by intros r [? _]%filter_In.
    + apply NoDup_filter_list, Hs.
  - eapply node_ids_sub; [..|exact Hs]; simpl; try done.
    apply NoDup_nil_2.
  - pose proof (same_graph_executeGraph s) as Hsg.
    eapply node_ids_heap; [apply Hsg..| |done].
    intros r n Hn. pose proof (sg_heap _ _ Hsg r) as Hr. rewrite Hn in Hr.
    inversion Hr as [? n' (Hid & _)|]; subst. eauto.
  - apply (node_ids_heap s); [done|done| |done]. simpl.
    apply alter_keeps_id. intros n. unfold Node.updateInput.
    by repeat case_bool_decide.
  - apply (node_ids_heap s); [done|done| |done]. simpl.
    by apply alter_keeps_id.
Qed.

(** X15. A node is in the collection once, is an object of the store,
    and no two nodes of the collection have the same id: the counter
    gives every node its own, also after a constructor that threw, a
    deletion or [clearAll]. *)
Theorem node_ids_unique s : reachable s \/ ui_reachable s -> node_ids_ok s.
Proof.
  revert s. apply calls_inv; [|apply node_ids_call].
  split; [apply NoDup_nil_2|]. split; [done|]. split; [by intros ? []|].
  by intros ? ? ? ? [].
Qed.

(** *** The gesture *)

(** X16. A connection can be drawn from either end: from the output pin
    to the input pin or from the input pin to the output pin, the
    editor ends in the same state. *)
Theorem endConnection_symmetric s a b i j :
  In a (nodes s) -> In b (nodes s) ->
  endConnection (PinConnector (ElementOf b) input j)
    (startConnection (ElementOf a) output i s)
  = endConnection (PinConnector (ElementOf a) output i)
      (startConnection (ElementOf b) input j s).
Proof.
  intros Ha Hb. unfold endConnection, startConnection. simpl.
  assert (forall e b' st, find_node (set_connecting s b' st) e = find_node s e)
    as Hfind by done.
  rewrite !Hfind, (find_node_In s a Ha), (find_node_In s b Hb). simpl.
  destruct (decide (a = b)) as [->|Hne].
  - by rewrite !(bool_decide_eq_false_2 (b ≠ b)) by auto.
  - rewrite (bool_decide_eq_true_2 (a ≠ b)) by done.
    rewrite (bool_decide_eq_true_2 (b ≠ a)) by done. simpl.
    unfold createConnection. simpl.
    destruct (existsb (same_tuple _ _ _ _) _); [done|].
    by destruct (existsb (same_input _ _) _).
Qed.

(** *** Deleting nodes *)

Lemma find_node_filter s s' n m :
  nodes s' = List.filter (fun x => bool_decide (x ≠ n)) (nodes s) ->
  find_node s' (ElementOf m)
  = if bool_decide (m = n) then None else find_node s (ElementOf m).
Proof.
  intros Hnodes. case_bool_decide as Heq.
  - subst m. destruct (find_node s' (ElementOf n)) as [x|] eqn:Hx; [|done].
    apply find_node_Some in Hx as [Hin [= <-]]. rewrite Hnodes in Hin.
    apply filter_In in Hin as [_ Hne]. by apply bool_decide_eq_true in Hne.
  - destruct (find_node s (ElementOf m)) as [x|] eqn:Hx.
    + apply find_node_Some in Hx as [Hin [= <-]].
      apply find_node_In. rewrite Hnodes. apply filter_In.
      by rewrite bool_decide_eq_true.
    + destruct (find_node s' (ElementOf m)) as [y|] eqn:Hy; [|done].
      apply find_node_Some in Hy as [Hin [= <-]]. rewrite Hnodes in Hin.
      apply filter_In in Hin as [Hin _]. apply find_node_In in Hin. congruence.
Qed.

Lemma filter_comm {A} (f g : A -> bool) (l : list A) :
  List.filter f (List.filter g l) = List.filter g (List.filter f l).
Proof.
  induction l as [|x l IH]; simpl; [done|].
  destruct (f x) eqn:Hf, (g x) eqn:Hg; simpl; rewrite ?Hf, ?Hg, IH; done.
Qed.

(** X17. Deleting a node twice is deleting it once, and two nodes can be
    deleted in either order. *)
Theorem deleteNode_commutes s e1 e2 :
  deleteNode e1 (deleteNode e1 s) = deleteNode e1 s
  /\ deleteNode e1 (deleteNode e2 s) = deleteNode e2 (deleteNode e1 s).
Proof.
  assert (forall e n, find_node s e = Some n ->
            forall e', find_node (deleteNode e s) e'
                       = if bool_decide (e' = e) then None else find_node s e')
    as Hafter.
  { intros e n Hn [m]. pose proof (find_node_Some _ _ _ Hn) as [Hin ->].
    rewrite (find_node_filter s _ n m).
    - repeat case_bool_decide; congruence.
    - unfold deleteNode. by rewrite Hn. }
  assert (forall x e, find_node x e = None -> deleteNode e x = x) as Hnone.
  { intros x e He. unfold deleteNode. by rewrite He. }
  split.
  - destruct (find_node s e1) as [n|] eqn:H1.
    + unfold deleteNode at 1. rewrite (Hafter e1 n H1).
      by rewrite bool_decide_eq_true_2.
    + by rewrite !(Hnone s).
  - destruct (decide (e1 = e2)) as [->|Hne]; [done|].
    destruct (find_node s e1) as [n1|] eqn:H1,
             (find_node s e2) as [n2|] eqn:H2.
    + unfold deleteNode at 1 3.
      rewrite (Hafter e2 n2 H2), (Hafter e1 n1 H1).
      rewrite !bool_decide_eq_false_2 by done. rewrite H1, H2.
      unfold deleteNode. rewrite H1, H2. unfold deselectAll. simpl.
      by rewrite (filter_comm _ _ (nodes s)), (filter_comm _ _ (connections s)).
    + rewrite (Hnone s e2 H2). symmetry. apply Hnone.
      rewrite (Hafter e1 n1 H1). by case_bool_decide.
    + rewrite (Hnone s e1 H1). apply Hnone.
      rewrite (Hafter e2 n2 H2). by case_bool_decide.
    + by rewrite (Hnone s e1 H1), (Hnone s e2 H2), (Hnone s e1 H1).
Qed.
End Calls.

(** ** The page *)

Section Page.
Context {rt : Builtins}.
Implicit Types (s : NodeEditor.t) (conn : Connection.t).

Lemma handle_ui_reachable ev s : ui_reachable s -> ui_reachable (handle ev s).1.
Proof.
  intros Hs. destruct ev as [[e ty i|e|]|e|target|key|[]|e|r i v|r v]; simpl;
    try by constructor.
  - destruct (connecting s); [by constructor|done].
  - case_bool_decide; [|done]. destruct (selectedNode s); [by constructor|done].
Qed.

Lemma page_reachable_ui s : page_reachable s -> ui_reachable s.
Proof.
  induction 1 as [|ev s _ IH _]; [constructor|by apply handle_ui_reachable].
Qed.

Lemma run_events_reachable evs s :
  page_reachable s -> all_delivered evs s = true ->
  page_reachable (run_events evs s).
Proof.
  revert s. induction evs as [|ev evs IH]; simpl; intros s Hs Hall; [done|].
  apply andb_prop in Hall as [Hev Hall]. apply IH; [|done].
  by apply page_event.
Qed.

(** *** Rendered pins *)

Lemma pin_exists_keep s s' r ty i :
  (forall n, heap s !! r = Some n ->
             exists n', heap s' !! r = Some n'
                        /\ Node.element n' = Node.element n) ->
  pin_exists s r ty i = true -> pin_exists s' r ty i = true.
Proof.
  unfold pin_exists. intros Hkeep.
  destruct (heap s !! r) as [n|]; [|done].
  destruct (Hkeep n eq_refl) as (n' & -> & ->). done.
Qed.

Lemma wired_step s s' :
  wired s ->
  (forall r n', heap s' !! r = Some n' -> declared_pins n') ->
  (forall r n, heap s !! r = Some n ->
               exists n', heap s' !! r = Some n'
                          /\ Node.element n' = Node.element n) ->
  (forall conn, In conn (connections s') -> In conn (connections s)) ->
  (connectionStart s' = connectionStart s \/ connectionStart s' = None) ->
  wired s'.
Proof.
  intros [Hheap Hconns Hstart] Hheap' Hkeep Hsub Hgesture. split.
  - exact Hheap'.
  - intros conn Hconn. destruct (Hconns conn (Hsub conn Hconn)) as [Hf Ht].
    split; eapply pin_exists_keep; eauto.
  - intros start r Hs' Hr. destruct Hgesture as [Heq|Heq]; [|congruence].
    rewrite Heq in Hs'. eapply pin_exists_keep; eauto.
Qed.

Lemma wired_same s s' :
  wired s -> heap s' = heap s ->
  (forall conn, In conn (connections s') -> In conn (connections s)) ->
  (connectionStart s' = connectionStart s \/ connectionStart s' = None) ->
  wired s'.
Proof.
  intros Hs Hheap. apply wired_step; [done|..]; rewrite Hheap; eauto.
  apply Hs.
Qed.

Lemma wired_createConnection fromNode fromPin toNode toPin s :
  wired s ->
  pin_exists s fromNode output fromPin = true ->
  pin_exists s toNode input toPin = true ->
  wired (createConnection fromNode fromPin toNode toPin s).
Proof.
  intros Hs Hfrom Hto. unfold createConnection.
  destruct (existsb (same_tuple _ _ _ _) _); [done|].
  destruct (existsb (same_input _ _) _); [apply (wired_same s); auto|].
  destruct Hs as [Hheap Hconns Hstart]. split; [done| |done].
  intros conn [Hin|[<-|[]]]%in_app_or; [by apply Hconns|done].
Qed.

Lemma wired_endConnection target s :
  wired s ->
  match target with
  | PinConnector (ElementOf r) ty i => pin_exists s r ty i = true
  | OtherTarget => True
  end ->
  wired (endConnection target s).
Proof.
  intros Hs Htarget.
  assert (forall x, wired x -> wired (set_connecting x false None)) as Hoff.
  { intros x Hx. apply (wired_same x); auto. }
  unfold endConnection.
  destruct (connecting s); [|by apply Hoff].
  destruct (connectionStart s) as [start|] eqn:Hstart; [|by apply Hoff].
  apply Hoff.
  destruct target as [nodeElement ty i|]; [|done].
  destruct (find_node s nodeElement) as [targetNode|] eqn:Hfind; [|done].
  destruct (node start) as [startNode|] eqn:Hnode; [|done].
  apply find_node_Some in Hfind as [_ ->].
  pose proof (wired_start s Hs start startNode Hstart Hnode) as Hpin.
  destruct (bool_decide (startNode ≠ targetNode)); [|done]. simpl.
  case_bool_decide as Hty; [|done]. simpl.
  destruct (pinType start), ty; try done; simpl;
    by apply wired_createConnection.
Qed.

Lemma new_declared id type config n info :
  Node.new id type config = Normal n ->
  Node.nodeTypes !! type = Some info -> declared_pins n.
Proof.
  unfold Node.new, Node.createElement, Node.getNodeInfo, Node.nodeTypes_get.
  intros Hnew Hinfo. rewrite Hinfo in Hnew. simpl in Hnew.
  injection Hnew as <-. exists info. simpl. split; [done|].
  by rewrite length_imap, length_map.
Qed.

Lemma wired_addNode type config s info :
  Node.nodeTypes !! type = Some info ->
  wired s -> wired (addNode type config s).1.
Proof.
  intros Hinfo Hs. unfold addNode.
  destruct (Node.new _ _ _) as [n|e] eqn:Hnew; simpl;
    [|apply (wired_same s); auto].
  pose proof (is_fresh (dom (heap s))) as Hfresh.
  apply (wired_step s); simpl; auto.
  - intros r n' Hr. apply lookup_insert_Some in Hr as [[_ <-]|[_ Hr]].
    + eapply new_declared; eauto.
    + by eapply wired_heap.
  - intros r m Hr. exists m. split; [|done].
    rewrite lookup_insert_ne; [done|]. intros <-.
    apply Hfresh, elem_of_dom. eauto.
Qed.

Lemma wired_identity s s' :
  wired s ->
  (forall r, option_Forall2 same_identity (heap s !! r) (heap s' !! r)) ->
  connections s' = connections s -> connectionStart s' = connectionStart s ->
  wired s'.
Proof.
  intros Hs Hheap HC Hstart. apply (wired_step s); auto.
  - intros r n' Hr. specialize (Hheap r). rewrite Hr in Hheap.
    inversion Hheap as [n ? (_ & Hty & _ & Hel) Hn|]; subst.
    destruct (wired_heap s Hs r n (eq_sym Hn)) as (info & ? & ? & ?).
    exists info. by rewrite Hty, Hel.
  - intros r n Hr. specialize (Hheap r). rewrite Hr in Hheap.
    inversion Hheap as [? n' (_ & _ & _ & Hel)|]; subst. eauto.
  - intros conn. by rewrite HC.
Qed.

Lemma wired_alter (f : Node.t -> Node.t) node s :
  (forall n, Node.type (f n) = Node.type n
             /\ Node.element (f n) = Node.element n) ->
  wired s -> wired (set_heap s (alter f node (heap s))).
Proof.
  intros Hf Hs. apply (wired_step s); simpl; auto.
  - intros r n' Hr. destruct (decide (r = node)) as [->|Hne].
    + rewrite lookup_alter_eq in Hr.
      destruct (heap s !! node) as [n|] eqn:Hn; [|done].
      injection Hr as <-. destruct (Hf n) as [Hty Hel].
      destruct (wired_heap s Hs node n Hn) as (info & ? & ? & ?).
      exists info. by rewrite Hty, Hel.
    + rewrite lookup_alter_ne in Hr by done. by eapply wired_heap.
  - intros r n Hr. destruct (decide (r = node)) as [->|Hne].
    + rewrite lookup_alter_eq, Hr. simpl. exists (f n). split; [done|].
      apply Hf.
    + rewrite lookup_alter_ne by done. eauto.
Qed.

Lemma wired_deleteNode nodeElement s : wired s -> wired (deleteNode nodeElement s).
Proof.
  intros Hs. unfold deleteNode. destruct (find_node _ _); [|done].
  apply (wired_same s); simpl; auto. by intros conn [? _]%filter_In.
Qed.

Lemma wired_handle ev s :
  wired s -> delivered s ev = true -> wired (handle ev s).1.
Proof.
  intros Hs Hev.
  destruct ev as [[[r] ty i|e|]|e|target|key|[]|e|r i v|r v]; simpl in *.
  - apply andb_prop in Hev as [Hr%bool_decide_eq_true%list_elem_of_In Hpin].
    destruct Hs as [Hheap Hconns Hstart]. split; [done..|]. simpl.
    intros start r' [= <-]. simpl. rewrite (find_node_In s r Hr).
    by intros [= <-].
  - apply (wired_same s); auto.
  - apply (wired_same s); auto.
  - apply (wired_same s); auto.
  - destruct (connecting s); [|done]. apply wired_endConnection; [done|].
    destruct target as [[r] ty i|e|]; simpl; [|done..].
    by apply andb_prop in Hev as [_ Hpin].
  - case_bool_decide; [|done]. destruct (selectedNode s); [|done].
    by apply wired_deleteNode.
  - eapply wired_addNode; [|done]. vm_compute. reflexivity.
  - eapply wired_addNode; [|done]. vm_compute. reflexivity.
  - eapply wired_addNode; [|done]. vm_compute. reflexivity.
  - eapply wired_addNode; [|done]. vm_compute. reflexivity.
  - pose proof (same_graph_executeGraph s) as Hsg.
    apply (wired_identity s); [done|apply Hsg..].
  - apply (wired_same s); simpl; auto. by intros ? [].
  - by apply wired_deleteNode.
  - apply wired_alter; [|done]. intros n. unfold Node.updateInput.
    by repeat case_bool_decide.
  - by apply wired_alter.
Qed.

Lemma page_reachable_wired s : page_reachable s -> wired s.
Proof.
  induction 1 as [|ev s _ IH Hev]; [|by apply wired_handle].
  split; simpl; [by intros ? ? ?|by intros ? []|by intros ? ? ?].
Qed.

Lemma nodeTypes_cases type info :
  Node.nodeTypes !! type = Some info ->
  (type = "number" /\ length (Node.inputs info) = 0 /\ length (Node.outputs info) = 1)
  \/ (type = "math" /\ length (Node.inputs info) = 2 /\ length (Node.outputs info) = 1)
  \/ (type = "string" /\ length (Node.inputs info) = 0 /\ length (Node.outputs info) = 1)
  \/ (type = "print" /\ length (Node.inputs info) = 1 /\ length (Node.outputs info) = 0).
Proof.
  unfold Node.nodeTypes. intros H.
  apply lookup_insert_Some in H as [[<- <-]|[_ H]]; [by left|].
  apply lookup_insert_Some in H as [[<- <-]|[_ H]]; [by right; left|].
  apply lookup_insert_Some in H as [[<- <-]|[_ H]]; [by right; right; left|].
  apply lookup_singleton_Some in H as [<- <-]. by right; right; right.
Qed.

Lemma pin_exists_spec s r ty i :
  pin_exists s r ty i = true ->
  exists n, heap s !! r = Some n
            /\ (0 <= i < Z.of_nat (length (pins ty (Node.element n))))%Z.
Proof.
  unfold pin_exists. destruct (heap s !! r) as [n|]; [|done].
  intros H%bool_decide_eq_true. eauto.
Qed.

(** X18. On the page every connection starts at the output pin of a
    number, math or string node and ends at pin A or B of a math node
    or at the pin of a print node: at pins that were rendered. *)
Theorem page_wiring s conn :
  page_reachable s -> In conn (connections s) ->
  exists nf nt,
    heap s !! Connection.fromNode conn = Some nf
    /\ heap s !! Connection.toNode conn = Some nt
    /\ Node.type nf ∈ ["number"; "math"; "string"]
    /\ Connection.fromPin conn = 0%Z
    /\ (Node.type nt = "math"
        /\ (Connection.toPin conn = 0%Z \/ Connection.toPin conn = 1%Z)
        \/ Node.type nt = "print" /\ Connection.toPin conn = 0%Z).
Proof.
  intros Hs%page_reachable_wired Hconn.
  destruct (wired_connections s Hs conn Hconn) as [Hfrom Hto].
  apply pin_exists_spec in Hfrom as (nf & Hnf & Hi).
  apply pin_exists_spec in Hto as (nt & Hnt & Hj).
  exists nf, nt. split; [done|]. split; [done|].
  destruct (wired_heap s Hs _ _ Hnf) as (info & Hinfo & _ & Hout).
  destruct (wired_heap s Hs _ _ Hnt) as (info' & Hinfo' & Hin & _).
  simpl in Hi, Hj. rewrite Hout in Hi. rewrite Hin in Hj.
  apply nodeTypes_cases in Hinfo, Hinfo'.
  split; [|split].
  - apply list_elem_of_In. simpl.
    destruct Hinfo as [(-> & _)|[(-> & _)|[(-> & _)|(_ & _ & Ho)]]];
      [tauto..|]. rewrite Ho in Hi. simpl in Hi. lia.
  - destruct Hinfo as [(_ & _ & Ho)|[(_ & _ & Ho)|[(_ & _ & Ho)|(_ & _ & Ho)]]];
      rewrite Ho in Hi; simpl in Hi; lia.
  - destruct Hinfo' as [(_ & Hl & _)|[(-> & Hl & _)|[(_ & Hl & _)|(-> & Hl & _)]]];
      rewrite Hl in Hj; simpl in Hj; [lia|left|lia|right]; (split; [done|lia]).
Qed.

Lemma ui_reachable_fan_in s : ui_reachable s -> fan_in_one s.
Proof.
  intros Hs.
  refine (ui_reachable_connections
            (fun l => forall toNode toPin, length (incoming toNode toPin l) <= 1)
            _ _ s Hs).
  - intros toNode toPin. simpl. lia.
  - intros l l' Hl Hstep. by eapply fan_in_list_step.
Qed.

Lemma page_no_input_pin s r n :
  page_reachable s -> heap s !! r = Some n ->
  Node.input_pins (Node.element n) = [] ->
  incoming_node r (connections s) = [].
Proof.
  intros Hs%page_reachable_wired Hn Hpins.
  destruct (incoming_node r (connections s)) as [|conn l] eqn:Hinc; [done|].
  assert (In conn (incoming_node r (connections s))) as Hin
    by (rewrite Hinc; by left).
  apply filter_In in Hin as [Hconn <-%bool_decide_eq_true].
  destruct (wired_connections s Hs conn Hconn) as [_ Hto].
  apply pin_exists_spec in Hto as (n' & Hn' & Hj). simplify_eq.
  simpl in Hj. rewrite Hpins in Hj. simpl in Hj. lia.
Qed.

(** X19. On the page, a node wired to two nodes that have no input pin
    (number or string nodes) never receives both values in one run:
    at one of the two pins it reads [undefined]. *)
Theorem page_two_sources s ca cb na nb l1 inputs l2 :
  page_reachable s ->
  In ca (connections s) -> In cb (connections s) ->
  Connection.toNode ca = Connection.toNode cb ->
  Connection.fromNode ca <> Connection.fromNode cb ->
  In (Connection.fromNode ca) (nodes s) -> In (Connection.fromNode cb) (nodes s) ->
  heap s !! Connection.fromNode ca = Some na ->
  heap s !! Connection.fromNode cb = Some nb ->
  Node.input_pins (Node.element na) = [] ->
  Node.input_pins (Node.element nb) = [] ->
  (executeGraph_trace s).2 = l1 ++ (Connection.toNode ca, inputs) :: l2 ->
  array_get inputs (Connection.toPin ca) = JsUndefined
  \/ array_get inputs (Connection.toPin cb) = JsUndefined.
Proof.
  intros Hs Hca Hcb Hto Hne Hina Hinb Hna Hnb Hpa Hpb Htrace.
  pose proof (ui_reachable_fan_in s (page_reachable_ui s Hs)) as Hfan.
  assert (~ (Connection.fromNode ca ∈ l1.*1 /\ Connection.fromNode cb ∈ l1.*1))
    as Hapart.
  { apply (two_sources_apart s ca cb l1 inputs l2); try done;
      by eapply page_no_input_pin. }
  destruct (decide (Connection.fromNode ca ∈ l1.*1)) as [Ha|Ha].
  - right. apply (executeGraph_input_late s l1 _ inputs l2 cb Htrace);
      [done|done|apply Hfan| |done].
    intros Hb. by apply Hapart.
  - left. apply (executeGraph_input_late s l1 _ inputs l2 ca Htrace);
      [done|done|apply Hfan|done|done].
Qed.

Lemma createConnection_free fromNode fromPin toNode toPin s :
  incoming toNode toPin (connections s) = [] ->
  connections (createConnection fromNode fromPin toNode toPin s)
  = connections s
    ++ [ {| Connection.id := connectionIdCounter s;
            Connection.fromNode := fromNode; Connection.fromPin := fromPin;
            Connection.toNode := toNode; Connection.toPin := toPin |} ].
Proof.
  intros Hfree. unfold createConnection.
  assert (existsb (same_input toNode toPin) (connections s) = false) as Hin
    by (by apply existsb_false_filter).
  destruct (existsb (same_tuple _ _ _ _) _) eqn:Hex.
  - apply existsb_exists in Hex as (c & Hc & Hsame%same_tuple_same_input).
    assert (In c (incoming toNode toPin (connections s))) as Hc'
      by (by apply filter_In).
    by rewrite Hfree in Hc'.
  - by rewrite Hin.
Qed.

(** X20. A gesture that is pending when its node is deleted is not
    cancelled: completed on a free input pin of another node, it
    creates a connection from the deleted node, and the page has a
    connection whose source is not in the node collection. *)
Theorem stale_gesture_dangles s a b i j :
  page_reachable s ->
  In a (nodes s) -> In b (nodes s) -> a <> b ->
  pin_exists s a output i = true -> pin_exists s b input j = true ->
  incoming b j (connections s) = [] ->
  let s' := run_events (stale_gesture a b i j) s in
  page_reachable s'
  /\ ~ In a (nodes s')
  /\ (exists conn, In conn (connections s')
                   /\ Connection.fromNode conn = a
                   /\ Connection.toNode conn = b)
  /\ ~ referential_integrity s'.
Proof.
  intros Hs Ha Hb Hne Hpa Hpb Hfree. simpl.
  set (s1 := selectNode (ElementOf a) s).
  set (s2 := startConnection (ElementOf a) output i s1).
  set (s3 := deleteNode (ElementOf a) s2).
  assert (page_reachable s1) as Hs1.
  { apply (page_event (mousedown (InNode (ElementOf a))) s Hs). simpl.
    by apply bool_decide_eq_true, list_elem_of_In. }
  assert (page_reachable s2) as Hs2.
  { apply (page_event (mousedown (OnPin (ElementOf a) output i)) s1 Hs1).
    simpl. apply andb_true_intro. split; [|done].
    by apply bool_decide_eq_true, list_elem_of_In. }
  assert (page_reachable s3) as Hs3.
  { exact (page_event (keydown "Delete") s2 Hs2 eq_refl). }
  assert (find_node s2 (ElementOf a) = Some a) as Hfa by (by apply find_node_In).
  assert (nodes s3 = List.filter (fun n => bool_decide (n ≠ a)) (nodes s))
    as Hnodes3.
  { unfold s3, deleteNode. by rewrite Hfa. }
  assert (connections s3
          = List.filter (fun conn => bool_decide (Connection.fromNode conn ≠ a)
                                     && bool_decide (Connection.toNode conn ≠ a))
              (connections s)) as Hconns3.
  { unfold s3, deleteNode. by rewrite Hfa. }
  assert (connecting s3 = true /\ connectionStart s3
          = Some {| node := Some a; pinType := output; pinIndex := i |})
    as [Hc3 Hstart3].
  { unfold s3, deleteNode. rewrite Hfa. simpl. split; [done|].
    do 2 f_equal. by apply (find_node_In s). }
  assert (In b (nodes s3)) as Hb3.
  { rewrite Hnodes3. apply filter_In. split; [done|].
    apply bool_decide_eq_true. congruence. }
  assert (~ In a (nodes s3)) as Ha3.
  { rewrite Hnodes3. intros [_ H%bool_decide_eq_true]%filter_In. done. }
  assert (incoming b j (connections s3) = []) as Hfree3.
  { rewrite Hconns3. by apply filter_nil_filter. }
  rewrite Hc3.
  set (s4 := endConnection _ s3).
  assert (page_reachable s4) as Hs4.
  { pose proof (page_event (mouseup (OnPin (ElementOf b) input j)) s3 Hs3) as H.
    simpl in H. rewrite Hc3 in H. apply H. apply andb_true_intro. split.
    - by apply bool_decide_eq_true, list_elem_of_In.
    - revert Hpb. apply pin_exists_keep. intros n Hn. exists n.
      split; [|done]. unfold s3, deleteNode. by rewrite Hfa. }
  assert (nodes s4 = nodes s3
          /\ connections s4
             = connections s3
               ++ [ {| Connection.id := connectionIdCounter s3;
                       Connection.fromNode := a; Connection.fromPin := i;
                       Connection.toNode := b; Connection.toPin := j |} ])
    as [Hnodes4 Hconns4].
  { unfold s4, endConnection. rewrite Hc3, Hstart3. simpl.
    rewrite (find_node_In s3 b Hb3).
    rewrite (bool_decide_eq_true_2 (a ≠ b)) by done. simpl.
    rewrite (createConnection_free a i b j s3 Hfree3). split; [|done].
    unfold createConnection.
    destruct (existsb (same_tuple _ _ _ _) _); [done|].
    by destruct (existsb (same_input _ _) _). }
  split; [exact Hs4|]. split; [by rewrite Hnodes4|].
  assert (In {| Connection.id := connectionIdCounter s3;
                Connection.fromNode := a; Connection.fromPin := i;
                Connection.toNode := b; Connection.toPin := j |}
            (connections s4)) as Hin.
  { rewrite Hconns4. apply in_or_app. right. by left. }
  split; [by eexists|].
  intros Hint. destruct (Hint _ Hin) as [Hfrom _]. simpl in Hfrom.
  by rewrite Hnodes4 in Hfrom.
Qed.

(** X21. Each of the four buttons adds one node, of its type, with the
    value of the counter as id and the pins declared for its type; the
    constructor does not throw, and the connections stay. *)
Theorem click_adds_node s button type :
  button_type button = Some type ->
  (handle (click button) s).2 = None
  /\ exists r n info,
       nodes (handle (click button) s).1 = nodes s ++ [r]
       /\ (r ∉ dom (heap s))
       /\ heap (handle (click button) s).1 = <[r := n]> (heap s)
       /\ Node.type n = type /\ Node.id n = nodeIdCounter s
       /\ Node.outputValues n = ∅
       /\ Node.nodeTypes !! type = Some info
       /\ length (Node.input_pins (Node.element n)) = length (Node.inputs info)
       /\ length (Node.output_pins (Node.element n)) = length (Node.outputs info)
       /\ nodeIdCounter (handle (click button) s).1 = (nodeIdCounter s + 1)%Z
       /\ connections (handle (click button) s).1 = connections s.
Proof.
  intros Hb.
  assert (forall ty config info,
            Node.nodeTypes !! ty = Some info ->
            (addNode ty config s).2 = None
            /\ exists r n info,
                 nodes (addNode ty config s).1 = nodes s ++ [r]
                 /\ (r ∉ dom (heap s))
                 /\ heap (addNode ty config s).1 = <[r := n]> (heap s)
                 /\ Node.type n = ty /\ Node.id n = nodeIdCounter s
                 /\ Node.outputValues n = ∅
                 /\ Node.nodeTypes !! ty = Some info
                 /\ length (Node.input_pins (Node.element n))
                    = length (Node.inputs info)
                 /\ length (Node.output_pins (Node.element n))
                    = length (Node.outputs info)
                 /\ nodeIdCounter (addNode ty config s).1 = (nodeIdCounter s + 1)%Z
                 /\ connections (addNode ty config s).1 = connections s) as Hadd.
  { intros ty config info Hinfo. unfold addNode, Node.new, Node.createElement,
      Node.getNodeInfo, Node.nodeTypes_get. rewrite Hinfo. simpl.
    split; [done|]. eexists _, _, info. split; [done|].
    split; [apply is_fresh|]. split; [done|]. simpl.
    by rewrite length_imap, length_map. }
  destruct button; simpl in Hb; simplify_eq; simpl.
  - eapply Hadd. vm_compute. reflexivity.
  - eapply Hadd. vm_compute. reflexivity.
  - eapply Hadd. vm_compute. reflexivity.
  - eapply Hadd. vm_compute. reflexivity.
Qed.

(** X22. The Delete key removes the selected node and its connections
    and clears the selection, so that pressing it again, or any other
    key, changes nothing. *)
Theorem delete_key s r :
  In r (nodes s) ->
  let s1 := (handle (keydown "Delete")
               (handle (mousedown (InNode (ElementOf r))) s).1).1 in
  nodes s1 = List.filter (fun n => bool_decide (n ≠ r)) (nodes s)
  /\ connections s1
     = List.filter (fun conn => bool_decide (Connection.fromNode conn ≠ r)
                                && bool_decide (Connection.toNode conn ≠ r))
         (connections s)
  /\ selectedNode s1 = None
  /\ forall key, (handle (keydown key) s1).1 = s1.
Proof.
  intros Hr. simpl. unfold deleteNode.
  assert (find_node (selectNode (ElementOf r) s) (ElementOf r) = Some r) as ->
    by (by apply find_node_In).
  simpl. split; [done|]. split; [done|]. split; [done|].
  intros key. by case_bool_decide.
Qed.
End Page.

(** ** The theorems on the example graphs *)

Lemma executeGraph_node_result_witness :
  In 1 (nodes pipeline_graph)
  /\ exists n inputs n',
       heap pipeline_graph !! 1 = Some n
       /\ In (1, inputs) (executeGraph_trace (rt := numeric_builtins) pipeline_graph).2
       /\ heap (executeGraph (rt := numeric_builtins) pipeline_graph) !! 1 = Some n'
       /\ same_identity n n'.
Proof.
  assert (In 1 (nodes pipeline_graph)) as Hin by (vm_compute; tauto).
  split; [exact Hin|].
  assert (exists n, heap pipeline_graph !! 1 = Some n) as [n Hn]
    by (eexists; vm_compute; reflexivity).
  destruct (executeGraph_node_result (rt := numeric_builtins)
              pipeline_graph 1 n Hin Hn)
    as (inputs & n' & Hcall & Hheap & _ & Hid & _).
  exists n, inputs, n'. split; [exact Hn|]. split; [exact Hcall|].
  split; [exact Hheap|exact Hid].
Defined.

Lemma executeGraph_inputs_witness :
  (executeGraph_trace (rt := numeric_builtins) pipeline_graph).2
  = [(0, ∅)] ++ (1, {[ 0%Z := JsNumber 10 ]}) :: [(2, {[ 0%Z := JsNumber 50 ]})]
  /\ array_get ({[ 0%Z := JsNumber 10 ]} : gmap Z JsValue) 1 = JsUndefined.
Proof.
  assert ((executeGraph_trace (rt := numeric_builtins) pipeline_graph).2
          = [(0, ∅)] ++ (1, {[ 0%Z := JsNumber 10 ]})
              :: [(2, {[ 0%Z := JsNumber 50 ]})]) as Htrace
    by (vm_compute; reflexivity).
  split; [exact Htrace|].
  apply (executeGraph_inputs (rt := numeric_builtins) pipeline_graph _ _ _ _ Htrace).
  vm_compute. reflexivity.
Defined.

Lemma executeGraph_call_cause_witness :
  (executeGraph_trace (rt := numeric_builtins) pipeline_graph).2
  = [(0, ∅)] ++ (1, {[ 0%Z := JsNumber 10 ]}) :: [(2, {[ 0%Z := JsNumber 50 ]})]
  /\ cause (nodes pipeline_graph) (connections pipeline_graph)
       (fun m => m ∈ [(0, ∅ : gmap Z JsValue)].*1) 1.
Proof.
  assert ((executeGraph_trace (rt := numeric_builtins) pipeline_graph).2
          = [(0, ∅)] ++ (1, {[ 0%Z := JsNumber 10 ]})
              :: [(2, {[ 0%Z := JsNumber 50 ]})]) as Htrace
    by (vm_compute; reflexivity).
  split; [exact Htrace|].
  exact (proj1 (executeGraph_call_cause (rt := numeric_builtins) pipeline_graph
                  _ _ _ _ Htrace)).
Defined.

Lemma single_source_propagates_witness :
  incoming_node 1 (connections pipeline_graph)
  = [ {| Connection.id := 0; Connection.fromNode := 0; Connection.fromPin := 0;
         Connection.toNode := 1; Connection.toPin := 0 |} ]
  /\ array_get ({[ 0%Z := JsNumber 10 ]} : gmap Z JsValue) 0
     = read_output (executeGraph (rt := numeric_builtins) pipeline_graph) 0 0.
Proof.
  assert (incoming_node 1 (connections pipeline_graph)
          = [ {| Connection.id := 0; Connection.fromNode := 0;
                 Connection.fromPin := 0; Connection.toNode := 1;
                 Connection.toPin := 0 |} ]) as Hone
    by (vm_compute; reflexivity).
  split; [exact Hone|].
  apply (single_source_propagates (rt := numeric_builtins) pipeline_graph
           {| Connection.id := 0; Connection.fromNode := 0;
              Connection.fromPin := 0; Connection.toNode := 1;
              Connection.toPin := 0 |} [0] [2]).
  - exact Hone.
  - vm_compute. reflexivity.
  - simpl. tauto.
  - simpl. intros [H|[]]. discriminate.
  - vm_compute. right. left. reflexivity.
Defined.

Lemma two_sources_never_meet_witness :
  (executeGraph_trace (rt := numeric_builtins) page_sum).2
  = [(0, ∅)] ++ (2, {[ 0%Z := JsNumber 0; 1%Z := JsUndefined ]}) :: [(1, ∅)]
  /\ ~ (0 ∈ [(0, ∅ : gmap Z JsValue)].*1 /\ 1 ∈ [(0, ∅ : gmap Z JsValue)].*1).
Proof.
  assert ((executeGraph_trace (rt := numeric_builtins) page_sum).2
          = [(0, ∅)] ++ (2, {[ 0%Z := JsNumber 0; 1%Z := JsUndefined ]}) :: [(1, ∅)]) as Htrace
    by (vm_compute; reflexivity).
  split; [exact Htrace|].
  refine (proj1 (two_sources_never_meet (rt := numeric_builtins) page_sum
                   {| Connection.id := 0; Connection.fromNode := 0;
                      Connection.fromPin := 0; Connection.toNode := 2;
                      Connection.toPin := 0 |}
                   {| Connection.id := 1; Connection.fromNode := 1;
                      Connection.fromPin := 0; Connection.toNode := 2;
                      Connection.toPin := 1 |} _ _ _ _ _ _ _ _ _ Htrace)).
  - vm_compute. left. reflexivity.
  - vm_compute. right. left. reflexivity.
  - reflexivity.
  - simpl. discriminate.
  - vm_compute. reflexivity.
  - vm_compute. reflexivity.
Defined.

Lemma connection_ids_unique_witness :
  reachable occupied_graph /\ connection_ids_ok occupied_graph.
Proof.
  assert (reachable occupied_graph) as Hreach
    by (unfold occupied_graph; repeat constructor).
  split; [exact Hreach|].
  exact (proj1 (connection_ids_unique occupied_graph (or_introl Hreach))).
Defined.

Lemma node_ids_unique_witness :
  reachable occupied_graph /\ node_ids_ok occupied_graph.
Proof.
  assert (reachable occupied_graph) as Hreach
    by (unfold occupied_graph; repeat constructor).
  split; [exact Hreach|].
  exact (node_ids_unique occupied_graph (or_introl Hreach)).
Defined.

Lemma endConnection_symmetric_witness :
  endConnection (PinConnector (ElementOf 2) input 1)
    (startConnection (ElementOf 1) output 0 occupied_graph)
  = endConnection (PinConnector (ElementOf 1) output 0)
      (startConnection (ElementOf 2) input 1 occupied_graph).
Proof.
  apply (endConnection_symmetric occupied_graph 1 2 0 1).
  - vm_compute. tauto.
  - vm_compute. tauto.
Defined.

Lemma page_wiring_witness :
  In {| Connection.id := 1; Connection.fromNode := 1; Connection.fromPin := 0;
        Connection.toNode := 2; Connection.toPin := 1 |} (connections page_sum)
  /\ exists nf nt,
       heap page_sum !! 1 = Some nf /\ heap page_sum !! 2 = Some nt
       /\ Node.type nf ∈ ["number"; "math"; "string"].
Proof.
  assert (In {| Connection.id := 1; Connection.fromNode := 1;
                Connection.fromPin := 0; Connection.toNode := 2;
                Connection.toPin := 1 |} (connections page_sum)) as Hin
    by (vm_compute; tauto).
  split; [exact Hin|].
  assert (page_reachable (rt := numeric_builtins) page_sum) as Hpage
    by (apply run_events_reachable; [apply page_new|vm_compute; reflexivity]).
  destruct (page_wiring (rt := numeric_builtins) page_sum _ Hpage Hin)
    as (nf & nt & Hnf & Hnt & Hty & _).
  exists nf, nt. split; [exact Hnf|]. split; [exact Hnt|exact Hty].
Defined.

Lemma page_two_sources_witness :
  (executeGraph_trace (rt := numeric_builtins) page_sum).2
  = [(0, ∅)] ++ (2, {[ 0%Z := JsNumber 0; 1%Z := JsUndefined ]}) :: [(1, ∅)]
  /\ (array_get ({[ 0%Z := JsNumber 0; 1%Z := JsUndefined ]} : gmap Z JsValue) 0 = JsUndefined
      \/ array_get ({[ 0%Z := JsNumber 0; 1%Z := JsUndefined ]} : gmap Z JsValue) 1 = JsUndefined).
Proof.
  assert ((executeGraph_trace (rt := numeric_builtins) page_sum).2
          = [(0, ∅)] ++ (2, {[ 0%Z := JsNumber 0; 1%Z := JsUndefined ]}) :: [(1, ∅)]) as Htrace
    by (vm_compute; reflexivity).
  split; [exact Htrace|].
  assert (exists na, heap page_sum !! 0 = Some na
                     /\ Node.input_pins (Node.element na) = []) as (na & Hna & Hpa)
    by (eexists; split; vm_compute; reflexivity).
  assert (exists nb, heap page_sum !! 1 = Some nb
                     /\ Node.input_pins (Node.element nb) = []) as (nb & Hnb & Hpb)
    by (eexists; split; vm_compute; reflexivity).
  assert (page_reachable (rt := numeric_builtins) page_sum) as Hpage
    by (apply run_events_reachable; [apply page_new|vm_compute; reflexivity]).
  apply (page_two_sources (rt := numeric_builtins) page_sum
           {| Connection.id := 0; Connection.fromNode := 0;
              Connection.fromPin := 0; Connection.toNode := 2;
              Connection.toPin := 0 |}
           {| Connection.id := 1; Connection.fromNode := 1;
              Connection.fromPin := 0; Connection.toNode := 2;
              Connection.toPin := 1 |} na nb [(0, ∅)]
           {[ 0%Z := JsNumber 0; 1%Z := JsUndefined ]} [(1, ∅)] Hpage).
  - vm_compute. tauto.
  - vm_compute. tauto.
  - reflexivity.
  - simpl. discriminate.
  - vm_compute. tauto.
  - vm_compute. tauto.
  - exact Hna.
  - exact Hnb.
  - exact Hpa.
  - exact Hpb.
  - exact Htrace.
Defined.

Lemma stale_gesture_dangles_witness :
  page_reachable (rt := numeric_builtins) page_pair
  /\ ~ referential_integrity
         (run_events (rt := numeric_builtins) (stale_gesture 0 1 0 0) page_pair).
Proof.
  assert (page_reachable (rt := numeric_builtins) page_pair) as Hpage
    by (apply run_events_reachable; [apply page_new|vm_compute; reflexivity]).
  split; [exact Hpage|].
  apply (stale_gesture_dangles (rt := numeric_builtins) page_pair 0 1 0 0 Hpage).
  - vm_compute. tauto.
  - vm_compute. tauto.
  - discriminate.
  - vm_compute. reflexivity.
  - vm_compute. reflexivity.
  - vm_compute. reflexivity.
Defined.

Lemma click_adds_node_witness :
  button_type addMathNode = Some "math"
  /\ (handle (rt := numeric_builtins) (click addMathNode) NodeEditor.new).2 = None.
Proof.
  split; [reflexivity|].
  exact (proj1 (click_adds_node (rt := numeric_builtins) NodeEditor.new
                  addMathNode "math" eq_refl)).
Defined.

Lemma delete_key_witness :
  In 0 (nodes occupied_graph)
  /\ selectedNode
       (handle (rt := numeric_builtins) (keydown "Delete")
          (handle (rt := numeric_builtins) (mousedown (InNode (ElementOf 0)))
             occupied_graph).1).1
     = None.
Proof.
  assert (In 0 (nodes occupied_graph)) as Hin by (vm_compute; tauto).
  split; [exact Hin|].
  apply (delete_key (rt := numeric_builtins) occupied_graph 0 Hin).
Defined.
